(** * The CSV bulk-import pipeline of unite-backend

    A shallow embedding of the asynchronous lead import:
    - [csvRowSchema] and the per-row handler of [CsvService.processCsvFile]
      (services/csvService.ts),
    - [LeadModel.bulkCreate] over the [leads] table of init-mysql.sql,
    - [S3Service.generateCsvUploadUrl] / [uploadBuffer] (services/s3Service.ts),
    - [CsvService.uploadCsvForProcessing], [sendToProcessingQueue],
    - [CsvProcessor.pollQueue] (workers/csvProcessor.ts).

    JavaScript strings are modelled by [string]: one [ascii] stands for one
    UTF-16 code unit below 256, so [String.length] is the [.length] of the
    source.  External services (S3, SQS, MongoDB, MySQL) are explicit
    components of a [World]; every call to one of them may throw, which is
    decided by an oracle passed to the operation. *)

From Stdlib Require Import Ascii String ZArith Lia.
From stdpp Require Import base tactics option list strings gmap fin_maps pretty.

Open Scope string_scope.
Open Scope list_scope.
Open Scope nat_scope.

(** ** Characters and strings *)

(** The double quote, used by Joi around field names in its messages. *)
Definition dq : string := String (ascii_of_nat 34) EmptyString.

Definition quoted (s : string) : string := dq +:+ s +:+ dq.

(** [Array.prototype.join]. *)
Fixpoint join (sep : string) (l : list string) : string :=
  match l with
  | [] => ""
  | [x] => x
  | x :: rest => x +:+ sep +:+ join sep rest
  end.

Fixpoint starts_with (p s : string) : bool :=
  match p, s with
  | EmptyString, _ => true
  | String a p', String b s' => bool_decide (a = b) && starts_with p' s'
  | String _ _, EmptyString => false
  end.

Definition code (c : ascii) : nat := nat_of_ascii c.

Definition in_range (lo hi c : ascii) : bool :=
  (code lo <=? code c)%nat && (code c <=? code hi)%nat.

Definition is_digit (c : ascii) : bool := in_range "0" "9" c.

Fixpoint all_chars (p : ascii → bool) (s : string) : bool :=
  match s with
  | EmptyString => true
  | String c s' => p c && all_chars p s'
  end.

(** ** Regular expressions

    The fragment of JavaScript regular expressions used by the repository:
    literals, character classes, concatenation, [?] and bounded
    repetition [{m,n}].  Matching is the backtracking matcher of the language,
    written with a continuation for the rest of the pattern. *)

Inductive regex : Type :=
| Chr (c : ascii)
| Class (p : ascii → bool)
| Seq (r1 r2 : regex)
| Opt (r : regex)
| Rep (lo hi : nat) (r : regex).

(** [r{lo,hi}] followed by [k], greedy: [step] matches one [r]. *)
Fixpoint repeat_match (step : string → (string → bool) → bool)
    (k : string → bool) (lo hi : nat) (s : string) {struct hi} : bool :=
  match hi with
  | O => (lo =? 0)%nat && k s
  | S hi' => step s (repeat_match step k (pred lo) hi') || ((lo =? 0)%nat && k s)
  end.

Fixpoint rmatch (r : regex) (s : string) (k : string → bool) : bool :=
  match r with
  | Chr c =>
      match s with
      | String a s' => bool_decide (a = c) && k s'
      | EmptyString => false
      end
  | Class p =>
      match s with
      | String a s' => p a && k s'
      | EmptyString => false
      end
  | Seq r1 r2 => rmatch r1 s (λ s', rmatch r2 s' k)
  | Opt r1 => rmatch r1 s k || k s
  | Rep lo hi r1 => repeat_match (rmatch r1) k lo hi s
  end.

Definition is_empty (s : string) : bool :=
  match s with EmptyString => true | _ => false end.

(** [/^r$/.test(s)] *)
Definition test_anchored (r : regex) (s : string) : bool := rmatch r s is_empty.

(** [/^\+?[1-9]\d{1,14}$/] *)
Definition phone_pattern : regex :=
  Seq (Opt (Chr "+")) (Seq (Class (in_range "1" "9")) (Rep 1 14 (Class is_digit))).

Definition phone_pattern_source : string := "/^\+?[1-9]\d{1,14}$/".

(** The E.164-like shape in words: an optional plus sign, a digit from 1 to
    9, then between 1 and 14 further digits, and nothing else. *)
Definition e164_digits (s : string) : bool :=
  match s with
  | String d rest =>
      in_range "1" "9" d && all_chars is_digit rest
      && (1 <=? String.length rest)%nat && (String.length rest <=? 14)%nat
  | EmptyString => false
  end.

Definition e164_like (s : string) : bool :=
  match s with
  | String "+" rest => e164_digits rest
  | _ => e164_digits s
  end.


(** ** Joi string schemas

    The part of Joi needed for [csvRowSchema]: string schemas with a
    presence flag, an optional [allow('')] and a list of rules, validated
    with [abortEarly: false] (every failed rule reports) and
    [stripUnknown: true] (keys outside the schema are dropped, not
    reported). *)

Inductive presence : Set := required | optional.

Inductive rule : Type :=
| r_min (limit : nat)
| r_max (limit : nat)
| r_pattern (r : regex) (source : string)
| r_email.

Record string_schema : Type := {
  ss_presence : presence;
  ss_allow_empty : bool;
  ss_rules : list rule;
}.

Inductive error_type : Set :=
| any_required
| string_empty
| string_min (limit : nat)
| string_max (limit : nat)
| string_pattern_base (value source : string)
| string_email.

Record detail : Set := { d_path : string; d_type : error_type }.

(** Joi's default message templates. *)
Definition message (d : detail) : string :=
  quoted (d_path d) +:+
  match d_type d with
  | any_required => " is required"
  | string_empty => " is not allowed to be empty"
  | string_min n => " length must be at least " +:+ pretty n +:+ " characters long"
  | string_max n =>
      " length must be less than or equal to " +:+ pretty n +:+ " characters long"
  | string_pattern_base v src =>
      " with value " +:+ quoted v +:+ " fails to match the required pattern: " +:+ src
  | string_email => " must be a valid email"
  end.

(** A raw record: the object csv-parser emits for one line, header names
    mapped to cell texts. *)
Abbreviation record := (gmap string string).

(** [CsvRow] of csvService.ts. *)
Record CsvRow : Set := {
  name : string;
  phone : string;
  email : option string;
  source : option string;
}.

(** One entry of [validation_errors]. *)
Record RowError : Type := {
  row : nat;
  data : record;
  error : string;
}.

Section Validator.

(** Joi's e-mail address check, a third-party routine. *)
Variable isEmail : string → bool.

Definition check_rule (key value : string) (r : rule) : list detail :=
  match r with
  | r_min n =>
      if (String.length value <? n)%nat
      then [ {| d_path := key; d_type := string_min n |} ] else []
  | r_max n =>
      if (n <? String.length value)%nat
      then [ {| d_path := key; d_type := string_max n |} ] else []
  | r_pattern re src =>
      if test_anchored re value then []
      else [ {| d_path := key; d_type := string_pattern_base value src |} ]
  | r_email =>
      if isEmail value then []
      else [ {| d_path := key; d_type := string_email |} ]
  end.

Definition validate_key (key : string) (sch : string_schema)
    (v : option string) : list detail :=
  match v with
  | None =>
      match ss_presence sch with
      | required => [ {| d_path := key; d_type := any_required |} ]
      | optional => []
      end
  | Some value =>
      if is_empty value then
        if ss_allow_empty sch then []
        else [ {| d_path := key; d_type := string_empty |} ]
      else flat_map (check_rule key value) (ss_rules sch)
  end.

Definition object_schema : Type := list (string * string_schema).

Definition strip_unknown (sch : object_schema) (d : record) : record :=
  filter (λ kv, kv.1 ∈ sch.*1) d.

(** [schema.validate(data, { abortEarly: false, stripUnknown: true })]:
    the details of the error (none when there is no error) and the value. *)
Definition validate (sch : object_schema) (d : record) : list detail * record :=
  (flat_map (λ ks, validate_key ks.1 ks.2 (d !! ks.1)) sch, strip_unknown sch d).

Definition name_schema : string_schema :=
  {| ss_presence := required; ss_allow_empty := false;
     ss_rules := [r_min 2; r_max 255] |}.

Definition phone_schema : string_schema :=
  {| ss_presence := required; ss_allow_empty := false;
     ss_rules := [r_pattern phone_pattern phone_pattern_source] |}.

Definition email_schema : string_schema :=
  {| ss_presence := optional; ss_allow_empty := true; ss_rules := [r_email] |}.

Definition source_schema : string_schema :=
  {| ss_presence := optional; ss_allow_empty := false; ss_rules := [r_max 100] |}.

Definition csvRowSchema : object_schema :=
  [ ("name", name_schema); ("phone", phone_schema);
    ("email", email_schema); ("source", source_schema) ].

(** The cast [value as CsvRow].  The required fields are present whenever
    validation reported no error (lemma [validate_ok_fields]). *)
Definition as_CsvRow (value : record) : CsvRow :=
  {| name := default "" (value !! "name");
     phone := default "" (value !! "phone");
     email := value !! "email";
     source := value !! "source" |}.

(** [if (data.email === '') delete data.email], same for [source]. *)
Definition delete_if_empty (key : string) (d : record) : record :=
  match d !! key with
  | Some "" => delete key d
  | _ => d
  end.

Definition normalize (d : record) : record :=
  delete_if_empty "source" (delete_if_empty "email" d).

(** The details Joi reports for one raw record, as the handler sees it. *)
Definition row_details (d : record) : list detail :=
  (validate csvRowSchema (normalize d)).1.

(** The state of the ['data'] handler: [rowNumber], [rows], [errors]. *)
Record collector : Type := {
  rowNumber : nat;
  rows : list CsvRow;
  errors : list RowError;
}.

Definition collector_init : collector :=
  {| rowNumber := 0; rows := []; errors := [] |}.

(** The ['data'] handler of [processCsvFile]. *)
Definition on_data (st : collector) (d : record) : collector :=
  let rowNumber' := S (rowNumber st) in
  let d' := normalize d in
  match validate csvRowSchema d' with
  | ([], value) =>
      {| rowNumber := rowNumber'; rows := rows st ++ [as_CsvRow value];
         errors := errors st |}
  | (details, _) =>
      {| rowNumber := rowNumber'; rows := rows st;
         errors := errors st ++
           [ {| row := rowNumber'; data := d';
                error := join ", " (message <$> details) |} ] |}
  end.

(** All ['data'] events of one stream, in order. *)
Definition collect (events : list record) : collector :=
  foldl on_data collector_init events.

(** The numbering in words: of the data rows that follow [offset] earlier
    ones, each invalid row gets an entry whose number is its 1-based
    position among all data rows. *)
Fixpoint numbered_errors (offset : nat) (events : list record) : list RowError :=
  match events with
  | [] => []
  | d :: rest =>
      match row_details d with
      | [] => numbered_errors (S offset) rest
      | details =>
          {| row := S offset; data := normalize d;
             error := join ", " (message <$> details) |}
          :: numbered_errors (S offset) rest
      end
  end.

End Validator.

(** White space ([\s], and what [trim] removes) on code units below 256:
    TAB, LF, VT, FF, CR, space, NBSP. *)
Definition is_space (c : ascii) : bool :=
  bool_decide (code c ∈ [9; 10; 11; 12; 13; 32; 160]).

(** [String.prototype.trim], used to state the length rule on the trimmed
    text. *)

Fixpoint trim_start (s : string) : string :=
  match s with
  | String c s' => if is_space c then trim_start s' else s
  | EmptyString => EmptyString
  end.

Fixpoint trim_end (s : string) : string :=
  match s with
  | String c s' =>
      let t := trim_end s' in
      if is_space c && is_empty t then EmptyString else String c t
  | EmptyString => EmptyString
  end.

Definition trim (s : string) : string := trim_end (trim_start s).

(** ** The [leads] table (init-mysql.sql) *)

(** [LeadStatus] of types/index.ts. *)
Inductive LeadStatus : Set := NEW | CONTACTED | QUALIFIED | CONVERTED.

Definition LeadStatus_value (s : LeadStatus) : string :=
  match s with
  | NEW => "new"
  | CONTACTED => "contacted"
  | QUALIFIED => "qualified"
  | CONVERTED => "converted"
  end.

Module Lead.
(** One row of [leads]; the two timestamp columns are left out. *)
Record t : Set := {
  id : nat;
  name : string;
  phone : string;
  email : option string;
  status : LeadStatus;
  source : option string;
  assigned_to : option nat;
  image_url : option string;
}.
End Lead.

(** The seven bound values of one [(?, ?, ?, ?, ?, ?, ?)] group, in the
    column order of the statement. *)
Record insert_values : Set := {
  v_name : string;
  v_phone : string;
  v_email : option string;
  v_status : LeadStatus;
  v_source : option string;
  v_assigned_to : option nat;
  v_image_url : option string;
}.

(** The MySQL side: the table, its AUTO_INCREMENT counter and the number of
    statements executed so far. *)
Record MySQL : Set := {
  leads : list Lead.t;
  auto_increment : nat;
  executed : nat;
}.

Section LeadStore.

(** The collation of the string columns: [collate s] is the sort key of
    [s]; two strings are equal for an index when their keys are. *)
Variable collate : string → string.

(** Equality of two (phone, email) pairs for the unique index: both
    columns equal under the collation; a NULL e-mail is equal to nothing,
    itself included. *)
Definition same_key (k k' : string * option string) : bool :=
  match k.2, k'.2 with
  | Some e, Some e' =>
      bool_decide (collate k.1 = collate k'.1)
      && bool_decide (collate e = collate e')
  | _, _ => false
  end.

Definition lead_key (l : Lead.t) : string * option string :=
  (Lead.phone l, Lead.email l).

Definition values_key (v : insert_values) : string * option string :=
  (v_phone v, v_email v).

(** [UNIQUE KEY unique_phone_email (phone, email)]: does the new tuple
    collide with the stored row? *)
Definition unique_phone_email (v : insert_values) (l : Lead.t) : bool :=
  same_key (values_key v) (lead_key l).

Definition duplicate_entry (tbl : list Lead.t) (v : insert_values) : bool :=
  existsb (unique_phone_email v) tbl.

Definition new_lead (i : nat) (v : insert_values) : Lead.t :=
  {| Lead.id := i; Lead.name := v_name v; Lead.phone := v_phone v;
     Lead.email := v_email v; Lead.status := v_status v;
     Lead.source := v_source v; Lead.assigned_to := v_assigned_to v;
     Lead.image_url := v_image_url v |}.

(** One tuple of [INSERT IGNORE]: a duplicate-key error is turned into a
    warning and the tuple is dropped; otherwise the row is appended and
    counted.  Either way the tuple takes the next AUTO_INCREMENT value: the
    table is InnoDB, which hands out the value before the key is checked
    and does not take it back ([innodb_autoinc_lock_mode] 1 or 2, the
    default of the MySQL 8.0 of terraform/main.tf), so an ignored tuple
    leaves a gap in the ids.  The state is the database and the rows
    affected so far. *)
Definition insert_ignore_one (st : MySQL * nat) (v : insert_values) : MySQL * nat :=
  if duplicate_entry (leads st.1) v
  then ({| leads := leads st.1;
           auto_increment := S (auto_increment st.1);
           executed := executed st.1 |},
        st.2)
  else ({| leads := leads st.1 ++ [new_lead (auto_increment st.1) v];
           auto_increment := S (auto_increment st.1);
           executed := executed st.1 |},
        S st.2).

(** [INSERT IGNORE INTO leads (...) VALUES (...), (...), ...]: the tuples
    are tried in order; the result is the new database and
    [affectedRows]. *)
Definition insert_ignore (db : MySQL) (vs : list insert_values) : MySQL * nat :=
  let st := foldl insert_ignore_one (db, 0) vs in
  ({| leads := leads st.1; auto_increment := auto_increment st.1;
      executed := S (executed st.1) |},
   st.2).

(** The dedup rule in words: of a batch, a tuple is kept unless a row
    already stored, or a tuple kept earlier in the same batch, has the same
    phone and the same non-NULL e-mail.  [stored] lists the keys present. *)
Fixpoint kept (stored : list (string * option string)) (vs : list insert_values)
    : list insert_values :=
  match vs with
  | [] => []
  | v :: rest =>
      if existsb (same_key (values_key v)) stored then kept stored rest
      else v :: kept (stored ++ [values_key v]) rest
  end.

(** The ids of the kept tuples: tuple number [j] of the statement, kept or
    not, takes the value [i + j]. *)
Fixpoint kept_ids (stored : list (string * option string)) (i : nat)
    (vs : list insert_values) : list nat :=
  match vs with
  | [] => []
  | v :: rest =>
      if existsb (same_key (values_key v)) stored then kept_ids stored (S i) rest
      else i :: kept_ids (stored ++ [values_key v]) (S i) rest
  end.

(** The rows a statement appends to the table: the kept tuples, each with
    the id of its place in the statement. *)
Definition appended (db : MySQL) (vs : list insert_values) : list Lead.t :=
  let stored := lead_key <$> leads db in
  zip_with new_lead (kept_ids stored (auto_increment db) vs) (kept stored vs).

End LeadStore.

(** JavaScript [x || d] on an optional string: [undefined] and [''] are
    falsy. *)
Definition or_else (x : option string) (d : option string) : option string :=
  match x with
  | Some s => if is_empty s then d else Some s
  | None => d
  end.

(** The tuple [bulkCreate] builds for one lead. *)
Definition lead_values (lead : CsvRow) : insert_values :=
  {| v_name := name lead;
     v_phone := phone lead;
     v_email := or_else (email lead) None;
     v_status := NEW;
     v_source := or_else (source lead) (Some "csv_import");
     v_assigned_to := None;
     v_image_url := None |}.

(** ** JSON, queue messages and the status collection *)

#[warnings="-register-all"]
Inductive json : Type :=
| JNull
| JBool (b : bool)
| JNumber (n : Z)
| JString (s : string)
| JArray (items : list json)
| JObject (members : list (string * json)).

(** A non-empty text, kept by what [JSON.parse] makes of it: the text
    [JSON.stringify j] of a value, or a text that is not JSON.  That
    [JSON.parse] gives back the value [JSON.stringify] was given (for
    values made of strings, integers, arrays and objects) is a property of
    the runtime that this representation takes for granted; what is modelled
    from the code is which members are written and which are read. *)
Inductive body_text : Type :=
| text_of (j : json)
| not_json (raw : string).

Definition JSON_stringify (j : json) : body_text := text_of j.

(** Thrown values: [Error] and the [ValidationError] of utils/errors. *)
Inductive exn : Set :=
| Error (msg : string)
| ValidationError (msg : string).

Definition exn_message (e : exn) : string :=
  match e with Error m | ValidationError m => m end.

Definition JSON_parse (t : body_text) : exn + json :=
  match t with
  | text_of j => inr j
  | not_json _ => inl (Error "Unexpected token in JSON")
  end.

(** The value of member [k] of a parsed object; of several members with the
    same name [JSON.parse] keeps the last. *)
Fixpoint assoc (k : string) (l : list (string * json)) : option json :=
  match l with
  | [] => None
  | (k', v) :: rest =>
      match assoc k rest with
      | Some v' => Some v'
      | None => if decide (k = k') then Some v else None
      end
  end.

(** [body.key] as the worker passes it on to [processCsvFile]: the text of
    a member that is a string, [None] for [undefined].  The uploader only
    writes strings there.  A member of another type (a number, an object)
    is handed on as it is by the code, and what the driver and the SDK make
    of such a value is not represented: it is read as [None] here, so
    bodies of that kind are outside what the development covers. *)
Definition string_member (key : string) (body : json) : option string :=
  match body with
  | JObject members =>
      match assoc key members with
      | Some (JString s) => Some s
      | _ => None
      end
  | _ => None
  end.

(** An SQS message attribute: [DataType] and [StringValue]. *)
Record attribute : Set := { DataType : string; StringValue : string }.

(** A received message; [Body] is [None] when the body is missing or
    empty. *)
Record Message : Type := {
  ReceiptHandle : string;
  Body : option body_text;
  MessageAttributes : list (string * attribute);
}.

Inductive JobStatus : Set := pending | processing | completed | failed.

Module CsvLog.
(** A document of the [CsvLog] collection (models/mongodb/CsvLog). *)
Record t : Type := {
  file_name : string;
  s3_key : string;
  upload_user_id : Z;
  status : JobStatus;
  total_rows : nat;
  successful_imports : nat;
  failed_imports : nat;
  validation_errors : list RowError;
  error_report : option string;
  processing_time_ms : option Z;
  started_at : option Z;
  created_at : Z;
  completed_at : option Z;
}.
End CsvLog.

(** ** The world: the four external stores *)

Record World : Type := {
  s3_csv : gmap string string;      (* the CSV bucket: key to object body *)
  csvlogs : gmap string CsvLog.t;   (* the CsvLog collection, by _id *)
  sqs : list Message;               (* messages held by the queue *)
  mysql : MySQL;
}.

(** The awaited calls to external services; each one may throw. *)
Inductive call : Set :=
| sign_put          (* getSignedUrl in generateCsvUploadUrl *)
| s3_put            (* PutObject in uploadBuffer *)
| csvlog_create     (* CsvLog.create *)
| sqs_send          (* SendMessage *)
| mark_processing   (* first CsvLog.updateOne *)
| sign_get          (* getSignedUrl in generateDownloadUrl *)
| http_fetch        (* fetch(downloadUrl) and res.text() *)
| mysql_execute     (* mysqlPool.execute *)
| mark_completed    (* CsvLog.updateOne of the try block *)
| mark_failed       (* CsvLog.updateOne of the catch block *)
| sqs_receive       (* ReceiveMessage *)
| sqs_delete.       (* DeleteMessage *)

(** What the outside decides during one operation: which calls throw (and
    with which message), the clock at entry and after the awaited work, the
    identifier MongoDB gives a new document, the receipt handle SQS gives a
    new message, which held message (if any) a receive returns, and which
    document (if any) a filter with an undefined [_id] matches. *)
Record Env : Type := {
  fault : call → option string;
  now : Z;
  later : Z;
  new_oid : string;
  new_handle : string;
  pick : option nat;
  undefined_id : option string;
}.

(** ** Computations: state over [World], exceptions as values *)

Definition M (A : Type) : Type := World → World * (exn + A).

Definition ret {A} (a : A) : M A := λ w, (w, inr a).
Definition throw {A} (e : exn) : M A := λ w, (w, inl e).
Definition bind {A B} (m : M A) (k : A → M B) : M B :=
  λ w, match m w with
       | (w', inr a) => k a w'
       | (w', inl e) => (w', inl e)
       end.
Definition try_catch {A} (m : M A) (handler : exn → M A) : M A :=
  λ w, match m w with
       | (w', inl e) => handler e w'
       | r => r
       end.
Definition get : M World := λ w, (w, inr w).
Definition modify (f : World → World) : M unit := λ w, (f w, inr tt).

Notation "'let!' x ':=' m 'in' k" := (bind m (λ x, k))
  (at level 10, x name, m at level 100, k at level 200,
   format "'[v' 'let!'  x  ':='  m  'in' '/' k ']'").
Notation "'do!' m 'in' k" := (bind m (λ _, k))
  (at level 10, m at level 100, k at level 200,
   format "'[v' 'do!'  m  'in' '/' k ']'").

(** An awaited external call: throws when the oracle says so. *)
Definition await (env : Env) (c : call) : M unit :=
  match fault env c with
  | Some msg => throw (Error msg)
  | None => ret tt
  end.

(** ** S3Service *)

(** [s.replace(/\s+/g, '_')]: every maximal run of white space becomes one
    underscore.  [in_run] tells that the previous character was white
    space. *)
Fixpoint replace_spaces_from (in_run : bool) (s : string) : string :=
  match s with
  | EmptyString => EmptyString
  | String c s' =>
      if is_space c then
        if in_run then replace_spaces_from true s'
        else String "_" (replace_spaces_from true s')
      else String c (replace_spaces_from false s')
  end.

Definition replace_spaces (s : string) : string := replace_spaces_from false s.

(** The key built by [generateCsvUploadUrl] when [Date.now()] is [t]. *)
Definition csv_key (t : Z) (fileName : string) : string :=
  "csv/" +:+ pretty t +:+ "-" +:+ replace_spaces fileName.

Definition generateCsvUploadUrl (env : Env) (fileName : string) : M string :=
  let key := csv_key (now env) fileName in
  do! await env sign_put in
  ret key.

(** [uploadBuffer(buffer, key, 'text/csv', S3_BUCKET_CSV)]: PutObject
    replaces whatever the key held. *)
Definition uploadBuffer (env : Env) (buffer key : string) : M unit :=
  do! await env s3_put in
  modify (λ w, {| s3_csv := <[key := buffer]> (s3_csv w); csvlogs := csvlogs w;
                  sqs := sqs w; mysql := mysql w |}).

(** [generateDownloadUrl]: the signed URL is represented by the key it
    gives access to; the SDK refuses a command without a key. *)
Definition generateDownloadUrl (env : Env) (key : option string) : M string :=
  match key with
  | None => throw (Error "No value provided for input HTTP label: Key.")
  | Some k => do! await env sign_get in ret k
  end.

(** [fetch(downloadUrl)], the [res.ok] test and [res.text()]. *)
Definition fetch_text (env : Env) (url : string) : M string :=
  do! await env http_fetch in
  let! w := get in
  match s3_csv w !! url with
  | Some content => ret content
  | None => throw (Error "Failed to download CSV: 404 Not Found")
  end.

(** ** The CsvLog collection *)

Definition set_csvlogs (f : gmap string CsvLog.t → gmap string CsvLog.t) : M unit :=
  modify (λ w, {| s3_csv := s3_csv w; csvlogs := f (csvlogs w);
                  sqs := sqs w; mysql := mysql w |}).

(** [CsvLog.create(doc)]: the document is stored under a new identifier. *)
Definition CsvLog_create (env : Env) (doc : CsvLog.t) : M string :=
  do! await env csvlog_create in
  let! w := get in
  match csvlogs w !! new_oid env with
  | Some _ => throw (Error "E11000 duplicate key error")
  | None => do! set_csvlogs (insert (new_oid env) doc) in ret (new_oid env)
  end.

(** [CsvLog.updateOne({ _id }, { $set })]: the matching document, if there
    is one, is changed.  [_id] is [None] when the caller passed
    [undefined]; what such a filter matches is left to the driver. *)
Definition CsvLog_updateOne (env : Env) (c : call) (_id : option string)
    (set : CsvLog.t → CsvLog.t) : M unit :=
  do! await env c in
  match _id with
  | Some i => set_csvlogs (alter set i)
  | None =>
      match undefined_id env with
      | Some i => set_csvlogs (alter set i)
      | None => ret tt
      end
  end.

Definition set_processing (started : Z) (l : CsvLog.t) : CsvLog.t :=
  {| CsvLog.file_name := CsvLog.file_name l; CsvLog.s3_key := CsvLog.s3_key l;
     CsvLog.upload_user_id := CsvLog.upload_user_id l;
     CsvLog.status := processing;
     CsvLog.total_rows := CsvLog.total_rows l;
     CsvLog.successful_imports := CsvLog.successful_imports l;
     CsvLog.failed_imports := CsvLog.failed_imports l;
     CsvLog.validation_errors := CsvLog.validation_errors l;
     CsvLog.error_report := CsvLog.error_report l;
     CsvLog.processing_time_ms := CsvLog.processing_time_ms l;
     CsvLog.started_at := Some started;
     CsvLog.created_at := CsvLog.created_at l;
     CsvLog.completed_at := CsvLog.completed_at l |}.

Definition set_completed (total successful : nat) (errs : list RowError)
    (elapsed finished : Z) (l : CsvLog.t) : CsvLog.t :=
  {| CsvLog.file_name := CsvLog.file_name l; CsvLog.s3_key := CsvLog.s3_key l;
     CsvLog.upload_user_id := CsvLog.upload_user_id l;
     CsvLog.status := completed;
     CsvLog.total_rows := total;
     CsvLog.successful_imports := successful;
     CsvLog.failed_imports := length errs;
     CsvLog.validation_errors := errs;
     CsvLog.error_report := CsvLog.error_report l;
     CsvLog.processing_time_ms := Some elapsed;
     CsvLog.started_at := CsvLog.started_at l;
     CsvLog.created_at := CsvLog.created_at l;
     CsvLog.completed_at := Some finished |}.

Definition set_failed (report : string) (finished : Z) (l : CsvLog.t) : CsvLog.t :=
  {| CsvLog.file_name := CsvLog.file_name l; CsvLog.s3_key := CsvLog.s3_key l;
     CsvLog.upload_user_id := CsvLog.upload_user_id l;
     CsvLog.status := failed;
     CsvLog.total_rows := CsvLog.total_rows l;
     CsvLog.successful_imports := CsvLog.successful_imports l;
     CsvLog.failed_imports := CsvLog.failed_imports l;
     CsvLog.validation_errors := CsvLog.validation_errors l;
     CsvLog.error_report := Some report;
     CsvLog.processing_time_ms := CsvLog.processing_time_ms l;
     CsvLog.started_at := CsvLog.started_at l;
     CsvLog.created_at := CsvLog.created_at l;
     CsvLog.completed_at := Some finished |}.

(** ** Upload policy *)

(** [Express.Multer.File] *)
Record MulterFile : Set := {
  mimetype : string;
  size : Z;
  originalname : string;
  buffer : string;
}.

Definition max_file_size : Z := 10 * 1024 * 1024.

(** The multer gate of routes/csv.ts: [fileFilter] and [limits.fileSize].
    It runs before the controller. *)
Definition multer_single (file : MulterFile) : exn + MulterFile :=
  if decide (mimetype file = "text/csv") then
    if decide (size file > max_file_size)%Z then inl (Error "File too large")
    else inr file
  else inl (Error "Only CSV files are allowed").

(** The job descriptor [{ csvLogId, s3Key, userId }]. *)
Record JobData : Set := { csvLogId : string; s3Key : string; userId : Z }.

Definition JobData_json (d : JobData) : json :=
  JObject [ ("csvLogId", JString (csvLogId d));
            ("s3Key", JString (s3Key d));
            ("userId", JNumber (userId d)) ].

Definition set_sqs (f : list Message → list Message) : M unit :=
  modify (λ w, {| s3_csv := s3_csv w; csvlogs := csvlogs w;
                  sqs := f (sqs w); mysql := mysql w |}).

Definition set_mysql (db : MySQL) : M unit :=
  modify (λ w, {| s3_csv := s3_csv w; csvlogs := csvlogs w;
                  sqs := sqs w; mysql := db |}).

(** [CsvService.sendToProcessingQueue] *)
Definition sendToProcessingQueue (env : Env) (d : JobData) : M unit :=
  let command :=
    {| ReceiptHandle := new_handle env;
       Body := Some (JSON_stringify (JobData_json d));
       MessageAttributes :=
         [ ("jobType", {| DataType := "String"; StringValue := "csv_processing" |}) ] |} in
  do! await env sqs_send in
  set_sqs (λ q, q ++ [command]).

(** [CsvService.uploadCsvForProcessing]; the result is [csvLogId] and
    [s3Key] (the third member is a constant text). *)
Definition uploadCsvForProcessing (env : Env) (file : MulterFile) (userId : Z)
    : M (string * string) :=
  if bool_decide (mimetype file ≠ "text/csv")
     && bool_decide (mimetype file ≠ "application/vnd.ms-excel")
  then throw (ValidationError "Only CSV files are allowed")
  else if bool_decide (size file > max_file_size)%Z
  then throw (ValidationError "File size must not exceed 10MB")
  else
    let fileName := originalname file in
    let! key := generateCsvUploadUrl env fileName in
    do! uploadBuffer env (buffer file) key in
    let! oid :=
      CsvLog_create env
        {| CsvLog.file_name := fileName; CsvLog.s3_key := key;
           CsvLog.upload_user_id := userId; CsvLog.status := pending;
           CsvLog.total_rows := 0; CsvLog.successful_imports := 0;
           CsvLog.failed_imports := 0; CsvLog.validation_errors := [];
           CsvLog.error_report := None; CsvLog.processing_time_ms := None;
           CsvLog.started_at := None; CsvLog.created_at := later env;
           CsvLog.completed_at := None |} in
    do! sendToProcessingQueue env {| csvLogId := oid; s3Key := key; userId := userId |} in
    ret (oid, key).

(** [CsvService.getUserCsvHistory], as a set of documents: the jobs of one
    uploader (the sort and the limit are left out). *)
Definition user_jobs (w : World) (uid : Z) : gmap string CsvLog.t :=
  filter (λ kv, CsvLog.upload_user_id kv.2 = uid) (csvlogs w).

Section Pipeline.

Variable isEmail : string → bool.
Variable collate : string → string.

(** csv-parser on the downloaded text: the records of the data lines (the
    first line gives the field names), or a stream error. *)
Variable csvParser : string → exn + list record.

(** [LeadModel.bulkCreate] *)
Definition bulkCreate (env : Env) (leads : list CsvRow) : M nat :=
  if decide (length leads = 0) then ret 0
  else
    let values := lead_values <$> leads in
    do! await env mysql_execute in
    let! w := get in
    let result := insert_ignore collate (mysql w) values in
    do! set_mysql result.1 in
    ret result.2.

Definition parse_csv (content : string) : M (list record) :=
  match csvParser content with
  | inl e => throw e
  | inr events => ret events
  end.

(** The [try] block of [processCsvFile]. *)
Definition process_steps (env : Env) (csvLogId s3Key : option string) : M unit :=
  let startTime := now env in
  do! CsvLog_updateOne env mark_processing csvLogId (set_processing (now env)) in
  let! downloadUrl := generateDownloadUrl env s3Key in
  let! csvContent := fetch_text env downloadUrl in
  let! events := parse_csv csvContent in
  let parsed := collect isEmail events in
  let! successfulImports := bulkCreate env (rows parsed) in
  let processingTime := (later env - startTime)%Z in
  CsvLog_updateOne env mark_completed csvLogId
    (set_completed (length (rows parsed) + length (errors parsed))
       successfulImports (errors parsed) processingTime (later env)).

(** [CsvService.processCsvFile]: the [catch] block records the failure
    and does not rethrow. *)
Definition processCsvFile (env : Env) (csvLogId s3Key : option string) : M unit :=
  try_catch (process_steps env csvLogId s3Key)
    (λ err, CsvLog_updateOne env mark_failed csvLogId
              (set_failed (exn_message err) (later env))).

(** [CsvProcessor.deleteMessage] *)
Definition deleteMessage (env : Env) (receiptHandle : string) : M unit :=
  do! await env sqs_delete in
  set_sqs (filter (λ m, ReceiptHandle m ≠ receiptHandle)).

Definition parse_body (t : body_text) : M json :=
  match JSON_parse t with
  | inl e => throw e
  | inr JNull => throw (Error "Cannot read properties of null")
  | inr body => ret body
  end.

(** The body of the [for] loop of [pollQueue], with its [try]/[catch];
    [message.Body || '{}'] is the body or the text of the empty object. *)
Definition handle_message (env : Env) (message : Message) : M unit :=
  try_catch
    (let! body := parse_body (default (text_of (JObject [])) (Body message)) in
     do! processCsvFile env (string_member "csvLogId" body) (string_member "s3Key" body) in
     deleteMessage env (ReceiptHandle message))
    (λ _, ret tt).

Fixpoint for_each {A} (f : A → M unit) (l : list A) : M unit :=
  match l with
  | [] => ret tt
  | x :: rest => do! f x in for_each f rest
  end.

(** [CsvProcessor.pollQueue]: at most one message is received; a received
    message stays in the queue until it is deleted. *)
Definition pollQueue (env : Env) : M unit :=
  do! await env sqs_receive in
  let! w := get in
  let Messages := option_list (pick env ≫= λ i, sqs w !! i) in
  match Messages with
  | [] => ret tt
  | _ => for_each (handle_message env) Messages
  end.

(** One step of the system: an upload request or one poll of the worker. *)
Inductive step : World → World → Prop :=
| step_upload env file uid w :
    step w (uploadCsvForProcessing env file uid w).1
| step_poll env w :
    step w (pollQueue env w).1.

End Pipeline.

(** ** Sample instances

    Concrete stand-ins for the third-party parts, used by the examples:
    an address check, a collation and a reader of plain CSV text. *)

Module Sample.

Fixpoint split_on (sep : ascii) (s : string) : list string :=
  match s with
  | EmptyString => [EmptyString]
  | String c s' =>
      if bool_decide (c = sep) then EmptyString :: split_on sep s'
      else match split_on sep s' with
           | cell :: cells => String c cell :: cells
           | [] => [String c EmptyString]
           end
  end.

Definition newline : ascii := ascii_of_nat 10.

(** Lines separated by LF, cells by commas, no quoting; the first line
    names the fields, empty lines are skipped. *)
Definition csv (content : string) : exn + list record :=
  match filter (λ l, l ≠ "") (split_on newline content) with
  | [] => inr []
  | header :: lines =>
      let headers := split_on "," header in
      inr ((λ line, list_to_map (zip headers (split_on "," line))) <$> lines)
  end.

(** An address is accepted when it has a character ["@"] with text on
    both sides. *)
Definition is_address (s : string) : bool :=
  match split_on "@" s with
  | [l; d] => negb (is_empty l) && negb (is_empty d)
  | _ => false
  end.

(** A binary collation. *)
Definition binary (s : string) : string := s.

Definition quiet : Env :=
  {| fault := λ _, None; now := 1700000000000; later := 1700000000042;
     new_oid := "65a000000000000000000001"; new_handle := "rh-1";
     pick := Some 0; undefined_id := None |}.

Definition empty_world : World :=
  {| s3_csv := ∅; csvlogs := ∅; sqs := [];
     mysql := {| leads := []; auto_increment := 1; executed := 0 |} |}.

Definition lines (l : list string) : string :=
  join (String newline EmptyString) l.

(** A second request served within the same millisecond. *)
Definition quiet_again : Env :=
  {| fault := λ _, None; now := 1700000000000; later := 1700000000043;
     new_oid := "65a000000000000000000002"; new_handle := "rh-2";
     pick := Some 0; undefined_id := None |}.

(** A request and a poll on the next day. *)
Definition next_day : Env :=
  {| fault := λ _, None; now := 1700086400000; later := 1700086400040;
     new_oid := "65a000000000000000000004"; new_handle := "rh-4";
     pick := Some 0; undefined_id := None |}.

(** The download fails once. *)
Definition fetch_fails : Env :=
  {| fault := λ c, match c with http_fetch => Some "fetch failed" | _ => None end;
     now := 1700000001000; later := 1700000001007;
     new_oid := "65a000000000000000000003"; new_handle := "rh-3";
     pick := Some 0; undefined_id := None |}.

Definition alice : record :=
  {[ "name" := "Alice"; "phone" := "+14155551234";
     "email" := "a@x.com"; "source" := "web" ]}.

Definition short_name : record :=
  {[ "name" := "B"; "phone" := "+15550001111"; "email" := ""; "source" := "" ]}.

Definition bob : record :=
  {[ "name" := "Bob"; "phone" := "5551234" ]}.

Definition padded_name : record :=
  {[ "name" := " a"; "phone" := "+14155551234" ]}.

Definition bad_phone : record :=
  {[ "name" := "Carol"; "phone" := "++1" ]}.

Definition leads_csv : string :=
  lines [ "name,phone,email,source"; "Alice,+14155551234,a@x.com,web" ].

Definition leads_file : MulterFile :=
  {| mimetype := "text/csv"; size := 54; originalname := "leads.csv";
     buffer := leads_csv |}.

Definition other_file : MulterFile :=
  {| mimetype := "text/csv"; size := 49; originalname := "leads.csv";
     buffer := lines [ "name,phone,email,source"; "Dan,+442071234567,," ] |}.

Definition big_file : MulterFile :=
  {| mimetype := "text/csv"; size := 11 * 1024 * 1024;
     originalname := "large.csv"; buffer := "" |}.

Definition job : JobData :=
  {| csvLogId := "65a000000000000000000001";
     s3Key := "csv/1700000000000-leads.csv"; userId := 7 |}.

(** A table that already holds a lead. *)
Definition stored_lead (e : option string) : Lead.t :=
  {| Lead.id := 1; Lead.name := "Alice"; Lead.phone := "+14155551234";
     Lead.email := e; Lead.status := CONTACTED; Lead.source := Some "web";
     Lead.assigned_to := None; Lead.image_url := None |}.

Definition world_with_lead (e : option string) : World :=
  {| s3_csv := ∅; csvlogs := ∅; sqs := [];
     mysql := {| leads := [stored_lead e]; auto_increment := 2; executed := 0 |} |}.

Definition same_phone_row (e : option string) : CsvRow :=
  {| name := "Alice B"; phone := "+14155551234"; email := e; source := None |}.

(** The same file imported twice. *)
Definition uploaded : World :=
  (uploadCsvForProcessing quiet leads_file 7 empty_world).1.
Definition imported : World :=
  (pollQueue is_address binary csv quiet uploaded).1.
Definition uploaded_again : World :=
  (uploadCsvForProcessing next_day leads_file 7 imported).1.
Definition imported_again : World :=
  (pollQueue is_address binary csv next_day uploaded_again).1.

End Sample.

(** ** Specifications of computations

    [hoare P m Q E]: from a world satisfying [P], [m] ends either with a
    value [a] in a world satisfying [Q a], or with an exception [e] in a
    world satisfying [E e]. *)

Definition hoare {A} (P : World → Prop) (m : M A)
    (Q : A → World → Prop) (E : exn → World → Prop) : Prop :=
  ∀ w, P w → match m w with
             | (w', inr a) => Q a w'
             | (w', inl e) => E e w'
             end.

(** [I] holds at the normal and at the exceptional exit whenever it holds at
    the start. *)
Definition keeps {A} (I : World → Prop) (m : M A) : Prop :=
  hoare I m (λ _, I) (λ _, I).

(** The MIME types [uploadCsvForProcessing] lets through. *)
Definition csv_compatible (m : string) : Prop :=
  m = "text/csv" ∨ m = "application/vnd.ms-excel".

(** The counters of a status document are consistent: the failed rows are
    the recorded errors, and imported plus failed rows do not exceed the
    total. *)
Definition counters_ok (l : CsvLog.t) : Prop :=
  CsvLog.failed_imports l = length (CsvLog.validation_errors l)
  ∧ CsvLog.successful_imports l + CsvLog.failed_imports l ≤ CsvLog.total_rows l.

Definition logs_ok (w : World) : Prop :=
  map_Forall (λ _ l, counters_ok l) (csvlogs w).

(** The worlds the system can be in: it starts without status documents and
    moves by uploads and polls. *)
Definition reachable (isEmail : string → bool) (collate : string → string)
    (csvParser : string → exn + list record) (w : World) : Prop :=
  ∃ w0, csvlogs w0 = ∅ ∧ rtc (step isEmail collate csvParser) w0 w.

(** ** Reading a job back: [CsvService.getCsvStatus] *)

Module StatusView.
(** The object [getCsvStatus] returns. *)
Record t : Type := {
  id : string;
  file_name : string;
  status : JobStatus;
  total_rows : nat;
  successful_imports : nat;
  failed_imports : nat;
  validation_errors : option (list RowError);
  processing_time_ms : option Z;
  created_at : option Z;
  completed_at : option Z;
}.
End StatusView.

(** What mongoose throws for an [_id] that is no ObjectId. *)
Definition cast_error (value : string) : string :=
  "Cast to ObjectId failed for value " +:+ quoted value
  +:+ " (type string) at path " +:+ quoted "_id"
  +:+ " for model " +:+ quoted "CsvLog".

(** [CsvLog.findById(id)].  Mongoose first casts the text to an ObjectId
    and rejects with a CastError when it is none; [cast] is that
    third-party routine: [cast s] is the ObjectId [s] stands for, written as
    the hex text its [toString()] gives, which is how the collection is
    keyed here.  [failure] is the error the query throws after that, if
    any. *)
Definition CsvLog_findById (cast : string → option string)
    (failure : option string) (_id : string) : M (option (string * CsvLog.t)) :=
  match cast _id with
  | None => throw (Error (cast_error _id))
  | Some oid =>
      match failure with
      | Some msg => throw (Error msg)
      | None => let! w := get in ret (pair oid <$> csvlogs w !! oid)
      end
  end.

(** [CsvService.getCsvStatus] *)
Definition getCsvStatus (cast : string → option string)
    (failure : option string) (csvLogId : string) : M StatusView.t :=
  let! csvLog := CsvLog_findById cast failure csvLogId in
  match csvLog with
  | None => throw (ValidationError "CSV log not found")
  | Some (_id, l) =>
      ret {| StatusView.id := _id;
             StatusView.file_name := CsvLog.file_name l;
             StatusView.status := CsvLog.status l;
             StatusView.total_rows := CsvLog.total_rows l;
             StatusView.successful_imports := CsvLog.successful_imports l;
             StatusView.failed_imports := CsvLog.failed_imports l;
             StatusView.validation_errors := Some (CsvLog.validation_errors l);
             StatusView.processing_time_ms := CsvLog.processing_time_ms l;
             StatusView.created_at := Some (CsvLog.created_at l);
             StatusView.completed_at := CsvLog.completed_at l |}
  end.

(** ** [S3Service.generateImageUploadUrl] *)

Definition allowedTypes : list string :=
  [ "image/jpeg"; "image/png"; "image/jpg"; "image/webp" ].

Definition mimeToExt : list (string * string) :=
  [ ("image/jpeg", "jpg"); ("image/jpg", "jpg");
    ("image/png", "png"); ("image/webp", "webp") ].

Fixpoint lookup_ext (table : list (string * string)) (fileType : string)
    : option string :=
  match table with
  | [] => None
  | (k, v) :: rest => if decide (k = fileType) then Some v else lookup_ext rest fileType
  end.

(** The key and the public URL of [generateImageUploadUrl]; [uuid] is the
    value of [uuidv4()], [failure] what [getSignedUrl] throws, if anything,
    [bucket] and [region] the configured [S3_BUCKET_IMAGES] and [REGION]. *)
Definition generateImageUploadUrl (bucket region uuid : string)
    (failure : option string) (fileType : string) : exn + string * string :=
  if bool_decide (fileType ∈ allowedTypes) then
    let fileExtension := default "bin" (lookup_ext mimeToExt fileType) in
    let key := "images/" +:+ uuid +:+ "." +:+ fileExtension in
    match failure with
    | Some msg => inl (Error msg)
    | None =>
        inr (key, "https://" +:+ bucket +:+ ".s3." +:+ region
                  +:+ ".amazonaws.com/" +:+ key)
    end
  else inl (Error "Invalid file type. Only JPEG, PNG, and WebP images are allowed").

#[global] Instance LeadStatus_eq_dec : EqDecision LeadStatus.
Proof. solve_decision. Defined.

(** ** Single leads: [LeadModel] and [LeadService]

    These operations touch the [leads] table only; they run over the
    [MySQL] state, with the error classes of the service layer.  The
    cache invalidations of the service are calls that may throw; the
    contents of the cache are not represented. *)

Module Svc.

Inductive exn : Set :=
| Error (msg : string)
| ValidationError (msg : string)
| ConflictError (msg : string)
| NotFoundError (msg : string)
| ER_DUP_ENTRY (msg : string).

(** The awaited calls of the lead service. *)
Inductive call : Set :=
| select_duplicate    (* findByPhoneOrEmail *)
| insert_lead         (* LeadModel.create *)
| select_by_id        (* findById after the insert or before the delete *)
| delete_lead         (* LeadModel.delete *)
| count_by_status     (* LeadModel.countByStatus *)
| cache_flush         (* cacheService.flushPattern *)
| cache_del.          (* cacheService.del *)

Definition Q (A : Type) : Type := MySQL → MySQL * (exn + A).

Definition ret {A} (a : A) : Q A := λ db, (db, inr a).
Definition throw {A} (e : exn) : Q A := λ db, (db, inl e).
Definition bind {A B} (m : Q A) (k : A → Q B) : Q B :=
  λ db, match m db with
        | (db', inr a) => k a db'
        | (db', inl e) => (db', inl e)
        end.

(** A call that only succeeds or throws. *)
Definition await (fault : call → option string) (c : call) : Q unit :=
  match fault c with
  | Some msg => throw (Error msg)
  | None => ret tt
  end.

(** [mysqlPool.execute]: throws, or counts one more statement. *)
Definition execute (fault : call → option string) (c : call) : Q unit :=
  match fault c with
  | Some msg => throw (Error msg)
  | None => λ db, ({| leads := leads db; auto_increment := auto_increment db;
                      executed := S (executed db) |}, inr tt)
  end.

End Svc.

Notation "'let?' x ':=' m 'in' k" := (Svc.bind m (λ x, k))
  (at level 10, x name, m at level 100, k at level 200,
   format "'[v' 'let?'  x  ':='  m  'in' '/' k ']'").
Notation "'do?' m 'in' k" := (Svc.bind m (λ _, k))
  (at level 10, m at level 100, k at level 200,
   format "'[v' 'do?'  m  'in' '/' k ']'").

(** The argument of [LeadModel.create] and [LeadService.createLead]. *)
Record LeadData : Set := {
  ld_name : string;
  ld_phone : string;
  ld_email : option string;
  ld_status : option LeadStatus;
  ld_source : option string;
  ld_assigned_to : option nat;
  ld_image_url : option string;
}.

(** [x || null] on an optional number: [undefined] and [0] are falsy. *)
Definition nonzero (x : option nat) : option nat :=
  match x with
  | Some 0 => None
  | _ => x
  end.

(** The seven values [LeadModel.create] binds. *)
Definition create_values (data : LeadData) : insert_values :=
  {| v_name := ld_name data;
     v_phone := ld_phone data;
     v_email := or_else (ld_email data) None;
     v_status := default NEW (ld_status data);
     v_source := or_else (ld_source data) None;
     v_assigned_to := nonzero (ld_assigned_to data);
     v_image_url := or_else (ld_image_url data) None |}.

Module LeadModel.
Section WithCollation.

Variable collate : string → string.
Variable fault : Svc.call → option string.

(** [LeadModel.create]: a plain [INSERT]; a tuple that collides with the
    unique key makes the statement fail with [ER_DUP_ENTRY], after it has
    taken its AUTO_INCREMENT value (see [insert_ignore_one]).  Every other
    reason for the statement to fail (a value too long for its column, an
    [assigned_to] that names no user, a lost connection) is a [fault]. *)
Definition create (data : LeadData) : Svc.Q nat :=
  let v := create_values data in
  do? Svc.execute fault Svc.insert_lead in
  λ db,
    if duplicate_entry collate (leads db) v
    then ({| leads := leads db; auto_increment := S (auto_increment db);
             executed := executed db |},
          inl (Svc.ER_DUP_ENTRY "Duplicate entry for key 'leads.unique_phone_email'"))
    else ({| leads := leads db ++ [new_lead (auto_increment db) v];
             auto_increment := S (auto_increment db);
             executed := executed db |},
          inr (auto_increment db)).

(** [LeadModel.findById]: [rows[0]] of [SELECT * FROM leads WHERE id = ?]. *)
Definition findById (c : Svc.call) (id : nat) : Svc.Q (option Lead.t) :=
  do? Svc.execute fault c in
  λ db, (db, inr (head (filter (λ l, Lead.id l = id) (leads db)))).

(** The [WHERE] clause of [findByPhoneOrEmail]: [phone = ?], and
    [OR email = ?] when an e-mail is given; a NULL e-mail equals nothing. *)
Definition phone_or_email (phone : string) (email : option string) (l : Lead.t)
    : bool :=
  bool_decide (collate (Lead.phone l) = collate phone)
  || match or_else email None, Lead.email l with
     | Some e, Some e' => bool_decide (collate e' = collate e)
     | _, _ => false
     end.

(** [LeadModel.findByPhoneOrEmail] *)
Definition findByPhoneOrEmail (phone : string) (email : option string)
    : Svc.Q (option Lead.t) :=
  do? Svc.execute fault Svc.select_duplicate in
  λ db, (db, inr (head (filter (λ l, phone_or_email phone email l = true) (leads db)))).

(** [LeadModel.delete]: [affectedRows > 0]. *)
Definition delete (id : nat) : Svc.Q bool :=
  do? Svc.execute fault Svc.delete_lead in
  λ db,
    let rest := filter (λ l, Lead.id l ≠ id) (leads db) in
    ({| leads := rest; auto_increment := auto_increment db;
        executed := executed db |},
     inr (bool_decide (length rest < length (leads db)))).

(** The rows of [SELECT status, COUNT( * ) ... GROUP BY status]: one per
    status that occurs. *)
Definition group_by_status (tbl : list Lead.t) : list (LeadStatus * nat) :=
  omap (λ s, let n := length (filter (λ l, Lead.status l = s) tbl) in
             if decide (n = 0) then None else Some (s, n))
       [NEW; CONTACTED; QUALIFIED; CONVERTED].

(** [result[key] = value] on an object held as its list of members. *)
Fixpoint assign (key : LeadStatus) (value : nat) (o : list (LeadStatus * nat))
    : list (LeadStatus * nat) :=
  match o with
  | [] => [(key, value)]
  | (k, v) :: rest =>
      if decide (k = key) then (k, value) :: rest else (k, v) :: assign key value rest
  end.

(** [LeadModel.countByStatus] *)
Definition countByStatus : Svc.Q (list (LeadStatus * nat)) :=
  do? Svc.execute fault Svc.count_by_status in
  λ db,
    let result := [ (NEW, 0); (CONTACTED, 0); (QUALIFIED, 0); (CONVERTED, 0) ] in
    (db, inr (foldl (λ o row, assign row.1 row.2 o) result (group_by_status (leads db)))).

End WithCollation.
End LeadModel.

(** [Object.values(byStatus).reduce((sum, count) => sum + count, 0)], the
    [total] of [LeadService.getLeadStats]. *)
Definition stats_total (byStatus : list (LeadStatus * nat)) : nat :=
  foldl (λ sum count, sum + count) 0 (byStatus.*2).

Module LeadService.
Section WithCollation.

Variable collate : string → string.
Variable fault : Svc.call → option string.

(** [LeadService.createLead] *)
Definition createLead (data : LeadData) : Svc.Q Lead.t :=
  if is_empty (ld_name data) || is_empty (ld_phone data)
  then Svc.throw (Svc.ValidationError "Name and phone are required")
  else
    let? existing := LeadModel.findByPhoneOrEmail collate fault
                       (ld_phone data) (ld_email data) in
    match existing with
    | Some _ => Svc.throw (Svc.ConflictError "Lead with this phone or email already exists")
    | None =>
        let? leadId := LeadModel.create collate fault data in
        let? lead := LeadModel.findById fault Svc.select_by_id leadId in
        match lead with
        | None => Svc.throw (Svc.Error "Failed to create lead")
        | Some lead =>
            do? Svc.await fault Svc.cache_flush in
            do? Svc.await fault Svc.cache_del in
            Svc.ret lead
        end
    end.

(** [LeadService.deleteLead] *)
Definition deleteLead (id : nat) : Svc.Q unit :=
  let? existing := LeadModel.findById fault Svc.select_by_id id in
  match existing with
  | None => Svc.throw (Svc.NotFoundError "Lead not found")
  | Some _ =>
      do? LeadModel.delete fault id in
      do? Svc.await fault Svc.cache_del in
      do? Svc.await fault Svc.cache_flush in
      Svc.ret tt
  end.

End WithCollation.
End LeadService.

(** Properties of tables used below. *)

(** Every id is below the AUTO_INCREMENT counter and occurs once. *)
Definition ids_fresh (db : MySQL) : Prop :=
  NoDup (Lead.id <$> leads db)
  ∧ Forall (λ l, Lead.id l < auto_increment db) (leads db).

(** No two rows collide on [unique_phone_email]. *)
Definition unique_key_holds (collate : string → string) (tbl : list Lead.t) : Prop :=
  ∀ i j li lj, tbl !! i = Some li → tbl !! j = Some lj → i ≠ j →
               same_key collate (lead_key li) (lead_key lj) = false.

(** No two rows have the same phone (under the collation). *)
Definition phones_distinct (collate : string → string) (tbl : list Lead.t) : Prop :=
  ∀ i j li lj, tbl !! i = Some li → tbl !! j = Some lj → i ≠ j →
               collate (Lead.phone li) ≠ collate (Lead.phone lj).

(** What [processCsvFile] leaves alone: the bucket, the queue, the set of
    status documents, the leads already stored. *)
Definition process_frame (w0 w : World) : Prop :=
  s3_csv w = s3_csv w0 ∧ sqs w = sqs w0
  ∧ dom (csvlogs w) = dom (csvlogs w0)
  ∧ leads (mysql w0) `prefix_of` leads (mysql w).


(** Further sample data: requests to the lead service and a queue that
    refuses messages. *)
Module SampleLeads.

Definition no_fault : Svc.call → option string := λ _, None.

Definition carol : LeadData :=
  {| ld_name := "Carol"; ld_phone := "+15550002222"; ld_email := Some "c@x.com";
     ld_status := None; ld_source := None; ld_assigned_to := None;
     ld_image_url := None |}.

(** The phone of the stored lead, with another e-mail. *)
Definition alice_again : LeadData :=
  {| ld_name := "Alice B"; ld_phone := "+14155551234"; ld_email := Some "b@x.com";
     ld_status := None; ld_source := None; ld_assigned_to := None;
     ld_image_url := None |}.

Definition table : MySQL := mysql (Sample.world_with_lead (Some "a@x.com")).

Definition send_fails : Env :=
  {| fault := λ c, match c with sqs_send => Some "queue down" | _ => None end;
     now := 1700000002000; later := 1700000002005;
     new_oid := "65a000000000000000000005"; new_handle := "rh-5";
     pick := Some 0; undefined_id := None |}.

Definition both_bad : record :=
  {[ "name" := "B"; "phone" := "++1" ]}.

Definition is_hex (c : ascii) : bool :=
  is_digit c || in_range "a" "f" c || in_range "A" "F" c.

Definition lower (c : ascii) : ascii :=
  if in_range "A" "F" c then ascii_of_nat (code c + 32) else c.

Fixpoint map_chars (f : ascii → ascii) (s : string) : string :=
  match s with
  | EmptyString => EmptyString
  | String c s' => String (f c) (map_chars f s')
  end.

(** A cast to ObjectId: 24 hex digits, read without regard to case. *)
Definition object_id (s : string) : option string :=
  if (String.length s =? 24) && all_chars is_hex s
  then Some (map_chars lower s) else None.

Definition alice_row : CsvRow :=
  {| name := "Alice"; phone := "+14155551234"; email := Some "a@x.com";
     source := Some "web" |}.

End SampleLeads.

(** * Properties *)

(** ** The phone pattern *)

Lemma repeat_class_anchored p lo hi s :
  repeat_match (rmatch (Class p)) is_empty lo hi s
  = all_chars p s && (lo <=? String.length s)%nat && (String.length s <=? hi)%nat.
Proof.
  revert lo s. induction hi as [|hi IH]; intros lo s; simpl.
  - destruct s as [|a s]; simpl.
    + by destruct lo.
    + by rewrite !andb_false_r.
  - destruct s as [|a s]; simpl.
    + by destruct lo.
    + rewrite IH, !andb_false_r, orb_false_r.
      replace (pred lo <=? String.length s)%nat with (lo <=? S (String.length s))%nat.
      * by rewrite !andb_assoc.
      * destruct lo; [done|]. reflexivity.
Qed.

(** The pattern of the source accepts exactly the strings of the E.164-like
    shape described in words. *)
Lemma phone_pattern_e164 s : test_anchored phone_pattern s = e164_like s.
Proof.
  set (tail := Seq (Class (in_range "1" "9")) (Rep 1 14 (Class is_digit))).
  assert (K : ∀ t, rmatch tail t is_empty = e164_digits t).
  { intros [|a t]; [done|]. unfold tail. cbn [rmatch e164_digits].
    pose proof (repeat_class_anchored is_digit 1 14 t) as R.
    cbn [rmatch] in R. rewrite R. by rewrite !andb_assoc. }
  assert (L : ∀ a t, a ≠ "+"%char → e164_like (String a t) = e164_digits (String a t)).
  { intros a t Ha. destruct a as [[] [] [] [] [] [] [] []]; done. }
  unfold test_anchored, phone_pattern. fold tail.
  change (rmatch (Seq (Opt (Chr "+")) tail) s is_empty)
    with (rmatch (Chr "+") s (λ s', rmatch tail s' is_empty) || rmatch tail s is_empty).
  rewrite K. destruct s as [|a s]; [done|]. cbn [rmatch]. rewrite K.
  destruct (decide (a = "+"%char)) as [->|Hne].
  - rewrite bool_decide_eq_true_2 by done. cbn [andb e164_like].
    replace (e164_digits (String "+" s)) with false by done.
    by rewrite orb_false_r.
  - rewrite bool_decide_eq_false_2 by done. cbn [andb orb]. by rewrite L.
Qed.

(** ** The row validator *)

Lemma app_string_cons x (a b : string) : String x a +:+ b = String x (a +:+ b).
Proof. reflexivity. Qed.

Lemma app_string_assoc (a b c : string) : (a +:+ b) +:+ c = a +:+ (b +:+ c).
Proof.
  induction a as [|x a IH]; [done|]. rewrite !app_string_cons. by f_equal.
Qed.

Lemma app_string_nil_r (a : string) : a +:+ "" = a.
Proof.
  induction a as [|x a IH]; [done|]. rewrite app_string_cons. by f_equal.
Qed.

(** Every joined item occurs in the joined text. *)
Lemma join_occurs sep (l : list string) m :
  In m l → ∃ pre post, join sep l = pre +:+ m +:+ post.
Proof.
  induction l as [|x l IH]; [done|]. intros [->|Hin].
  - destruct l as [|y l].
    + exists "", "". change (m = m +:+ ""). by rewrite app_string_nil_r.
    + exists "", (sep +:+ join sep (y :: l)). done.
  - destruct (IH Hin) as (pre & post & E).
    destruct l as [|y l]; [done|].
    exists (x +:+ sep +:+ pre), post.
    change (join sep (x :: y :: l)) with (x +:+ sep +:+ join sep (y :: l)).
    rewrite E. by rewrite !app_string_assoc.
Qed.

Lemma delete_if_empty_lookup_ne key k (d : record) :
  key ≠ k → delete_if_empty key d !! k = d !! k.
Proof.
  intros Hne. unfold delete_if_empty.
  destruct (d !! key) as [[|? ?]|]; try done. by rewrite lookup_delete_ne.
Qed.

Lemma normalize_lookup k (d : record) :
  k ≠ "email" → k ≠ "source" → normalize d !! k = d !! k.
Proof.
  intros H1 H2. unfold normalize.
  rewrite !delete_if_empty_lookup_ne; done.
Qed.

(** The details of [csvRowSchema], key by key in schema order. *)
Lemma validate_csvRowSchema isEmail (d : record) :
  (validate isEmail csvRowSchema d).1
  = validate_key isEmail "name" name_schema (d !! "name")
    ++ validate_key isEmail "phone" phone_schema (d !! "phone")
    ++ validate_key isEmail "email" email_schema (d !! "email")
    ++ validate_key isEmail "source" source_schema (d !! "source").
Proof. unfold validate, csvRowSchema. simpl. by rewrite app_nil_r. Qed.

Lemma on_data_invalid isEmail st d :
  row_details isEmail d ≠ [] →
  on_data isEmail st d
  = {| rowNumber := S (rowNumber st); rows := rows st;
       errors := errors st ++
         [ {| row := S (rowNumber st); data := normalize d;
              error := join ", " (message <$> row_details isEmail d) |} ] |}.
Proof.
  unfold row_details, on_data. intros H.
  destruct (validate isEmail csvRowSchema (normalize d)) as [[|x l] value]; done.
Qed.

Lemma on_data_valid isEmail st d :
  row_details isEmail d = [] →
  on_data isEmail st d
  = {| rowNumber := S (rowNumber st);
       rows := rows st ++ [as_CsvRow (strip_unknown csvRowSchema (normalize d))];
       errors := errors st |}.
Proof.
  unfold row_details, on_data, validate. simpl. by intros ->.
Qed.

(** A phone text that fails the pattern always yields a detail on the
    [phone] path. *)
Lemma phone_detail isEmail v :
  test_anchored phone_pattern v = false →
  ∃ det, validate_key isEmail "phone" phone_schema (Some v) = [det]
         ∧ d_path det = "phone".
Proof.
  intros H. unfold validate_key, phone_schema; simpl.
  destruct (is_empty v); [by eexists|].
  rewrite H. by eexists.
Qed.

Lemma message_starts_with_path det :
  starts_with (quoted (d_path det)) (message det) = true.
Proof.
  unfold message. generalize (quoted (d_path det)). intros p.
  induction p as [|a p IH]; [done|]. rewrite app_string_cons.
  cbn [starts_with]. by rewrite bool_decide_eq_true_2.
Qed.

(** The handler, run over a list of events from any state. *)
Lemma foldl_on_data isEmail st events :
  rowNumber (foldl (on_data isEmail) st events) = rowNumber st + length events
  ∧ errors (foldl (on_data isEmail) st events)
    = errors st ++ numbered_errors isEmail (rowNumber st) events
  ∧ length (rows (foldl (on_data isEmail) st events))
    + length (errors (foldl (on_data isEmail) st events))
    = length (rows st) + length (errors st) + length events.
Proof.
  revert st. induction events as [|d rest IH]; intros st; simpl.
  - rewrite app_nil_r. repeat split; first [lia | done].
  - destruct (IH (on_data isEmail st d)) as (Hn & He & Hl).
    rewrite Hl, Hn, He. clear IH Hn He Hl.
    destruct (row_details isEmail d) as [|x l] eqn:Hd.
    + rewrite on_data_valid by done. simpl. rewrite length_app. simpl.
      repeat split; first [lia | done].
    + rewrite on_data_invalid by (by rewrite Hd). rewrite Hd. simpl.
      rewrite <- app_assoc, length_app. simpl.
      repeat split; first [lia | done].
Qed.

Lemma collect_errors isEmail events :
  errors (collect isEmail events) = numbered_errors isEmail 0 events.
Proof.
  unfold collect. by destruct (foldl_on_data isEmail collector_init events) as (_ & -> & _).
Qed.

(** Every data row ends up either in [rows] or in [errors]. *)
Lemma collect_total isEmail events :
  length (rows (collect isEmail events)) + length (errors (collect isEmail events))
  = length events.
Proof.
  unfold collect. by destruct (foldl_on_data isEmail collector_init events) as (_ & _ & ->).
Qed.

Lemma numbered_errors_index isEmail offset events e :
  e ∈ numbered_errors isEmail offset events →
  ∃ i r, events !! i = Some r ∧ row e = offset + i + 1
         ∧ data e = normalize r ∧ row_details isEmail r ≠ [].
Proof.
  revert offset. induction events as [|d rest IH]; intros offset; simpl.
  - by intros ?%elem_of_nil.
  - destruct (row_details isEmail d) as [|x l] eqn:Hd.
    + intros (i & r & ? & ? & ? & ?)%IH. exists (S i), r. repeat split; try done. lia.
    + intros [->|(i & r & ? & ? & ? & ?)%IH]%elem_of_cons.
      * exists 0, d. simpl. repeat split; try done; [lia|congruence].
      * exists (S i), r. repeat split; try done. lia.
Qed.

Lemma numbered_errors_bounds isEmail events : ∀ offset e,
  e ∈ numbered_errors isEmail offset events →
  offset < row e ≤ offset + length events.
Proof.
  induction events as [|d rest IH]; intros offset e; simpl.
  - by intros ?%elem_of_nil.
  - destruct (row_details isEmail d) as [|x l].
    + intros ?%IH. lia.
    + intros [->|?%IH]%elem_of_cons; simpl; lia.
Qed.

Lemma numbered_errors_increasing isEmail events : ∀ offset i j ei ej,
  numbered_errors isEmail offset events !! i = Some ei →
  numbered_errors isEmail offset events !! j = Some ej →
  i < j → row ei < row ej.
Proof.
  induction events as [|d rest IH]; intros offset i j ei ej; simpl; [done|].
  destruct (row_details isEmail d) as [|x l]; [apply IH|].
  destruct i as [|i], j as [|j]; simpl; try lia.
  - intros [= <-] Hj _. simpl.
    apply list_elem_of_lookup_2, numbered_errors_bounds in Hj. lia.
  - intros Hi Hj ?. apply (IH (S offset) i j); [done..|lia].
Qed.

Lemma numbered_errors_complete isEmail events : ∀ offset i r,
  events !! i = Some r → row_details isEmail r ≠ [] →
  ∃ e, e ∈ numbered_errors isEmail offset events
       ∧ row e = offset + i + 1 ∧ data e = normalize r
       ∧ error e = join ", " (message <$> row_details isEmail r).
Proof.
  induction events as [|d rest IH]; intros offset i r Hi Hbad; [done|].
  destruct i as [|i]; simpl in *.
  - injection Hi as ->. destruct (row_details isEmail r) as [|x l] eqn:Hd; [done|].
    eexists. split; [apply list_elem_of_here|]. simpl. split; [lia|done].
  - destruct (IH (S offset) i r Hi Hbad) as (e & He & Hrow & Hdata & Herr).
    exists e. split; [|split; [lia|done]].
    destruct (row_details isEmail d); [done|by apply list_elem_of_further].
Qed.

(** ** C8 *)

(** C8: the [row] recorded with a validation error is the 1-based position
    of the data row among the parsed rows (the header line is not an
    event).  Every entry carries the number and the data of an invalid
    row; every invalid row has an entry with its own number, also when the
    same record occurs more than once; the numbers increase along the list,
    so no number occurs twice; the list is the one the numbering in words
    describes.  Three data rows of which only the second is invalid give
    exactly one entry, numbered 2. *)
Theorem C8_row_number_is_data_row_index (isEmail : string → bool) :
  (∀ (events : list record) (e : RowError),
     e ∈ errors (collect isEmail events) →
     ∃ r, 1 ≤ row e ∧ events !! (row e - 1) = Some r
          ∧ data e = normalize r ∧ row_details isEmail r ≠ [])
  ∧ (∀ (events : list record) (i : nat) (r : record),
       events !! i = Some r → row_details isEmail r ≠ [] →
       ∃ e, e ∈ errors (collect isEmail events)
            ∧ row e = S i ∧ data e = normalize r
            ∧ error e = join ", " (message <$> row_details isEmail r))
  ∧ (∀ (events : list record) (i j : nat) (ei ej : RowError),
       errors (collect isEmail events) !! i = Some ei →
       errors (collect isEmail events) !! j = Some ej →
       i < j → row ei < row ej)
  ∧ (∀ events : list record,
       errors (collect isEmail events) = numbered_errors isEmail 0 events)
  ∧ (∀ r1 r2 r3 : record,
       row_details isEmail r1 = [] →
       row_details isEmail r2 ≠ [] →
       row_details isEmail r3 = [] →
       ∃ e, errors (collect isEmail [r1; r2; r3]) = [e] ∧ row e = 2
            ∧ data e = normalize r2).
Proof.
  split; [|split; [|split; [|split]]].
  - intros events e He. rewrite collect_errors in He.
    apply numbered_errors_index in He as (i & r & Hi & Hrow & Hdata & Hbad).
    exists r. rewrite Hrow. replace (0 + i + 1 - 1) with i by lia.
    repeat split; try done. lia.
  - intros events i r Hi Hbad. rewrite collect_errors.
    destruct (numbered_errors_complete isEmail events 0 i r Hi Hbad)
      as (e & He & Hrow & Hdata & Herr).
    exists e. split; [done|]. split; [lia|done].
  - intros events. rewrite collect_errors. apply numbered_errors_increasing.
  - apply collect_errors.
  - intros r1 r2 r3 H1 H2 H3. rewrite collect_errors. simpl.
    rewrite H1, H3. destruct (row_details isEmail r2) as [|x l]; [done|].
    eexists. repeat split.
Qed.

(** ** C4 *)

(** C4, as the code has it: a phone text that does not match
    [/^\+?[1-9]\d{1,14}$/] makes the row fail, with a message that starts
    with the quoted field name [phone] and is part of the recorded error
    text; ["+14155551234"] and ["5551234"] pass the phone rule, ["++1"] does
    not. *)
Theorem C4_phone_pattern_enforced (isEmail : string → bool) :
  (validate_key isEmail "phone" phone_schema (Some "+14155551234") = []
   ∧ validate_key isEmail "phone" phone_schema (Some "5551234") = []
   ∧ validate_key isEmail "phone" phone_schema (Some "++1") ≠ [])
  ∧ (∀ (st : collector) (d : record) (v : string),
       d !! "phone" = Some v →
       test_anchored phone_pattern v = false →
       ∃ det pre post,
         det ∈ row_details isEmail d
         ∧ d_path det = "phone"
         ∧ starts_with (quoted "phone") (message det) = true
         ∧ on_data isEmail st d
           = {| rowNumber := S (rowNumber st); rows := rows st;
                errors := errors st ++
                  [ {| row := S (rowNumber st); data := normalize d;
                       error := pre +:+ message det +:+ post |} ] |}).
Proof.
  split; [by repeat split|].
  intros st d v Hv Hbad.
  destruct (phone_detail isEmail v Hbad) as (det & Hdet & Hpath).
  assert (Hin : det ∈ row_details isEmail d).
  { unfold row_details. rewrite validate_csvRowSchema.
    rewrite (normalize_lookup "phone") by done. rewrite Hv, Hdet.
    set_solver. }
  destruct (join_occurs ", " (message <$> row_details isEmail d) (message det))
    as (pre & post & Hjoin).
  { apply list_elem_of_In, list_elem_of_fmap. by exists det. }
  exists det, pre, post. repeat split; try done.
  - rewrite <- Hpath. apply message_starts_with_path.
  - rewrite on_data_invalid; [by rewrite Hjoin|].
    intros Hnil. rewrite Hnil in Hin. by apply elem_of_nil in Hin.
Qed.

(** ** C7 *)

Lemma name_accepted isEmail (v : option string) :
  validate_key isEmail "name" name_schema v = []
  ↔ ∃ s, v = Some s ∧ 2 ≤ String.length s ≤ 255.
Proof.
  unfold validate_key, name_schema; simpl. destruct v as [s|].
  - destruct s as [|a s]; simpl.
    + split; [done|]. intros (s & [= <-] & H). simpl in H. lia.
    + rewrite app_nil_r.
      destruct (Nat.ltb_spec (S (String.length s)) 2) as [H1|H1];
        destruct (Nat.ltb_spec 255 (S (String.length s))) as [H2|H2]; simpl;
        (split; [intros H | intros (s' & [= <-] & H); simpl in H]);
        try done; try lia.
      eexists. split; [done|]. simpl. lia.
  - split; [done|]. by intros (s & ? & _).
Qed.

(** C7, as the code has it: the name rule passes exactly when the field is
    present and its length as received (no trimming) is in [2, 255];
    otherwise the row produces an error entry and no [CsvRow]. *)
Theorem C7_name_length_untrimmed (isEmail : string → bool)
    (st : collector) (d : record) :
  (validate_key isEmail "name" name_schema (normalize d !! "name") = []
   ↔ ∃ s, d !! "name" = Some s ∧ 2 ≤ String.length s ≤ 255)
  ∧ (¬ (∃ s, d !! "name" = Some s ∧ 2 ≤ String.length s ≤ 255) →
     rows (on_data isEmail st d) = rows st
     ∧ ∃ e, errors (on_data isEmail st d) = errors st ++ [e]
            ∧ row e = S (rowNumber st)).
Proof.
  rewrite (normalize_lookup "name") by done. split; [apply name_accepted|].
  intros Hbad. rewrite <- (name_accepted isEmail) in Hbad.
  rewrite on_data_invalid; simpl; [eauto|].
  unfold row_details. rewrite validate_csvRowSchema.
  rewrite (normalize_lookup "name") by done.
  destruct (validate_key isEmail "name" name_schema (d !! "name")); done.
Qed.

Lemma phone_accepted isEmail (v : option string) :
  validate_key isEmail "phone" phone_schema v = []
  ↔ ∃ p, v = Some p ∧ test_anchored phone_pattern p = true.
Proof.
  unfold validate_key, phone_schema; simpl. destruct v as [p|].
  - destruct p as [|a p]; simpl.
    + split; [done|]. by intros (p & [= <-] & H).
    + rewrite app_nil_r.
      destruct (test_anchored phone_pattern (String a p)) eqn:Ht.
      * split; [by eexists|done].
      * split; [done|]. intros (p' & [= <-] & H). congruence.
  - split; [done|]. by intros (p & ? & _).
Qed.

Lemma strip_unknown_lookup (d : record) k :
  k ∈ csvRowSchema.*1 → strip_unknown csvRowSchema d !! k = d !! k.
Proof.
  intros Hk. unfold strip_unknown.
  destruct (d !! k) as [v|] eqn:Hv.
  - by apply map_lookup_filter_Some_2.
  - apply map_lookup_filter_None. by left.
Qed.

(** A record without details has its two required fields, within the
    bounds of the schema, and they are what the cast to [CsvRow] reads. *)
Lemma validate_ok_fields isEmail (d : record) :
  row_details isEmail d = [] →
  ∃ n p, d !! "name" = Some n ∧ d !! "phone" = Some p
         ∧ 2 ≤ String.length n ≤ 255
         ∧ test_anchored phone_pattern p = true
         ∧ as_CsvRow (strip_unknown csvRowSchema (normalize d))
           = {| name := n; phone := p;
                email := normalize d !! "email";
                source := normalize d !! "source" |}.
Proof.
  unfold row_details. rewrite validate_csvRowSchema.
  rewrite (normalize_lookup "name"), (normalize_lookup "phone") by done.
  intros (Hn & (Hp & _)%app_eq_nil)%app_eq_nil.
  apply name_accepted in Hn as (n & Hn & Hlen).
  apply phone_accepted in Hp as (p & Hp & Hpat).
  exists n, p. split; [done|]. split; [done|]. split; [done|]. split; [done|].
  unfold as_CsvRow.
  rewrite !strip_unknown_lookup
    by (cbn; repeat first [apply list_elem_of_here | apply list_elem_of_further]).
  rewrite (normalize_lookup "name"), (normalize_lookup "phone") by done.
  by rewrite Hn, Hp.
Qed.

(** ** The bulk writer *)

Lemma duplicate_entry_keys collate tbl v :
  duplicate_entry collate tbl v
  = existsb (same_key collate (values_key v)) (lead_key <$> tbl).
Proof.
  unfold duplicate_entry, unique_phone_email.
  induction tbl as [|l tbl IH]; simpl; [done|]. by rewrite IH.
Qed.

(** [INSERT IGNORE] appends the kept tuples, each with the id of its place
    in the statement, counts them, and moves the AUTO_INCREMENT counter past
    all the tuples. *)
Lemma foldl_insert_ignore collate vs : ∀ st,
  foldl (insert_ignore_one collate) st vs
  = let stored := lead_key <$> leads st.1 in
    let k := kept collate stored vs in
    ({| leads := leads st.1
                 ++ zip_with new_lead (kept_ids collate stored (auto_increment st.1) vs) k;
        auto_increment := auto_increment st.1 + length vs;
        executed := executed st.1 |},
     st.2 + length k).
Proof.
  induction vs as [|v vs IH]; intros [[l a e] n];
    cbn [foldl kept kept_ids fst snd leads].
  - simpl. by rewrite app_nil_r, !Nat.add_0_r.
  - unfold insert_ignore_one at 2. cbn [fst snd leads auto_increment executed].
    rewrite duplicate_entry_keys. cbn zeta.
    destruct (existsb (same_key collate (values_key v)) (lead_key <$> l)).
    + rewrite IH. cbn [fst snd leads auto_increment executed length]. cbn zeta.
      f_equal. f_equal. lia.
    + rewrite IH. cbn [fst snd leads auto_increment executed].
      rewrite fmap_app. cbn [fmap list_fmap]. cbn zeta.
      change (lead_key (new_lead a v)) with (values_key v).
      set (k := kept collate ((lead_key <$> l) ++ [values_key v]) vs).
      cbn [length zip_with]. rewrite <- app_assoc. cbn [app].
      f_equal; [f_equal|]; lia.
Qed.

Lemma kept_ids_length collate stored i vs :
  length (kept_ids collate stored i vs) = length (kept collate stored vs).
Proof.
  revert stored i. induction vs as [|v vs IH]; intros stored i; simpl; [done|].
  destruct (existsb _ stored); simpl; by rewrite IH.
Qed.

(** The ids handed out lie between the counter before the statement and
    the counter after it, and increase along the rows. *)
Lemma kept_ids_bounds collate stored i vs j :
  j ∈ kept_ids collate stored i vs → i ≤ j < i + length vs.
Proof.
  revert stored i. induction vs as [|v vs IH]; intros stored i; simpl.
  { by intros ?%elem_of_nil. }
  destruct (existsb _ stored).
  - intros ?%IH. lia.
  - intros [->|?%IH]%elem_of_cons; lia.
Qed.

Lemma kept_ids_NoDup collate stored i vs :
  NoDup (kept_ids collate stored i vs).
Proof.
  revert stored i. induction vs as [|v vs IH]; intros stored i; simpl.
  { constructor. }
  destruct (existsb _ stored); [apply IH|].
  constructor; [|apply IH]. intros ?%kept_ids_bounds. lia.
Qed.

Lemma kept_subset collate stored vs v :
  v ∈ kept collate stored vs → v ∈ vs.
Proof.
  revert stored. induction vs as [|x vs IH]; intros stored; simpl; [done|].
  destruct (existsb _ stored).
  - intros ?%IH. by apply elem_of_cons; right.
  - intros [->|?%IH]%elem_of_cons; apply elem_of_cons; auto.
Qed.

Lemma kept_length collate stored vs :
  length (kept collate stored vs) ≤ length vs.
Proof.
  revert stored. induction vs as [|x vs IH]; intros stored; simpl; [done|].
  destruct (existsb _ stored); simpl; [specialize (IH stored)|specialize (IH (stored ++ [values_key x]))]; lia.
Qed.

Lemma same_key_spec collate k k' :
  same_key collate k k' = true
  ↔ ∃ e e', k.2 = Some e ∧ k'.2 = Some e'
            ∧ collate k.1 = collate k'.1 ∧ collate e = collate e'.
Proof.
  unfold same_key. destruct (k.2) as [e|], (k'.2) as [e'|]; try (split; [done|by intros (?&?&?&?&_)]).
  rewrite andb_true_iff, !bool_decide_eq_true. split.
  - intros [??]. by exists e, e'.
  - by intros (?&?&[= <-]&[= <-]&?&?).
Qed.

Lemma zip_with_new_lead_elem l ids vs :
  l ∈ zip_with new_lead ids vs → ∃ i v, v ∈ vs ∧ l = new_lead i v.
Proof.
  revert ids. induction vs as [|v vs IH]; intros [|i ids]; simpl; try by intros ?%elem_of_nil.
  intros [->|(j & v' & ? & ?)%IH]%elem_of_cons.
  - exists i, v. split; [left|done].
  - exists j, v'. split; [by right|done].
Qed.

(** What [bulkCreate] does on a non-empty batch when the statement runs. *)
Lemma bulkCreate_run collate env (batch : list CsvRow) w :
  batch ≠ [] → fault env mysql_execute = None →
  bulkCreate collate env batch w
  = let k := kept collate (lead_key <$> leads (mysql w)) (lead_values <$> batch) in
    ({| s3_csv := s3_csv w; csvlogs := csvlogs w; sqs := sqs w;
        mysql :=
          {| leads := leads (mysql w)
                      ++ appended collate (mysql w) (lead_values <$> batch);
             auto_increment := auto_increment (mysql w) + length batch;
             executed := S (executed (mysql w)) |} |},
     inr (length k)).
Proof.
  intros Hne Hf. unfold bulkCreate.
  destruct (decide (length batch = 0)) as [H0|_].
  { by destruct batch. }
  unfold bind, await, get, set_mysql, modify, ret, insert_ignore. rewrite Hf. simpl.
  rewrite foldl_insert_ignore. cbn. by rewrite length_fmap.
Qed.

Lemma bulkCreate_fault collate env (batch : list CsvRow) w msg :
  batch ≠ [] → fault env mysql_execute = Some msg →
  bulkCreate collate env batch w = (w, inl (Error msg)).
Proof.
  intros Hne Hf. unfold bulkCreate.
  destruct (decide (length batch = 0)) as [H0|_].
  { by destruct batch. }
  unfold bind, await, throw. by rewrite Hf.
Qed.

Lemma kept_app collate stored a b :
  kept collate stored (a ++ b)
  = kept collate stored a
    ++ kept collate (stored ++ (values_key <$> kept collate stored a)) b.
Proof.
  revert stored. induction a as [|x a IH]; intros stored; simpl.
  - by rewrite app_nil_r.
  - destruct (existsb _ stored); [apply IH|].
    rewrite IH. simpl. by rewrite <- app_assoc.
Qed.

Lemma lead_key_new_leads ids vs :
  length ids = length vs →
  lead_key <$> zip_with new_lead ids vs = values_key <$> vs.
Proof.
  revert ids. induction vs as [|v vs IH]; intros [|i ids] Hlen; simpl in *;
    try done. f_equal. apply IH. lia.
Qed.

Lemma lead_key_appended collate db vs :
  lead_key <$> appended collate db vs
  = values_key <$> kept collate (lead_key <$> leads db) vs.
Proof. unfold appended. apply lead_key_new_leads. apply kept_ids_length. Qed.

Lemma appended_length collate db vs :
  length (appended collate db vs)
  = length (kept collate (lead_key <$> leads db) vs).
Proof.
  unfold appended. cbn zeta. rewrite length_zip_with, kept_ids_length. lia.
Qed.

Lemma kept_ids_app collate stored i a b :
  kept_ids collate stored i (a ++ b)
  = kept_ids collate stored i a
    ++ kept_ids collate (stored ++ (values_key <$> kept collate stored a))
         (i + length a) b.
Proof.
  revert stored i. induction a as [|x a IH]; intros stored i; simpl.
  - by rewrite app_nil_r, Nat.add_0_r.
  - destruct (existsb _ stored).
    + rewrite IH. do 2 f_equal. lia.
    + rewrite IH. simpl. rewrite <- app_assoc. simpl. do 3 f_equal. lia.
Qed.

(** The rows appended for a batch in two parts: what the first tuples add,
    then what the others add to the table as the first ones left it. *)
Lemma appended_app collate db a b :
  appended collate db (a ++ b)
  = appended collate db a
    ++ appended collate
         {| leads := leads db ++ appended collate db a;
            auto_increment := auto_increment db + length a;
            executed := executed db |} b.
Proof.
  unfold appended at 1 3. cbn [leads auto_increment]. cbn zeta.
  rewrite fmap_app, lead_key_appended, kept_app, kept_ids_app.
  rewrite zip_with_app by apply kept_ids_length. done.
Qed.

Lemma appended_elem collate db vs l :
  l ∈ appended collate db vs → ∃ i v, v ∈ vs ∧ l = new_lead i v.
Proof.
  intros (i & v & Hv & ->)%zip_with_new_lead_elem.
  exists i, v. split; [|done]. by eapply kept_subset.
Qed.

(** The table a statement leaves, whether the batch is empty or not. *)
Lemma bulkCreate_leads collate env batch w :
  fault env mysql_execute = None →
  leads (mysql (bulkCreate collate env batch w).1)
  = leads (mysql w) ++ appended collate (mysql w) (lead_values <$> batch)
  ∧ (bulkCreate collate env batch w).2
    = inr (length (appended collate (mysql w) (lead_values <$> batch))).
Proof.
  intros Hf. destruct batch as [|r0 batch'] eqn:Hb.
  { cbn. by rewrite app_nil_r. }
  rewrite <- Hb. rewrite bulkCreate_run by (by rewrite ?Hb). cbn.
  by rewrite appended_length.
Qed.

Lemma or_else_None_Some x e :
  or_else x None = Some e ↔ x = Some e ∧ e ≠ "".
Proof.
  unfold or_else. destruct x as [[|a s]|]; cbn; split; try done.
  - by intros [[= <-] ?].
  - by intros [= <-].
  - by intros [[= <-] _].
  - by intros [? _].
Qed.

(** The unique key in words: the tuple of a row collides with a stored lead
    when the row has an e-mail, the lead has one, and both the phones and
    the e-mails are equal under the collation. *)
Lemma duplicate_entry_spec collate tbl (r : CsvRow) :
  duplicate_entry collate tbl (lead_values r) = true
  ↔ ∃ l, l ∈ tbl
         ∧ ∃ e e', email r = Some e ∧ e ≠ "" ∧ Lead.email l = Some e'
                   ∧ collate (phone r) = collate (Lead.phone l)
                   ∧ collate e = collate e'.
Proof.
  unfold duplicate_entry. rewrite existsb_exists. split.
  - intros (l & Hl & Hk). exists l. split; [by apply list_elem_of_In|].
    apply same_key_spec in Hk as (e & e' & He & He' & Hp & Hee).
    cbn in He, He', Hp. apply or_else_None_Some in He as [He Hne].
    by exists e, e'.
  - intros (l & Hl & e & e' & He & Hne & He' & Hp & Hee).
    exists l. split; [by apply list_elem_of_In|].
    apply same_key_spec. exists e, e'. cbn.
    split; [by apply or_else_None_Some|done].
Qed.

(** The last tuple of a statement: skipped when it collides with a row
    stored by then, appended otherwise. *)
Lemma appended_snoc collate db vs v :
  appended collate db (vs ++ [v])
  = appended collate db vs
    ++ (if duplicate_entry collate (leads db ++ appended collate db vs) v then []
        else [new_lead (auto_increment db + length vs) v]).
Proof.
  rewrite appended_app. f_equal. unfold appended. cbn [leads auto_increment].
  cbn zeta. cbn [kept kept_ids]. rewrite duplicate_entry_keys.
  by destruct (existsb _ _).
Qed.

(** ** C3 *)

(** C3, as the code has it.  The statement keeps the rows already stored
    and returns the number of rows it adds; what it does with a row depends
    on the rows before it only; and a row is skipped exactly when a lead
    stored by then (before the statement, or added by it for an earlier row)
    has the same phone and the same e-mail under the collation, both e-mails
    being present.  The key is the pair of [unique_phone_email], not the
    phone: a row whose phone is stored with another e-mail, or with none, or
    which has no e-mail itself, is inserted again. *)
Theorem C3_dedup_on_phone_and_email (collate : string → string) (env : Env)
    (pre : list CsvRow) (r : CsvRow) (post : list CsvRow) (w : World) :
  fault env mysql_execute = None →
  let table_after batch := leads (mysql (bulkCreate collate env batch w).1) in
  let collides (l : Lead.t) :=
    ∃ e e', email r = Some e ∧ e ≠ "" ∧ Lead.email l = Some e'
            ∧ collate (phone r) = collate (Lead.phone l)
            ∧ collate e = collate e' in
  (∃ added,
     table_after (pre ++ r :: post) = leads (mysql w) ++ added
     ∧ (bulkCreate collate env (pre ++ r :: post) w).2 = inr (length added))
  ∧ (∃ rest,
       table_after (pre ++ r :: post) = table_after (pre ++ [r]) ++ rest
       ∧ ∀ l, l ∈ rest → ∃ r' i, r' ∈ post ∧ l = new_lead i (lead_values r'))
  ∧ ((∃ l, l ∈ table_after pre ∧ collides l) →
     table_after (pre ++ [r]) = table_after pre)
  ∧ (¬ (∃ l, l ∈ table_after pre ∧ collides l) →
     ∃ i, table_after (pre ++ [r]) = table_after pre ++ [new_lead i (lead_values r)]).
Proof.
  intros Hf. cbv beta zeta.
  pose proof (λ b, proj1 (bulkCreate_leads collate env b w Hf)) as HT.
  rewrite !HT.
  split; [|split; [|split]].
  - eexists. split; [done|]. apply (bulkCreate_leads collate env _ w Hf).
  - replace (pre ++ r :: post) with ((pre ++ [r]) ++ post)
      by (by rewrite <- app_assoc).
    rewrite (fmap_app _ (pre ++ [r]) post), appended_app, app_assoc.
    eexists. split; [done|].
    intros l (i & v & Hv & ->)%appended_elem.
    apply list_elem_of_fmap in Hv as (r' & -> & Hr'). by exists r', i.
  - intros Hdup. apply duplicate_entry_spec in Hdup.
    rewrite fmap_app. cbn [fmap list_fmap]. rewrite appended_snoc, Hdup.
    by rewrite app_nil_r.
  - intros Hno. rewrite fmap_app. cbn [fmap list_fmap]. rewrite appended_snoc.
    destruct (duplicate_entry _ _ _) eqn:Hdup.
    + exfalso. apply Hno. by apply duplicate_entry_spec.
    + rewrite app_assoc. by eexists.
Qed.

(** ** C10 *)


(** ** Rules for [hoare] *)

Section Rules.
Context {A B : Type}.
Implicit Types (P : World → Prop) (E : exn → World → Prop).

Lemma hoare_ret P (a : A) (Q : A → World → Prop) E :
  (∀ w, P w → Q a w) → hoare P (ret a) Q E.
Proof. intros H w Hw. by apply H. Qed.

Lemma hoare_throw P (e : exn) (Q : A → World → Prop) E :
  (∀ w, P w → E e w) → hoare P (throw e) Q E.
Proof. intros H w Hw. by apply H. Qed.

Lemma hoare_bind P (m : M A) (k : A → M B) R (Q : B → World → Prop) E :
  hoare P m R E → (∀ a, hoare (R a) (k a) Q E) → hoare P (bind m k) Q E.
Proof.
  intros Hm Hk w Hw. unfold bind. specialize (Hm w Hw).
  destruct (m w) as [w' [e|a]]; [done|]. by apply Hk.
Qed.

Lemma hoare_try_catch P (m : M A) (h : exn → M A) R (Q : A → World → Prop) E :
  hoare P m Q R → (∀ e, hoare (R e) (h e) Q E) → hoare P (try_catch m h) Q E.
Proof.
  intros Hm Hh w Hw. unfold try_catch. specialize (Hm w Hw).
  destruct (m w) as [w' [e|a]]; [|done]. by apply Hh.
Qed.

Lemma hoare_conseq P P' (m : M A) (Q Q' : A → World → Prop) E E' :
  hoare P' m Q' E' → (∀ w, P w → P' w) → (∀ a w, Q' a w → Q a w) →
  (∀ e w, E' e w → E e w) → hoare P m Q E.
Proof.
  intros Hm HP HQ HE w Hw. specialize (Hm w (HP w Hw)).
  destruct (m w) as [w' [e|a]]; auto.
Qed.
End Rules.

Lemma hoare_pure_pre {A} P (Φ : Prop) (m : M A) Q E :
  (Φ → hoare P m Q E) → hoare (λ w, P w ∧ Φ) m Q E.
Proof. intros H w [Hw HΦ]. by apply H. Qed.

Lemma hoare_get P E : hoare P get (λ w0 w, w = w0 ∧ P w) E.
Proof. by intros w Hw. Qed.

Lemma hoare_modify (f : World → World) P (Q : unit → World → Prop) E :
  (∀ w, P w → Q tt (f w)) → hoare P (modify f) Q E.
Proof. intros H w Hw. by apply H. Qed.

Lemma hoare_await env c P : hoare P (await env c) (λ _, P) (λ _, P).
Proof. intros w Hw. unfold await. by destruct (fault env c). Qed.

Lemma keeps_bind {A B} I (m : M A) (k : A → M B) :
  keeps I m → (∀ a, keeps I (k a)) → keeps I (bind m k).
Proof. intros Hm Hk. by eapply hoare_bind. Qed.

Lemma keeps_try_catch {A} I (m : M A) (h : exn → M A) :
  keeps I m → (∀ e, keeps I (h e)) → keeps I (try_catch m h).
Proof. intros Hm Hh. by eapply hoare_try_catch. Qed.

Lemma keeps_ret {A} I (a : A) : keeps I (ret a).
Proof. by apply hoare_ret. Qed.

Lemma keeps_throw {A} I e : keeps I (throw (A:=A) e).
Proof. by apply hoare_throw. Qed.

Lemma keeps_await I env c : keeps I (await env c).
Proof. apply hoare_await. Qed.

Lemma keeps_modify I f : (∀ w, I w → I (f w)) → keeps I (modify f).
Proof. intros H. by apply hoare_modify. Qed.

Lemma keeps_get_bind {A} I (k : World → M A) :
  (∀ w0, hoare (λ w, w = w0 ∧ I w) (k w0) (λ _, I) (λ _, I)) →
  keeps I (bind get k).
Proof. intros Hk. eapply hoare_bind; [apply hoare_get|]. apply Hk. Qed.

(** ** The counters of the status documents *)

Ltac keeps_step :=
  first [ apply keeps_ret | apply keeps_throw | apply keeps_await
        | apply keeps_bind; [|intros ?]
        | apply keeps_try_catch; [|intros ?] ].

Lemma logs_ok_same_logs w w' : csvlogs w' = csvlogs w → logs_ok w → logs_ok w'.
Proof. unfold logs_ok. by intros ->. Qed.

Lemma keeps_generateCsvUploadUrl I env fileName :
  keeps I (generateCsvUploadUrl env fileName).
Proof. unfold generateCsvUploadUrl. repeat keeps_step. Qed.

Lemma keeps_uploadBuffer env buffer key : keeps logs_ok (uploadBuffer env buffer key).
Proof.
  unfold uploadBuffer. repeat keeps_step. apply keeps_modify.
  intros w. by apply logs_ok_same_logs.
Qed.

Lemma keeps_set_sqs f : keeps logs_ok (set_sqs f).
Proof. apply keeps_modify. intros w. by apply logs_ok_same_logs. Qed.

Lemma keeps_set_mysql db : keeps logs_ok (set_mysql db).
Proof. apply keeps_modify. intros w. by apply logs_ok_same_logs. Qed.

Lemma keeps_CsvLog_create env doc :
  counters_ok doc → keeps logs_ok (CsvLog_create env doc).
Proof.
  intros Hdoc. unfold CsvLog_create. keeps_step; [keeps_step|].
  apply keeps_get_bind. intros w0.
  destruct (csvlogs w0 !! new_oid env).
  - apply hoare_throw. by intros w [_ ?].
  - eapply hoare_bind; [|intros ?; apply keeps_ret].
    apply hoare_modify. intros w [_ Hw]. unfold logs_ok in *. simpl.
    by apply map_Forall_insert_2.
Qed.

Lemma keeps_CsvLog_updateOne env c _id set :
  (∀ l, counters_ok l → counters_ok (set l)) →
  keeps logs_ok (CsvLog_updateOne env c _id set).
Proof.
  intros Hset. unfold CsvLog_updateOne. keeps_step; [keeps_step|].
  assert (∀ i, keeps logs_ok (set_csvlogs (alter set i))) as Halter.
  { intros i. apply keeps_modify. intros w Hw. unfold logs_ok in *. simpl.
    intros j l Hj. rewrite lookup_alter in Hj. case_decide.
    - apply fmap_Some in Hj as (l0 & Hl0 & ->). apply Hset. by eapply Hw.
    - by eapply Hw. }
  destruct _id as [i|]; [apply Halter|].
  destruct (undefined_id env); [apply Halter|keeps_step].
Qed.

Lemma keeps_sendToProcessingQueue env d : keeps logs_ok (sendToProcessingQueue env d).
Proof. unfold sendToProcessingQueue. keeps_step; [keeps_step|]. apply keeps_set_sqs. Qed.

Lemma keeps_uploadCsvForProcessing env file uid :
  keeps logs_ok (uploadCsvForProcessing env file uid).
Proof.
  unfold uploadCsvForProcessing.
  repeat (case_match; [keeps_step|]).
  keeps_step; [apply keeps_generateCsvUploadUrl|].
  keeps_step; [apply keeps_uploadBuffer|].
  keeps_step; [apply keeps_CsvLog_create; by split|].
  keeps_step; [apply keeps_sendToProcessingQueue|]. keeps_step.
Qed.

Lemma keeps_generateDownloadUrl I env key : keeps I (generateDownloadUrl env key).
Proof. unfold generateDownloadUrl. destruct key; repeat keeps_step. Qed.

Lemma keeps_fetch_text env url : keeps logs_ok (fetch_text env url).
Proof.
  unfold fetch_text. keeps_step; [keeps_step|]. apply keeps_get_bind. intros w0.
  destruct (s3_csv w0 !! url).
  - apply hoare_ret. by intros w [_ ?].
  - apply hoare_throw. by intros w [_ ?].
Qed.

Lemma keeps_parse_csv I csvParser content : keeps I (parse_csv csvParser content).
Proof. unfold parse_csv. destruct (csvParser content); keeps_step. Qed.

(** The writer never reports more rows than it was given. *)
Lemma hoare_bulkCreate collate env batch :
  hoare logs_ok (bulkCreate collate env batch)
    (λ n w, logs_ok w ∧ n ≤ length batch) (λ _, logs_ok).
Proof.
  intros w Hw. destruct batch as [|r batch'] eqn:Hb; [by split; [|simpl; lia]|].
  rewrite <- Hb. assert (batch ≠ []) as Hne by (by rewrite Hb).
  destruct (fault env mysql_execute) as [msg|] eqn:Hf.
  - by rewrite (bulkCreate_fault _ _ _ _ msg).
  - rewrite bulkCreate_run by done. cbn zeta. split; [done|].
    etrans; [apply kept_length|]. by rewrite length_fmap.
Qed.

Lemma set_processing_ok t l : counters_ok l → counters_ok (set_processing t l).
Proof. done. Qed.

Lemma set_failed_ok report t l : counters_ok l → counters_ok (set_failed report t l).
Proof. done. Qed.

Lemma set_completed_ok valid n errs elapsed t l :
  n ≤ valid → counters_ok (set_completed (valid + length errs) n errs elapsed t l).
Proof. intros H. split; simpl; [done|lia]. Qed.

Lemma keeps_process_steps isEmail collate csvParser env csvLogId s3Key :
  keeps logs_ok (process_steps isEmail collate csvParser env csvLogId s3Key).
Proof.
  unfold process_steps.
  keeps_step; [apply keeps_CsvLog_updateOne, set_processing_ok|].
  keeps_step; [apply keeps_generateDownloadUrl|].
  keeps_step; [apply keeps_fetch_text|].
  keeps_step; [apply keeps_parse_csv|].
  eapply hoare_bind; [apply hoare_bulkCreate|]. intros n.
  apply hoare_pure_pre. intros Hn.
  apply keeps_CsvLog_updateOne. intros l _. by apply set_completed_ok.
Qed.

Lemma keeps_processCsvFile isEmail collate csvParser env csvLogId s3Key :
  keeps logs_ok (processCsvFile isEmail collate csvParser env csvLogId s3Key).
Proof.
  unfold processCsvFile. keeps_step; [apply keeps_process_steps|].
  apply keeps_CsvLog_updateOne, set_failed_ok.
Qed.

Lemma keeps_deleteMessage env h : keeps logs_ok (deleteMessage env h).
Proof. unfold deleteMessage. keeps_step; [keeps_step|]. apply keeps_set_sqs. Qed.

Lemma keeps_parse_body I t : keeps I (parse_body t).
Proof. unfold parse_body. repeat case_match; keeps_step. Qed.

Lemma keeps_handle_message isEmail collate csvParser env message :
  keeps logs_ok (handle_message isEmail collate csvParser env message).
Proof.
  unfold handle_message. keeps_step; [|keeps_step].
  keeps_step; [apply keeps_parse_body|].
  keeps_step; [apply keeps_processCsvFile|]. apply keeps_deleteMessage.
Qed.

Lemma keeps_for_each {A} I (f : A → M unit) l :
  (∀ x, keeps I (f x)) → keeps I (for_each f l).
Proof. intros Hf. induction l as [|x l IH]; simpl; repeat keeps_step; auto. Qed.

Lemma keeps_pollQueue isEmail collate csvParser env :
  keeps logs_ok (pollQueue isEmail collate csvParser env).
Proof.
  unfold pollQueue. keeps_step; [keeps_step|]. apply keeps_get_bind. intros w0.
  set (Messages := option_list _).
  cut (keeps logs_ok
         (match Messages with
          | [] => ret tt
          | _ => for_each (handle_message isEmail collate csvParser env) Messages
          end)).
  { intros H w [_ Hw]. by apply H. }
  destruct Messages; [keeps_step|].
  apply keeps_for_each, keeps_handle_message.
Qed.

Lemma step_logs_ok isEmail collate csvParser w w' :
  step isEmail collate csvParser w w' → logs_ok w → logs_ok w'.
Proof.
  intros [env file uid w0|env w0] Hw.
  - pose proof (keeps_uploadCsvForProcessing env file uid w0 Hw) as H.
    by destruct (uploadCsvForProcessing env file uid w0) as [? [?|?]].
  - pose proof (keeps_pollQueue isEmail collate csvParser env w0 Hw) as H.
    by destruct (pollQueue isEmail collate csvParser env w0) as [? [?|?]].
Qed.

Lemma rtc_step_logs_ok isEmail collate csvParser w0 w :
  rtc (step isEmail collate csvParser) w0 w → logs_ok w0 → logs_ok w.
Proof.
  induction 1 as [|x y z Hxy _ IH]; [done|].
  intros Hx. apply IH. by eapply step_logs_ok.
Qed.

Lemma reachable_logs_ok isEmail collate csvParser w :
  reachable isEmail collate csvParser w → logs_ok w.
Proof.
  intros (w0 & Hempty & Hsteps). eapply rtc_step_logs_ok; [done|].
  unfold logs_ok. rewrite Hempty. apply map_Forall_empty.
Qed.

(** What a normal return of [bulkCreate] tells. *)
Lemma bulkCreate_result collate env batch w w' n :
  bulkCreate collate env batch w = (w', inr n) →
  csvlogs w' = csvlogs w ∧ s3_csv w' = s3_csv w ∧ sqs w' = sqs w
  ∧ n ≤ length batch
  ∧ length (leads (mysql w')) = length (leads (mysql w)) + n
  ∧ leads (mysql w) `prefix_of` leads (mysql w').
Proof.
  intros Hrun. destruct batch as [|r0 batch'] eqn:Hb.
  { injection Hrun as <- <-. do 3 (split; [done|]). simpl.
    split; [lia|]. split; [lia|done]. }
  rewrite <- Hb in *. assert (batch ≠ []) as Hne by (by rewrite Hb).
  destruct (fault env mysql_execute) as [msg|] eqn:Hf.
  { by rewrite (bulkCreate_fault _ _ _ _ msg) in Hrun. }
  rewrite bulkCreate_run in Hrun by done. cbn zeta in Hrun.
  injection Hrun as <- <-. simpl. do 3 (split; [done|]). split; [|split].
  - etrans; [apply kept_length|]. by rewrite length_fmap.
  - by rewrite length_app, appended_length.
  - by apply prefix_app_r.
Qed.

(** A call of [bulkCreate] that throws has changed nothing. *)
Lemma bulkCreate_throws collate env batch w w' e :
  bulkCreate collate env batch w = (w', inl e) → w' = w.
Proof.
  unfold bulkCreate. destruct (decide (length batch = 0)); [done|].
  unfold bind, await, get, set_mysql, modify, ret, throw.
  destruct (fault env mysql_execute); cbn; congruence.
Qed.

(** The counters written by a run of the [try] block that reaches its end. *)
Lemma completed_run_counters isEmail collate csvParser env id skey w w' l0 :
  process_steps isEmail collate csvParser env (Some id) skey w = (w', inr tt) →
  csvlogs w !! id = Some l0 →
  ∃ key content events l',
    skey = Some key ∧ s3_csv w !! key = Some content
    ∧ csvParser content = inr events
    ∧ csvlogs w' !! id = Some l'
    ∧ CsvLog.status l' = completed
    ∧ CsvLog.total_rows l' = length events
    ∧ CsvLog.failed_imports l' = length (errors (collect isEmail events))
    ∧ CsvLog.total_rows l'
      = length (rows (collect isEmail events)) + CsvLog.failed_imports l'
    ∧ CsvLog.successful_imports l' ≤ length (rows (collect isEmail events))
    ∧ length (leads (mysql w'))
      = length (leads (mysql w)) + CsvLog.successful_imports l'
    ∧ CsvLog.validation_errors l' = errors (collect isEmail events)
    ∧ leads (mysql w) `prefix_of` leads (mysql w').
Proof.
  intros Hrun Hl0.
  cbv [process_steps bind CsvLog_updateOne generateDownloadUrl fetch_text
       parse_csv await get ret throw set_csvlogs modify] in Hrun.
  destruct (fault env mark_processing); [done|].
  destruct skey as [key|]; [|done].
  destruct (fault env sign_get); [done|].
  destruct (fault env http_fetch); [done|]. cbn [s3_csv] in Hrun.
  destruct (s3_csv w !! key) as [content|] eqn:Hc; [|done].
  destruct (csvParser content) as [e|events] eqn:Hp; [done|].
  match type of Hrun with
  | context [bulkCreate ?c ?e ?b ?w1] =>
      destruct (bulkCreate c e b w1) as [w2 [e'|n]] eqn:Hb; [done|]
  end.
  apply bulkCreate_result in Hb as (Hlogs & _ & _ & Hn & Hlen & Hpre).
  cbn [csvlogs mysql] in *.
  destruct (fault env mark_completed); [done|].
  injection Hrun as <-. cbn [csvlogs mysql].
  eexists key, content, events, _. rewrite Hlogs.
  split; [done|]. split; [done|]. split; [done|]. split.
  { rewrite !lookup_alter_eq, Hl0. reflexivity. }
  cbn. pose proof (collect_total isEmail events). repeat split; try done; lia.
Qed.

(** A run of the [try] block that throws has written no counter: the
    document is as it was, but for the mark of the first update. *)
Lemma failed_run_counters isEmail collate csvParser env id skey w w1 e l0 :
  process_steps isEmail collate csvParser env (Some id) skey w = (w1, inl e) →
  csvlogs w !! id = Some l0 →
  csvlogs w1 !! id = Some l0
  ∨ csvlogs w1 !! id = Some (set_processing (now env) l0).
Proof.
  intros Hrun Hl0.
  cbv [process_steps bind CsvLog_updateOne generateDownloadUrl fetch_text
       parse_csv await get ret throw set_csvlogs modify] in Hrun.
  destruct (fault env mark_processing).
  { injection Hrun as <- _. by left. }
  right.
  assert (alter (set_processing (now env)) id (csvlogs w) !! id
          = Some (set_processing (now env) l0)) as Hmark.
  { by rewrite lookup_alter_eq, Hl0. }
  destruct skey as [key|]; [|by injection Hrun as <- _].
  destruct (fault env sign_get); [by injection Hrun as <- _|].
  destruct (fault env http_fetch); [by injection Hrun as <- _|].
  cbn [s3_csv] in Hrun.
  destruct (s3_csv w !! key) as [content|]; [|by injection Hrun as <- _].
  destruct (csvParser content) as [e'|events]; [by injection Hrun as <- _|].
  match type of Hrun with
  | context [bulkCreate ?c ?e ?b ?w1] =>
      destruct (bulkCreate c e b w1) as [w2 [e'|n]] eqn:Hb
  end.
  - injection Hrun as <- _. by apply bulkCreate_throws in Hb as ->.
  - apply bulkCreate_result in Hb as (Hlogs & _).
    cbn [csvlogs mysql] in *.
    destruct (fault env mark_completed); [|done].
    injection Hrun as <- _. by rewrite Hlogs.
Qed.

(** ** C2 *)

(** C2, as the code has it.  In every world the system reaches, every
    status document has [failed_imports] equal to the number of recorded
    validation errors and [successful_imports + failed_imports <=
    total_rows].  A run whose [try] block reaches its end leaves the job
    [completed] with [total_rows] the number of data rows of the staged
    file, [failed_imports] the number of rows the validator refused and
    [successful_imports] the number of rows added to the table, which is at
    most the number of rows the validator accepted; the two sides of the
    claimed equation agree exactly when every accepted row was inserted,
    none being dropped as a duplicate.  A run whose [try] block throws
    leaves the four counters of the document as they were, and the job
    [failed] with the cause as its report when the write of the [catch]
    block goes through. *)
Theorem C2_counters_bounded_by_total (isEmail : string → bool)
    (collate : string → string) (csvParser : string → exn + list record) :
  (∀ w id l,
     reachable isEmail collate csvParser w →
     csvlogs w !! id = Some l →
     CsvLog.failed_imports l = length (CsvLog.validation_errors l)
     ∧ CsvLog.successful_imports l + CsvLog.failed_imports l ≤ CsvLog.total_rows l)
  ∧ (∀ env id skey w w' l0,
       process_steps isEmail collate csvParser env (Some id) skey w = (w', inr tt) →
       csvlogs w !! id = Some l0 →
       ∃ key content events l',
         skey = Some key ∧ s3_csv w !! key = Some content
         ∧ csvParser content = inr events
         ∧ processCsvFile isEmail collate csvParser env (Some id) skey w
           = (w', inr tt)
         ∧ csvlogs w' !! id = Some l'
         ∧ CsvLog.status l' = completed
         ∧ CsvLog.total_rows l' = length events
         ∧ CsvLog.validation_errors l' = errors (collect isEmail events)
         ∧ CsvLog.failed_imports l' = length (errors (collect isEmail events))
         ∧ CsvLog.total_rows l'
           = length (rows (collect isEmail events)) + CsvLog.failed_imports l'
         ∧ leads (mysql w) `prefix_of` leads (mysql w')
         ∧ length (leads (mysql w'))
           = length (leads (mysql w)) + CsvLog.successful_imports l'
         ∧ CsvLog.successful_imports l' ≤ length (rows (collect isEmail events))
         ∧ (CsvLog.total_rows l'
            = CsvLog.successful_imports l' + CsvLog.failed_imports l'
            ↔ CsvLog.successful_imports l'
              = length (rows (collect isEmail events))))
  ∧ (∀ env id skey w w1 e l0,
       process_steps isEmail collate csvParser env (Some id) skey w = (w1, inl e) →
       csvlogs w !! id = Some l0 →
       ∃ l',
         csvlogs (processCsvFile isEmail collate csvParser env (Some id) skey w).1
           !! id = Some l'
         ∧ CsvLog.total_rows l' = CsvLog.total_rows l0
         ∧ CsvLog.successful_imports l' = CsvLog.successful_imports l0
         ∧ CsvLog.failed_imports l' = CsvLog.failed_imports l0
         ∧ CsvLog.validation_errors l' = CsvLog.validation_errors l0
         ∧ (fault env mark_failed = None →
            CsvLog.status l' = failed
            ∧ CsvLog.error_report l' = Some (exn_message e))).
Proof.
  split; [|split].
  - intros w id l Hw Hl. by apply (reachable_logs_ok _ _ _ _ Hw id l).
  - intros env id skey w w' l0 Hrun Hl0.
    destruct (completed_run_counters _ _ _ _ _ _ _ _ _ Hrun Hl0)
      as (key & content & events & l' & Hk & Hc & Hp & Hl' & Hst & Hn & Hf
          & Ht & Hs & Hlen & Hv & Hpre).
    exists key, content, events, l'.
    split; [done|]. split; [done|]. split; [done|]. split.
    { unfold processCsvFile, try_catch. by rewrite Hrun. }
    repeat split; try done; lia.
  - intros env id skey w w1 e l0 Hrun Hl0.
    unfold processCsvFile, try_catch. rewrite Hrun.
    unfold CsvLog_updateOne, bind, await, set_csvlogs, modify, throw, ret.
    destruct (failed_run_counters _ _ _ _ _ _ _ _ _ _ Hrun Hl0) as [Hl1|Hl1];
      destruct (fault env mark_failed) as [msg|]; cbn [fst csvlogs];
      rewrite ?lookup_alter_eq, Hl1; eexists; (split; [reflexivity|]);
      repeat split; done.
Qed.

(** ** C9 *)

(** The multer gate of the route refuses the same kinds of file before the
    service is called (its limits are the tighter ones). *)
Lemma multer_single_rejects file :
  mimetype file ≠ "text/csv" ∨ (size file > max_file_size)%Z →
  ∃ msg, multer_single file = inl (Error msg).
Proof.
  intros H. unfold multer_single.
  destruct (decide (mimetype file = "text/csv")); [|by eexists].
  destruct (decide (size file > max_file_size)%Z); [by eexists|].
  by destruct H.
Qed.

(** C9: a file whose declared type is neither of the two CSV types, or
    whose size exceeds 10 MiB, is refused with a [ValidationError] and the
    world is returned as it was: no object stored, no status document, no
    queue message, the uploader's history unchanged. *)
Theorem C9_rejected_upload_creates_no_state (env : Env) (file : MulterFile)
    (uid : Z) (w : World) :
  ¬ csv_compatible (mimetype file) ∨ (size file > 10 * 1024 * 1024)%Z →
  ∃ msg w',
    uploadCsvForProcessing env file uid w = (w', inl (ValidationError msg))
    ∧ s3_csv w' = s3_csv w
    ∧ csvlogs w' = csvlogs w
    ∧ sqs w' = sqs w
    ∧ user_jobs w' uid = user_jobs w uid.
Proof.
  intros H. unfold uploadCsvForProcessing, csv_compatible in *.
  destruct (bool_decide (mimetype file ≠ "text/csv")
            && bool_decide (mimetype file ≠ "application/vnd.ms-excel")) eqn:Hm.
  { by exists "Only CSV files are allowed", w. }
  destruct (bool_decide (size file > max_file_size)%Z) eqn:Hs.
  { by exists "File size must not exceed 10MB", w. }
  exfalso. apply bool_decide_eq_false in Hs.
  apply andb_false_iff in Hm as [Hm|Hm]; apply bool_decide_eq_false in Hm;
    destruct H as [H|H]; try done.
  - apply H. left. by destruct (decide (mimetype file = "text/csv")).
  - apply H. right.
    by destruct (decide (mimetype file = "application/vnd.ms-excel")).
Qed.

(** ** Storage keys *)

Lemma all_chars_app p (a b : string) :
  all_chars p (a +:+ b) = all_chars p a && all_chars p b.
Proof.
  induction a as [|x a IH]; [done|]. rewrite app_string_cons. simpl.
  by rewrite IH, andb_assoc.
Qed.

Lemma pretty_N_char_digit x : is_digit (pretty_N_char x) = true.
Proof. unfold pretty_N_char. by repeat case_match. Qed.

(** The decimal text of a number is made of digits, at least one of them
    when the number is positive. *)
Lemma pretty_N_go_digits x : ∀ s,
  ∃ d, pretty_N_go x s = d +:+ s ∧ all_chars is_digit d = true
       ∧ ((0 < x)%N → d ≠ "").
Proof.
  induction (N.lt_wf_0 x) as [x _ IH]; intros s.
  assert (x = 0 ∨ 0 < x)%N as [->|Hx] by lia.
  - exists "". rewrite pretty_N_go_0. split; [done|]. split; [done|lia].
  - rewrite pretty_N_go_step by done.
    destruct (IH (x `div` 10)%N (N.div_lt x 10 Hx eq_refl)
                (String (pretty_N_char (x `mod` 10)) s)) as (d & -> & Hd & _).
    exists (d +:+ String (pretty_N_char (x `mod` 10)) "").
    rewrite app_string_assoc. split; [done|]. split.
    + rewrite all_chars_app, Hd. simpl. by rewrite pretty_N_char_digit.
    + intros _. by destruct d.
Qed.

Lemma pretty_Z_shape (t : Z) :
  ∃ d, d ≠ "" ∧ all_chars is_digit d = true
       ∧ (pretty t = d ∨ pretty t = "-" +:+ d).
Proof.
  assert (∀ p : positive, ∃ d, d ≠ "" ∧ all_chars is_digit d = true
                               ∧ pretty (Npos p) = d) as Hpos.
  { intros p. unfold pretty, pretty_N. rewrite decide_False by done.
    destruct (pretty_N_go_digits (N.pos p) "") as (d & -> & Hd & Hne).
    exists d. rewrite app_string_nil_r. split; [apply Hne; lia|done]. }
  destruct t as [|p|p].
  - exists "0". split; [done|]. split; [done|by left].
  - destruct (Hpos p) as (d & ? & ? & ?). exists d.
    split; [done|]. split; [done|by left].
  - destruct (Hpos p) as (d & ? & ? & Hp). exists d.
    split; [done|]. split; [done|].
    right. unfold pretty, pretty_Z. by rewrite <- Hp.
Qed.

(** Two texts "digits, dash, rest" are equal only if digits and rest are. *)
Lemma split_at_dash (a b n1 n2 : string) :
  all_chars is_digit a = true → all_chars is_digit b = true →
  a +:+ "-" +:+ n1 = b +:+ "-" +:+ n2 → a = b ∧ n1 = n2.
Proof.
  assert (∀ s, "" +:+ s = s) as Hnil by done.
  revert b. induction a as [|x a IH]; intros [|y b] Ha Hb;
    rewrite ?app_string_cons, ?Hnil; intros H; simplify_eq.
  - done.
  - simpl in Ha, Hb.
    apply andb_true_iff in Ha as [_ Ha]. apply andb_true_iff in Hb as [_ Hb].
    by destruct (IH b Ha Hb) as [-> ->].
Qed.

(** Two keys are equal exactly when the clock readings and the sanitized
    names are. *)
Lemma csv_key_eq (t1 t2 : Z) (f1 f2 : string) :
  csv_key t1 f1 = csv_key t2 f2
  ↔ t1 = t2 ∧ replace_spaces f1 = replace_spaces f2.
Proof.
  split; [|by intros [-> H]; unfold csv_key; rewrite H].
  unfold csv_key. intros H. apply (inj (String.app "csv/")) in H.
  destruct (pretty_Z_shape t1) as (d1 & Hne1 & Hd1 & Hp1).
  destruct (pretty_Z_shape t2) as (d2 & Hne2 & Hd2 & Hp2).
  assert (pretty t1 = pretty t2 ∧ replace_spaces f1 = replace_spaces f2) as [Hp ?].
  { destruct Hp1 as [E1|E1], Hp2 as [E2|E2]; rewrite E1, E2 in H |- *.
    - by apply split_at_dash.
    - destruct d1 as [|c d1]; [done|]. rewrite !app_string_cons in H.
      injection H as -> _. by simpl in Hd1.
    - destruct d2 as [|c d2]; [done|]. rewrite !app_string_cons in H.
      injection H as <- _. by simpl in Hd2.
    - rewrite !app_string_assoc, !app_string_cons in H. injection H as H.
      change (d1 +:+ "-" +:+ replace_spaces f1
              = d2 +:+ "-" +:+ replace_spaces f2) in H.
      apply split_at_dash in H as [-> ->]; done. }
  split; [|done]. by apply (inj pretty).
Qed.

(** ** C6 *)

(** A successful upload stored the file under the key made of the clock
    reading and the sanitized name. *)
Lemma upload_key env file uid w w' oid key :
  uploadCsvForProcessing env file uid w = (w', inr (oid, key)) →
  key = csv_key (now env) (originalname file)
  ∧ s3_csv w' = <[key := buffer file]> (s3_csv w).
Proof.
  intros Hrun.
  cbv [uploadCsvForProcessing generateCsvUploadUrl uploadBuffer CsvLog_create
       sendToProcessingQueue bind await get ret throw set_csvlogs set_sqs modify]
    in Hrun.
  repeat (case_match; simplify_eq/=; try done).
Qed.

(** The key is [csv/<Date.now()>-<name with each run of white space
    replaced by an underscore>]: two successful uploads get the same key
    exactly when their clock readings are equal and their sanitized names
    are equal.  The key depends on the time as well as on the name, and
    uploads at different milliseconds never share a key. *)
Lemma upload_keys_equal_iff (env1 env2 : Env)
    (f1 f2 : MulterFile) (u1 u2 : Z) (w1 w2 w1' w2' : World)
    (id1 id2 key1 key2 : string) :
  uploadCsvForProcessing env1 f1 u1 w1 = (w1', inr (id1, key1)) →
  uploadCsvForProcessing env2 f2 u2 w2 = (w2', inr (id2, key2)) →
  (key1 = key2
   ↔ now env1 = now env2
     ∧ replace_spaces (originalname f1) = replace_spaces (originalname f2)).
Proof.
  intros [-> _]%upload_key [-> _]%upload_key. apply csv_key_eq.
Qed.

(** C6 on a concrete run: two uploads of files named alike, served within
    the same millisecond, both succeed, get the same key, and the second
    replaces the staged bytes of the first. *)
Theorem C6_same_millisecond_uploads_collide :
  let r1 := uploadCsvForProcessing Sample.quiet Sample.leads_file 7 Sample.empty_world in
  let r2 := uploadCsvForProcessing Sample.quiet_again Sample.other_file 8 r1.1 in
  ∃ id1 id2 key,
    r1.2 = inr (id1, key) ∧ r2.2 = inr (id2, key) ∧ id1 ≠ id2
    ∧ s3_csv r1.1 !! key = Some (buffer Sample.leads_file)
    ∧ s3_csv r2.1 !! key = Some (buffer Sample.other_file)
    ∧ buffer Sample.leads_file ≠ buffer Sample.other_file.
Proof.
  eexists _, _, _. split; [vm_compute; reflexivity|].
  split; [vm_compute; reflexivity|]. by vm_compute.
Qed.

(** ** C1 *)

Lemma not_elem_of_filter_handle (q : list Message) (m : Message) :
  m ∉ filter (λ m', ReceiptHandle m' ≠ ReceiptHandle m) q.
Proof. intros [H _]%list_elem_of_filter. done. Qed.

(** Whenever the [try] block of [processCsvFile] throws and the two calls
    that follow succeed, the job is marked failed with the cause as
    [error_report] and the message is removed from the queue. *)
Lemma handle_message_failure_deletes isEmail collate csvParser env message members w w1 e :
  Body message = Some (JSON_stringify (JObject members)) →
  process_steps isEmail collate csvParser env
    (string_member "csvLogId" (JObject members))
    (string_member "s3Key" (JObject members)) w = (w1, inl e) →
  fault env mark_failed = None →
  fault env sqs_delete = None →
  handle_message isEmail collate csvParser env message w
  = ({| s3_csv := s3_csv w1;
        csvlogs :=
          match string_member "csvLogId" (JObject members) with
          | Some i => alter (set_failed (exn_message e) (later env)) i (csvlogs w1)
          | None =>
              match undefined_id env with
              | Some i => alter (set_failed (exn_message e) (later env)) i (csvlogs w1)
              | None => csvlogs w1
              end
          end;
        sqs := filter (λ m, ReceiptHandle m ≠ ReceiptHandle message) (sqs w1);
        mysql := mysql w1 |}, inr tt).
Proof.
  intros Hbody Hsteps Hf Hd.
  unfold handle_message, try_catch, bind at 1. rewrite Hbody.
  cbn [default from_option id JSON_stringify parse_body JSON_parse ret].
  unfold bind at 1, processCsvFile, try_catch. rewrite Hsteps.
  unfold CsvLog_updateOne, deleteMessage, bind, await. rewrite Hf, Hd.
  destruct (string_member "csvLogId" (JObject members)); [done|].
  by destruct (undefined_id env).
Qed.

Lemma handle_message_success_deletes isEmail collate csvParser env message members w w1 :
  Body message = Some (JSON_stringify (JObject members)) →
  process_steps isEmail collate csvParser env
    (string_member "csvLogId" (JObject members))
    (string_member "s3Key" (JObject members)) w = (w1, inr tt) →
  fault env sqs_delete = None →
  handle_message isEmail collate csvParser env message w
  = ({| s3_csv := s3_csv w1; csvlogs := csvlogs w1;
        sqs := filter (λ m, ReceiptHandle m ≠ ReceiptHandle message) (sqs w1);
        mysql := mysql w1 |}, inr tt).
Proof.
  intros Hbody Hsteps Hd.
  unfold handle_message, try_catch, bind at 1. rewrite Hbody.
  cbn [default from_option id JSON_stringify parse_body JSON_parse ret].
  unfold bind at 1, processCsvFile, try_catch. rewrite Hsteps.
  unfold deleteMessage, bind, await. by rewrite Hd.
Qed.

(** Whatever the outcome of the pipeline, a well-formed message is deleted
    as long as the failure write and the delete call themselves succeed. *)
Lemma handle_message_always_deletes isEmail collate csvParser env message members w :
  Body message = Some (JSON_stringify (JObject members)) →
  fault env mark_failed = None →
  fault env sqs_delete = None →
  message ∉ sqs (handle_message isEmail collate csvParser env message w).1.
Proof.
  intros Hbody Hf Hd.
  destruct (process_steps isEmail collate csvParser env
              (string_member "csvLogId" (JObject members))
              (string_member "s3Key" (JObject members)) w) as [w1 [e|[]]] eqn:Hsteps.
  - rewrite (handle_message_failure_deletes _ _ _ _ _ _ _ _ _ Hbody Hsteps Hf Hd).
    apply not_elem_of_filter_handle.
  - rewrite (handle_message_success_deletes _ _ _ _ _ _ _ _ Hbody Hsteps Hd).
    apply not_elem_of_filter_handle.
Qed.

(** The per-message handler never lets an exception out. *)
Lemma handle_message_never_throws isEmail collate csvParser env message w :
  (handle_message isEmail collate csvParser env message w).2 = inr tt.
Proof.
  unfold handle_message, try_catch.
  by destruct (bind _ _ w) as [w' [e|[]]].
Qed.

(** ** C5 *)

(** A run of [processCsvFile] returns normally when the write of its
    [catch] block goes through, and leaves the document of its job
    [completed] or [failed]. *)
Lemma processCsvFile_outcome isEmail collate csvParser env id skey w l0 :
  csvlogs w !! id = Some l0 →
  fault env mark_failed = None →
  (processCsvFile isEmail collate csvParser env (Some id) skey w).2 = inr tt
  ∧ ∃ l', csvlogs (processCsvFile isEmail collate csvParser env (Some id) skey w).1
            !! id = Some l'
          ∧ (CsvLog.status l' = completed ∨ CsvLog.status l' = failed).
Proof.
  intros Hl0 Hf. unfold processCsvFile, try_catch.
  destruct (process_steps isEmail collate csvParser env (Some id) skey w)
    as [w1 [e|[]]] eqn:Hrun.
  - unfold CsvLog_updateOne, bind, await, set_csvlogs, modify, ret.
    rewrite Hf. cbn [fst snd csvlogs]. split; [done|].
    destruct (failed_run_counters _ _ _ _ _ _ _ _ _ _ Hrun Hl0) as [Hl1|Hl1];
      rewrite lookup_alter_eq, Hl1; eexists; (split; [reflexivity|]); by right.
  - split; [done|].
    destruct (completed_run_counters _ _ _ _ _ _ _ _ _ Hrun Hl0)
      as (_ & _ & _ & l' & _ & _ & _ & Hl' & Hst & _).
    exists l'. split; [done|by left].
Qed.

(** C5, as the code has it.  The message put on the queue has the JSON body
    [{ csvLogId: string, s3Key: string, userId: number }] and the single
    attribute [jobType] of type String with value ["csv_processing"].  The
    worker reads [csvLogId] and [s3Key] back from that body: a poll that
    receives the message is one run of its handler, the handler is one run
    of [processCsvFile] on the identifier and the key the uploader wrote,
    followed by the deletion of the message, and the run ends in the status
    document of that job, which it leaves [completed] or [failed]. *)
Theorem C5_job_message_shape (isEmail : string → bool)
    (collate : string → string) (csvParser : string → exn + list record)
    (env : Env) (d : JobData) (w : World) :
  fault env sqs_send = None →
  ∃ m body,
    sendToProcessingQueue env d w
    = ({| s3_csv := s3_csv w; csvlogs := csvlogs w; sqs := sqs w ++ [m];
          mysql := mysql w |}, inr tt)
    ∧ Body m = Some (JSON_stringify
                       (JObject [ ("csvLogId", JString (csvLogId d));
                                  ("s3Key", JString (s3Key d));
                                  ("userId", JNumber (userId d)) ]))
    ∧ MessageAttributes m
      = [ ("jobType", {| DataType := "String"; StringValue := "csv_processing" |}) ]
    ∧ (∀ w0, parse_body (default (text_of (JObject [])) (Body m)) w0
             = (w0, inr body))
    ∧ string_member "csvLogId" body = Some (csvLogId d)
    ∧ string_member "s3Key" body = Some (s3Key d)
    ∧ (∀ env' w1,
         handle_message isEmail collate csvParser env' m w1
         = try_catch
             (do! processCsvFile isEmail collate csvParser env'
                    (Some (csvLogId d)) (Some (s3Key d)) in
              deleteMessage env' (new_handle env))
             (λ _, ret tt) w1)
    ∧ (∀ env' w1,
         fault env' sqs_receive = None →
         pick env' ≫= (λ i, sqs w1 !! i) = Some m →
         pollQueue isEmail collate csvParser env' w1
         = handle_message isEmail collate csvParser env' m w1)
    ∧ (∀ env' w1 l0,
         csvlogs w1 !! csvLogId d = Some l0 →
         fault env' mark_failed = None →
         ∃ l', csvlogs (handle_message isEmail collate csvParser env' m w1).1
                 !! csvLogId d = Some l'
               ∧ (CsvLog.status l' = completed ∨ CsvLog.status l' = failed)).
Proof.
  intros Hf.
  set (m := {| ReceiptHandle := new_handle env;
               Body := Some (JSON_stringify (JobData_json d));
               MessageAttributes :=
                 [ ("jobType", {| DataType := "String";
                                  StringValue := "csv_processing" |}) ] |}).
  assert (∀ env' w1,
            handle_message isEmail collate csvParser env' m w1
            = try_catch
                (do! processCsvFile isEmail collate csvParser env'
                       (Some (csvLogId d)) (Some (s3Key d)) in
                 deleteMessage env' (new_handle env))
                (λ _, ret tt) w1) as Hhandle.
  { intros env' w1. unfold handle_message, try_catch, bind at 1. by cbn. }
  exists m, (JobData_json d).
  split.
  { unfold sendToProcessingQueue, bind, await, set_sqs, modify. by rewrite Hf. }
  do 5 (split; [by cbn|]).
  split; [exact Hhandle|]. split.
  - intros env' w1 Hr Hpick. unfold pollQueue, bind at 1, await. rewrite Hr.
    cbn [ret]. unfold bind at 1, get. rewrite Hpick.
    change (option_list (Some m)) with [m]. cbn [for_each]. unfold bind.
    pose proof (handle_message_never_throws isEmail collate csvParser env' m w1) as Hn.
    destruct (handle_message isEmail collate csvParser env' m w1) as [w2 [e|[]]];
      [done|reflexivity].
  - intros env' w1 l0 Hl0 Hmark. rewrite Hhandle.
    destruct (processCsvFile_outcome isEmail collate csvParser env'
                (csvLogId d) (Some (s3Key d)) w1 l0 Hl0 Hmark)
      as (Hret & l' & Hl' & Hst).
    exists l'. split; [|done].
    unfold try_catch, bind.
    destruct (processCsvFile isEmail collate csvParser env'
                (Some (csvLogId d)) (Some (s3Key d)) w1) as [w2 r].
    cbn [fst snd] in *. subst r.
    unfold deleteMessage, bind, await, set_sqs, modify, throw, ret.
    by destruct (fault env' sqs_delete).
Qed.

(** C1 on a concrete run: the file is uploaded and queued; when the worker
    takes the message the download fails once.  The job is marked failed
    with the cause as its report, and the message is gone from the queue, so
    nothing is left to be redelivered. *)
Theorem C1_failed_job_message_is_deleted :
  let w := (pollQueue Sample.is_address Sample.binary Sample.csv
              Sample.fetch_fails Sample.uploaded).1 in
  length (sqs Sample.uploaded) = 1
  ∧ CsvLog.status <$> csvlogs w !! "65a000000000000000000001" = Some failed
  ∧ CsvLog.error_report <$> csvlogs w !! "65a000000000000000000001"
    = Some (Some "fetch failed")
  ∧ sqs w = [].
Proof. vm_compute. done. Qed.

(** ** Concrete instances *)

(** C2: the second import of the same one-row file completes with
    [total_rows = 1] while [successful_imports] and [failed_imports] are
    both 0. *)
Lemma C2_duplicate_breaks_equation :
  ∃ l, csvlogs Sample.imported_again !! "65a000000000000000000004" = Some l
       ∧ CsvLog.status l = completed
       ∧ CsvLog.total_rows l
         ≠ CsvLog.successful_imports l + CsvLog.failed_imports l.
Proof. eexists. split; [vm_compute; reflexivity|]. by split. Qed.

Lemma imported_again_reachable :
  reachable Sample.is_address Sample.binary Sample.csv Sample.imported_again.
Proof.
  exists Sample.empty_world. split; [done|].
  eapply rtc_l; [apply (step_upload _ _ _ Sample.quiet Sample.leads_file 7)|].
  eapply rtc_l; [apply (step_poll _ _ _ Sample.quiet)|].
  eapply rtc_l; [apply (step_upload _ _ _ Sample.next_day Sample.leads_file 7)|].
  eapply rtc_l; [apply (step_poll _ _ _ Sample.next_day)|].
  apply rtc_refl.
Qed.

Lemma C2_witness :
  (∃ l, csvlogs Sample.imported_again !! "65a000000000000000000004" = Some l
        ∧ CsvLog.failed_imports l = length (CsvLog.validation_errors l)
        ∧ CsvLog.successful_imports l + CsvLog.failed_imports l
          ≤ CsvLog.total_rows l)
  ∧ (∃ l', csvlogs (processCsvFile Sample.is_address Sample.binary Sample.csv
                      Sample.fetch_fails (Some "65a000000000000000000001")
                      (Some "csv/1700000000000-leads.csv") Sample.uploaded).1
             !! "65a000000000000000000001" = Some l'
           ∧ CsvLog.total_rows l' = 0
           ∧ CsvLog.successful_imports l' = 0
           ∧ CsvLog.failed_imports l' = 0
           ∧ CsvLog.status l' = failed
           ∧ CsvLog.error_report l' = Some "fetch failed").
Proof.
  destruct (C2_counters_bounded_by_total Sample.is_address Sample.binary Sample.csv)
    as (Hall & _ & Hfailed).
  split.
  - eexists. split; [vm_compute; reflexivity|].
    apply (Hall Sample.imported_again "65a000000000000000000004").
    + apply imported_again_reachable.
    + vm_compute. reflexivity.
  - assert (∃ l0, csvlogs Sample.uploaded !! "65a000000000000000000001" = Some l0
                  ∧ CsvLog.total_rows l0 = 0
                  ∧ CsvLog.successful_imports l0 = 0
                  ∧ CsvLog.failed_imports l0 = 0) as (l0 & Hl0 & Ht0 & Hs0 & Hf0).
    { eexists. split; [vm_compute; reflexivity|]. by split. }
    destruct (Hfailed Sample.fetch_fails "65a000000000000000000001"
                (Some "csv/1700000000000-leads.csv") Sample.uploaded
                (process_steps Sample.is_address Sample.binary Sample.csv
                   Sample.fetch_fails (Some "65a000000000000000000001")
                   (Some "csv/1700000000000-leads.csv") Sample.uploaded).1
                (Error "fetch failed") l0)
      as (l' & Hl' & Ht & Hs & Hf & _ & Hst).
    { vm_compute. reflexivity. }
    { exact Hl0. }
    destruct (Hst eq_refl) as [Hstatus Hreport].
    exists l'. split; [exact Hl'|]. rewrite Ht, Hs, Hf.
    split; [exact Ht0|]. split; [exact Hs0|]. split; [exact Hf0|].
    split; [exact Hstatus|exact Hreport].
Defined.

(** C3: a row whose phone is already stored, with another e-mail, is
    inserted and counted. *)
Lemma C3_same_phone_is_inserted :
  let w := Sample.world_with_lead (Some "a@x.com") in
  let r := Sample.same_phone_row (Some "b@x.com") in
  let run := bulkCreate Sample.binary Sample.quiet [r] w in
  (∃ l, l ∈ leads (mysql w) ∧ Lead.phone l = phone r)
  ∧ run.2 = inr 1
  ∧ length (leads (mysql run.1)) = 2.
Proof.
  split; [|by vm_compute].
  exists (Sample.stored_lead (Some "a@x.com")). split; [|done].
  apply list_elem_of_here.
Qed.

(** C3: a row without an e-mail is never taken for a duplicate; importing
    it twice stores it twice. *)
Example row_without_email_is_inserted_again :
  let r := Sample.same_phone_row None in
  let w1 := (bulkCreate Sample.binary Sample.quiet [r] Sample.empty_world).1 in
  let run := bulkCreate Sample.binary Sample.next_day [r] w1 in
  run.2 = inr 1
  ∧ (λ l, (Lead.name l, Lead.phone l, Lead.email l)) <$> leads (mysql run.1)
    = [ ("Alice B", "+14155551234", None); ("Alice B", "+14155551234", None) ].
Proof. by vm_compute. Qed.

(** The same row is dropped when the stored lead has its e-mail too; the
    ignored tuple has used up the id 2. *)
Example same_phone_and_email_is_skipped :
  bulkCreate Sample.binary Sample.quiet [Sample.same_phone_row (Some "a@x.com")]
    (Sample.world_with_lead (Some "a@x.com"))
  = ({| s3_csv := ∅; csvlogs := ∅; sqs := [];
        mysql := {| leads := [Sample.stored_lead (Some "a@x.com")];
                    auto_increment := 3; executed := 1 |} |}, inr 0).
Proof. by vm_compute. Qed.

Lemma C3_witness :
  let w := Sample.world_with_lead (Some "a@x.com") in
  let r := Sample.same_phone_row (Some "b@x.com") in
  fault Sample.quiet mysql_execute = None
  ∧ (∃ l, l ∈ leads (mysql w) ∧ Lead.phone l = phone r)
  ∧ ∃ i, leads (mysql (bulkCreate Sample.binary Sample.quiet [r] w).1)
         = leads (mysql w) ++ [new_lead i (lead_values r)].
Proof.
  cbv zeta. split; [reflexivity|]. split.
  { exists (Sample.stored_lead (Some "a@x.com")).
    split; [apply list_elem_of_here|reflexivity]. }
  destruct (C3_dedup_on_phone_and_email Sample.binary Sample.quiet []
              (Sample.same_phone_row (Some "b@x.com")) []
              (Sample.world_with_lead (Some "a@x.com")) eq_refl)
    as (_ & _ & _ & Hins).
  apply Hins. intros (l & Hl & e & e' & He & _ & He' & _ & Hee).
  cbn in Hl. apply list_elem_of_singleton in Hl as ->.
  cbn in He, He'. injection He as <-. injection He' as <-. discriminate Hee.
Defined.

(** C4: ["5551234"] matches the pattern (the plus sign is optional) and the
    row is accepted. *)
Lemma C4_5551234_is_accepted :
  test_anchored phone_pattern "5551234" = true
  ∧ row_details Sample.is_address Sample.bob = []
  ∧ rows (on_data Sample.is_address collector_init Sample.bob)
    = [ {| name := "Bob"; phone := "5551234"; email := None; source := None |} ]
  ∧ errors (on_data Sample.is_address collector_init Sample.bob) = [].
Proof. by vm_compute. Qed.

Lemma C4_witness :
  Sample.bad_phone !! "phone" = Some "++1"
  ∧ test_anchored phone_pattern "++1" = false
  ∧ ∃ det pre post,
      det ∈ row_details Sample.is_address Sample.bad_phone
      ∧ d_path det = "phone"
      ∧ starts_with (quoted "phone") (message det) = true
      ∧ on_data Sample.is_address collector_init Sample.bad_phone
        = {| rowNumber := 1; rows := [];
             errors := [ {| row := 1; data := normalize Sample.bad_phone;
                            error := pre +:+ message det +:+ post |} ] |}.
Proof.
  split; [reflexivity|]. split; [reflexivity|].
  apply (proj2 (C4_phone_pattern_enforced Sample.is_address)
           collector_init Sample.bad_phone "++1"); reflexivity.
Defined.

(** C5: the body on the queue has no member [jobId]; its members are
    [csvLogId], [s3Key] and [userId]. *)
Lemma C5_body_has_no_jobId :
  ∃ m, sqs (sendToProcessingQueue Sample.quiet Sample.job Sample.empty_world).1 = [m]
       ∧ (∀ j k u, Body m ≠ Some (JSON_stringify
                     (JObject [ ("jobId", JString j); ("storageKey", JString k);
                                ("uploaderId", JNumber u) ])))
       ∧ (∀ t body, Body m = Some t → JSON_parse t = inr body →
                  string_member "jobId" body = None
                  ∧ string_member "storageKey" body = None).
Proof.
  eexists. split; [reflexivity|]. split.
  - intros j k u. cbn. discriminate.
  - intros t body. cbn. by intros [= <-] [= <-].
Qed.

Lemma C5_witness :
  fault Sample.quiet sqs_send = None
  ∧ ∃ m body,
      sendToProcessingQueue Sample.quiet Sample.job Sample.empty_world
      = ({| s3_csv := ∅; csvlogs := ∅; sqs := [] ++ [m];
            mysql := mysql Sample.empty_world |}, inr tt)
      ∧ string_member "csvLogId" body = Some "65a000000000000000000001"
      ∧ string_member "s3Key" body = Some "csv/1700000000000-leads.csv"
      ∧ pollQueue Sample.is_address Sample.binary Sample.csv Sample.quiet
          Sample.uploaded
        = handle_message Sample.is_address Sample.binary Sample.csv Sample.quiet
            m Sample.uploaded.
Proof.
  split; [reflexivity|].
  destruct (C5_job_message_shape Sample.is_address Sample.binary Sample.csv
              Sample.quiet Sample.job Sample.empty_world)
    as (m & body & H1 & H0 & _ & _ & H2 & H3 & _ & Hpoll & _); [reflexivity|].
  exists m, body. split; [exact H1|]. split; [exact H2|]. split; [exact H3|].
  assert (sqs Sample.uploaded = [m]) as Hq.
  { transitivity
      (sqs (sendToProcessingQueue Sample.quiet Sample.job Sample.empty_world).1);
      [vm_compute; reflexivity|].
    by rewrite H1. }
  apply Hpoll; [reflexivity|]. by rewrite Hq.
Defined.

Example upload_keys_differ_with_time :
  ∀ w1' w2' id1 id2 key1 key2,
    uploadCsvForProcessing Sample.quiet Sample.leads_file 7 Sample.empty_world
    = (w1', inr (id1, key1)) →
    uploadCsvForProcessing Sample.fetch_fails Sample.leads_file 7 Sample.empty_world
    = (w2', inr (id2, key2)) →
    key1 ≠ key2.
Proof.
  intros w1' w2' id1 id2 key1 key2 H1 H2 Heq.
  by apply (upload_keys_equal_iff _ _ _ _ _ _ _ _ _ _ _ _ _ _ H1 H2) in Heq as [? _].
Qed.

(** C7: the name [" a"] has trimmed length 1, yet the row is accepted: the
    length rule is applied to the text as received. *)
Lemma C7_untrimmed_name_is_accepted :
  Sample.padded_name !! "name" = Some " a"
  ∧ String.length (trim " a") = 1
  ∧ rows (on_data Sample.is_address collector_init Sample.padded_name)
    = [ {| name := " a"; phone := "+14155551234"; email := None; source := None |} ]
  ∧ errors (on_data Sample.is_address collector_init Sample.padded_name) = [].
Proof. by vm_compute. Qed.

Lemma C7_witness :
  ¬ (∃ s, Sample.short_name !! "name" = Some s ∧ 2 ≤ String.length s ≤ 255)
  ∧ rows (on_data Sample.is_address collector_init Sample.short_name) = []
  ∧ ∃ e, errors (on_data Sample.is_address collector_init Sample.short_name) = [] ++ [e]
         ∧ row e = 1.
Proof.
  assert (¬ (∃ s, Sample.short_name !! "name" = Some s ∧ 2 ≤ String.length s ≤ 255))
    as Hbad.
  { intros (s & Hs & Hlen). vm_compute in Hs. injection Hs as <-.
    simpl in Hlen. lia. }
  split; [exact Hbad|].
  apply (proj2 (C7_name_length_untrimmed Sample.is_address collector_init
                  Sample.short_name) Hbad).
Defined.

Lemma C8_witness :
  row_details Sample.is_address Sample.alice = []
  ∧ row_details Sample.is_address Sample.short_name ≠ []
  ∧ row_details Sample.is_address Sample.bob = []
  ∧ (∃ e, errors (collect Sample.is_address
                    [Sample.alice; Sample.short_name; Sample.bob]) = [e]
          ∧ row e = 2 ∧ data e = normalize Sample.short_name)
  ∧ (∃ e, e ∈ errors (collect Sample.is_address
                        [Sample.short_name; Sample.alice; Sample.short_name])
          ∧ row e = 3 ∧ data e = normalize Sample.short_name).
Proof.
  assert (row_details Sample.is_address Sample.short_name ≠ []) as Hbad
    by (by vm_compute).
  split; [by vm_compute|]. split; [exact Hbad|]. split; [by vm_compute|].
  destruct (C8_row_number_is_data_row_index Sample.is_address)
    as (_ & Hall & _ & _ & Hthree).
  split.
  - apply Hthree; [by vm_compute|exact Hbad|by vm_compute].
  - destruct (Hall [Sample.short_name; Sample.alice; Sample.short_name] 2
                Sample.short_name eq_refl Hbad) as (e & He & Hrow & Hdata & _).
    by exists e.
Defined.

Lemma C9_witness :
  (¬ csv_compatible (mimetype Sample.big_file)
   ∨ (size Sample.big_file > 10 * 1024 * 1024)%Z)
  ∧ ∃ msg w',
      uploadCsvForProcessing Sample.quiet Sample.big_file 7 Sample.imported
      = (w', inl (ValidationError msg))
      ∧ s3_csv w' = s3_csv Sample.imported
      ∧ csvlogs w' = csvlogs Sample.imported
      ∧ sqs w' = sqs Sample.imported
      ∧ user_jobs w' 7 = user_jobs Sample.imported 7.
Proof.
  assert (size Sample.big_file > 10 * 1024 * 1024)%Z as Hbig by (by vm_compute).
  split; [by right|].
  apply (C9_rejected_upload_creates_no_state Sample.quiet Sample.big_file 7
           Sample.imported). by right.
Defined.


(** * Further properties *)

(** ** The row handler *)

Lemma delete_if_empty_nonempty key (d : record) :
  delete_if_empty key d !! key ≠ Some "".
Proof.
  unfold delete_if_empty. destruct (d !! key) as [[|a s]|] eqn:E.
  - by rewrite lookup_delete_eq.
  - by rewrite E.
  - by rewrite E.
Qed.

Lemma normalize_optional_nonempty (d : record) k :
  k = "email" ∨ k = "source" → normalize d !! k ≠ Some "".
Proof.
  unfold normalize. intros [-> | ->].
  - rewrite delete_if_empty_lookup_ne by done. apply delete_if_empty_nonempty.
  - apply delete_if_empty_nonempty.
Qed.

Lemma foldl_on_data_rows isEmail events : ∀ st r,
  r ∈ rows (foldl (on_data isEmail) st events) →
  r ∈ rows st
  ∨ ∃ d, d ∈ events ∧ row_details isEmail d = []
         ∧ r = as_CsvRow (strip_unknown csvRowSchema (normalize d)).
Proof.
  induction events as [|d rest IH]; intros st r Hr; simpl in Hr; [by left|].
  apply IH in Hr as [Hr|(d' & Hd' & Hok & ->)].
  - destruct (row_details isEmail d) as [|x l] eqn:Hd.
    + rewrite on_data_valid in Hr by done. simpl in Hr.
      apply elem_of_app in Hr as [Hr|Hr%list_elem_of_singleton]; [by left|].
      right. exists d. split; [left|done].
    + rewrite on_data_invalid in Hr by (by rewrite Hd). by left.
  - right. exists d'. split; [by right|done].
Qed.

(** X1. Every row handed to the bulk writer satisfies the schema: a name of 2
    to 255 characters, a phone that matches the pattern, an e-mail (if any)
    that is not empty and passes the address check, a source (if any) of 1 to
    100 characters. *)
Theorem collected_rows_satisfy_schema (isEmail : string → bool)
    (events : list record) (r : CsvRow) :
  r ∈ rows (collect isEmail events) →
  2 ≤ String.length (name r) ≤ 255
  ∧ test_anchored phone_pattern (phone r) = true
  ∧ (∀ e, email r = Some e → e ≠ "" ∧ isEmail e = true)
  ∧ (∀ s, source r = Some s → 1 ≤ String.length s ≤ 100).
Proof.
  intros [Hr|(d & _ & Hok & ->)]%foldl_on_data_rows; [by apply elem_of_nil in Hr|].
  destruct (validate_ok_fields isEmail d Hok) as (n & p & _ & _ & Hn & Hp & ->).
  cbn [name phone email source].
  split; [done|]. split; [done|].
  unfold row_details in Hok. rewrite validate_csvRowSchema in Hok.
  apply app_eq_nil in Hok as [_ Hok]. apply app_eq_nil in Hok as [_ Hok].
  apply app_eq_nil in Hok as [He Hs].
  pose proof (normalize_optional_nonempty d "email" (or_introl eq_refl)) as Hne.
  pose proof (normalize_optional_nonempty d "source" (or_intror eq_refl)) as Hns.
  split.
  - intros e Hv. rewrite Hv in He, Hne.
    destruct e as [|a e]; [done|]. split; [done|].
    cbn in He. by destruct (isEmail (String a e)).
  - intros s Hv. rewrite Hv in Hs, Hns.
    destruct s as [|a s]; [done|]. cbn -[Nat.ltb] in Hs.
    destruct (Nat.ltb_spec 100 (S (String.length s))) as [?|Hle]; [done|].
    cbn [String.length]. lia.
Qed.

Lemma collected_rows_satisfy_schema_witness :
  SampleLeads.alice_row
    ∈ rows (collect Sample.is_address [Sample.alice; Sample.short_name])
  ∧ 2 ≤ String.length (name SampleLeads.alice_row) ≤ 255
  ∧ test_anchored phone_pattern (phone SampleLeads.alice_row) = true.
Proof.
  assert (SampleLeads.alice_row
            ∈ rows (collect Sample.is_address [Sample.alice; Sample.short_name]))
    as Hin.
  { replace (rows (collect Sample.is_address [Sample.alice; Sample.short_name]))
      with [SampleLeads.alice_row] by (vm_compute; reflexivity).
    apply list_elem_of_here. }
  split; [exact Hin|].
  destruct (collected_rows_satisfy_schema Sample.is_address
              [Sample.alice; Sample.short_name] SampleLeads.alice_row Hin)
    as (H1 & H2 & _).
  by split.
Defined.

(** X2. The recorded errors come in file order with strictly increasing row
    numbers between 1 and the number of data rows, and every data row is
    counted once, as a valid row or as an error. *)
Theorem errors_numbered_in_file_order (isEmail : string → bool)
    (events : list record) :
  (∀ i j ei ej,
     errors (collect isEmail events) !! i = Some ei →
     errors (collect isEmail events) !! j = Some ej →
     i < j → row ei < row ej)
  ∧ (∀ e, e ∈ errors (collect isEmail events) → 1 ≤ row e ≤ length events)
  ∧ length (rows (collect isEmail events))
    + length (errors (collect isEmail events)) = length events.
Proof.
  split; [|split].
  - rewrite collect_errors. apply numbered_errors_increasing.
  - rewrite collect_errors. intros e ?%numbered_errors_bounds. lia.
  - apply collect_total.
Qed.

Lemma name_rejected_detail isEmail (v : option string) :
  validate_key isEmail "name" name_schema v ≠ [] →
  ∃ dn, validate_key isEmail "name" name_schema v = [dn] ∧ d_path dn = "name".
Proof.
  unfold validate_key, name_schema; cbn -[Nat.ltb]. destruct v as [s|]; [|by eexists].
  destruct s as [|a s]; cbn -[Nat.ltb]; [by eexists|].
  destruct (Nat.ltb_spec (S (String.length s)) 2);
    destruct (Nat.ltb_spec 255 (S (String.length s))); cbn; try lia;
    try done; by eexists.
Qed.

Lemma phone_rejected_detail isEmail (v : option string) :
  validate_key isEmail "phone" phone_schema v ≠ [] →
  ∃ dp, validate_key isEmail "phone" phone_schema v = [dp] ∧ d_path dp = "phone".
Proof.
  destruct v as [p|]; [|by eexists].
  destruct (test_anchored phone_pattern p) eqn:Ht.
  - intros H. exfalso. apply H. apply phone_accepted. by exists p.
  - intros _. by apply phone_detail.
Qed.

(** X3. A row whose name and whose phone are both refused gets one error entry
    (and no [CsvRow]); its text starts with the name message, followed by
    the phone message, joined by a comma: the fields fail together. *)
Theorem row_errors_reported_together (isEmail : string → bool)
    (st : collector) (d : record) :
  ¬ (∃ s, d !! "name" = Some s ∧ 2 ≤ String.length s ≤ 255) →
  ¬ (∃ p, d !! "phone" = Some p ∧ test_anchored phone_pattern p = true) →
  ∃ dn dp more,
    d_path dn = "name" ∧ d_path dp = "phone"
    ∧ rows (on_data isEmail st d) = rows st
    ∧ errors (on_data isEmail st d)
      = errors st ++
        [ {| row := S (rowNumber st); data := normalize d;
             error := join ", " (message dn :: message dp :: more) |} ].
Proof.
  intros Hn Hp.
  rewrite <- (name_accepted isEmail) in Hn. rewrite <- (phone_accepted isEmail) in Hp.
  apply name_rejected_detail in Hn as (dn & Hn & Hpn).
  apply phone_rejected_detail in Hp as (dp & Hp & Hpp).
  assert (∃ more, row_details isEmail d = dn :: dp :: more) as [more Hd].
  { unfold row_details. rewrite validate_csvRowSchema.
    rewrite (normalize_lookup "name"), (normalize_lookup "phone") by done.
    rewrite Hn, Hp. by eexists. }
  exists dn, dp, (message <$> more).
  rewrite on_data_invalid by (by rewrite Hd). by rewrite Hd.
Qed.

Lemma row_errors_reported_together_witness :
  ¬ (∃ s, SampleLeads.both_bad !! "name" = Some s ∧ 2 ≤ String.length s ≤ 255)
  ∧ ¬ (∃ p, SampleLeads.both_bad !! "phone" = Some p
            ∧ test_anchored phone_pattern p = true)
  ∧ ∃ dn dp more,
      d_path dn = "name" ∧ d_path dp = "phone"
      ∧ errors (on_data Sample.is_address collector_init SampleLeads.both_bad)
        = [] ++
          [ {| row := 1; data := normalize SampleLeads.both_bad;
               error := join ", " (message dn :: message dp :: more) |} ].
Proof.
  assert (¬ (∃ s, SampleLeads.both_bad !! "name" = Some s ∧ 2 ≤ String.length s ≤ 255))
    as Hn.
  { intros (s & Hs & Hlen). vm_compute in Hs. injection Hs as <-.
    simpl in Hlen. lia. }
  assert (¬ (∃ p, SampleLeads.both_bad !! "phone" = Some p
                  ∧ test_anchored phone_pattern p = true)) as Hp.
  { intros (p & Hp & Ht). vm_compute in Hp. injection Hp as <-.
    vm_compute in Ht. discriminate Ht. }
  split; [exact Hn|]. split; [exact Hp|].
  destruct (row_errors_reported_together Sample.is_address collector_init
              SampleLeads.both_bad Hn Hp) as (dn & dp & more & H1 & H2 & _ & H3).
  by exists dn, dp, more.
Defined.

Lemma delete_if_empty_delete key (d : record) :
  delete_if_empty key (delete key d) = delete key d.
Proof. unfold delete_if_empty. by rewrite lookup_delete_eq. Qed.

Lemma delete_if_empty_hit key (d : record) :
  d !! key = Some "" → delete_if_empty key d = delete key d.
Proof. unfold delete_if_empty. by intros ->. Qed.

Lemma delete_if_empty_delete_ne key k (d : record) :
  key ≠ k → delete_if_empty key (delete k d) = delete k (delete_if_empty key d).
Proof.
  intros Hne. unfold delete_if_empty. rewrite lookup_delete_ne by done.
  destruct (d !! key) as [[|??]|]; try done. apply delete_delete.
Qed.

Lemma normalize_delete_empty (d : record) k :
  k = "email" ∨ k = "source" → d !! k = Some "" →
  normalize (delete k d) = normalize d.
Proof.
  unfold normalize. intros [-> | ->] Hk.
  - by rewrite delete_if_empty_delete, (delete_if_empty_hit "email" d).
  - rewrite delete_if_empty_delete_ne by done.
    rewrite delete_if_empty_delete. symmetry. apply delete_if_empty_hit.
    by rewrite delete_if_empty_lookup_ne.
Qed.

(** X4. An optional field that is present but empty counts as absent: it is
    removed before validation, and the handler treats the record exactly as
    the record without that field. *)
Theorem empty_optional_field_is_absent (isEmail : string → bool)
    (st : collector) (d : record) (k : string) :
  k = "email" ∨ k = "source" →
  d !! k = Some "" →
  normalize d !! k = None
  ∧ on_data isEmail st d = on_data isEmail st (delete k d).
Proof.
  intros Hk Hempty. split.
  - unfold normalize. destruct Hk as [-> | ->].
    + rewrite delete_if_empty_lookup_ne by done.
      rewrite delete_if_empty_hit by done. apply lookup_delete_eq.
    + rewrite delete_if_empty_hit; [apply lookup_delete_eq|].
      by rewrite delete_if_empty_lookup_ne.
  - unfold on_data. by rewrite (normalize_delete_empty d k).
Qed.

Lemma empty_optional_field_is_absent_witness :
  Sample.short_name !! "email" = Some ""
  ∧ normalize Sample.short_name !! "email" = None
  ∧ on_data Sample.is_address collector_init Sample.short_name
    = on_data Sample.is_address collector_init (delete "email" Sample.short_name).
Proof.
  split; [reflexivity|].
  apply (empty_optional_field_is_absent Sample.is_address collector_init
           Sample.short_name "email"); [by left|reflexivity].
Defined.

Lemma delete_if_empty_insert_ne key k v (d : record) :
  key ≠ k → delete_if_empty key (<[k:=v]> d) = <[k:=v]> (delete_if_empty key d).
Proof.
  intros Hne. unfold delete_if_empty. rewrite lookup_insert_ne by done.
  destruct (d !! key) as [[|??]|]; try done. by apply delete_insert_ne.
Qed.

Lemma normalize_insert_unknown k v (d : record) :
  k ∉ csvRowSchema.*1 → normalize (<[k:=v]> d) = <[k:=v]> (normalize d).
Proof.
  intros Hk. unfold normalize.
  assert ("email" ≠ k ∧ "source" ≠ k) as [??].
  { split; intros <-; apply Hk; cbn;
      repeat first [apply list_elem_of_here | apply list_elem_of_further]. }
  by rewrite !delete_if_empty_insert_ne.
Qed.

(** X5. A field outside the schema changes nothing but the raw data kept with
    an error: the same details are reported and the same row is produced. *)
Theorem unknown_field_is_dropped (isEmail : string → bool)
    (st : collector) (d : record) (k v : string) :
  k ∉ csvRowSchema.*1 →
  row_details isEmail (<[k:=v]> d) = row_details isEmail d
  ∧ rows (on_data isEmail st (<[k:=v]> d)) = rows (on_data isEmail st d)
  ∧ error <$> errors (on_data isEmail st (<[k:=v]> d))
    = error <$> errors (on_data isEmail st d)
  ∧ row <$> errors (on_data isEmail st (<[k:=v]> d))
    = row <$> errors (on_data isEmail st d).
Proof.
  intros Hk.
  assert (∀ key, key ∈ csvRowSchema.*1 →
            <[k:=v]> (normalize d) !! key = normalize d !! key) as Hlook.
  { intros key Hkey. apply lookup_insert_ne. by intros ->. }
  assert (row_details isEmail (<[k:=v]> d) = row_details isEmail d) as Hd.
  { unfold row_details. rewrite normalize_insert_unknown by done.
    rewrite !validate_csvRowSchema.
    rewrite !Hlook
      by (cbn; repeat first [apply list_elem_of_here | apply list_elem_of_further]).
    done. }
  split; [done|].
  destruct (row_details isEmail d) as [|x l] eqn:Hdet.
  - rewrite !on_data_valid by (by rewrite ?Hd). cbn.
    rewrite normalize_insert_unknown by done.
    split; [|done]. do 2 f_equal. unfold as_CsvRow.
    rewrite !strip_unknown_lookup
      by (cbn; repeat first [apply list_elem_of_here | apply list_elem_of_further]).
    rewrite !Hlook
      by (cbn; repeat first [apply list_elem_of_here | apply list_elem_of_further]).
    done.
  - rewrite !on_data_invalid by (by rewrite ?Hd, ?Hdet). cbn [rows errors].
    rewrite Hd, Hdet, !fmap_app. done.
Qed.

Lemma unknown_field_is_dropped_witness :
  ("notes" ∉ csvRowSchema.*1)
  ∧ row_details Sample.is_address (<["notes" := "call back"]> Sample.bad_phone)
    = row_details Sample.is_address Sample.bad_phone
  ∧ error <$> errors (on_data Sample.is_address collector_init
                        (<["notes" := "call back"]> Sample.bad_phone))
    = error <$> errors (on_data Sample.is_address collector_init Sample.bad_phone).
Proof.
  assert ("notes" ∉ csvRowSchema.*1) as Hk.
  { intros H. cbn in H.
    repeat (apply elem_of_cons in H as [H|H]; [discriminate H|]).
    by apply elem_of_nil in H. }
  split; [exact Hk|].
  destruct (unknown_field_is_dropped Sample.is_address collector_init
              Sample.bad_phone "notes" "call back" Hk) as (H1 & _ & H2 & _).
  by split.
Defined.

(** ** The bulk writer, continued *)

Lemma same_key_refl collate k e : k.2 = Some e → same_key collate k k = true.
Proof.
  unfold same_key. intros ->. by rewrite !bool_decide_eq_true_2.
Qed.

Lemma same_key_sym collate k k' : same_key collate k k' = same_key collate k' k.
Proof.
  unfold same_key. destruct (k.2), (k'.2); try done.
  f_equal; apply bool_decide_ext; split; by intros ->.
Qed.

Lemma kept_keys_present collate vs : ∀ stored v e,
  v ∈ vs → v_email v = Some e →
  existsb (same_key collate (values_key v))
    (stored ++ (values_key <$> kept collate stored vs)) = true.
Proof.
  induction vs as [|x vs IH]; intros stored v e Hv He; [by apply elem_of_nil in Hv|].
  cbn [kept]. apply elem_of_cons in Hv as [->|Hv].
  - destruct (existsb (same_key collate (values_key x)) stored) eqn:Hx.
    + rewrite existsb_app, Hx. done.
    + rewrite existsb_app. cbn [fmap list_fmap existsb].
      rewrite (same_key_refl collate (values_key x) e) by done.
      by rewrite orb_true_r.
  - destruct (existsb (same_key collate (values_key x)) stored).
    + by apply (IH stored v e).
    + cbn [fmap list_fmap].
      replace (stored ++ values_key x :: (values_key <$> kept collate (stored ++ [values_key x]) vs))
        with ((stored ++ [values_key x])
              ++ (values_key <$> kept collate (stored ++ [values_key x]) vs))
        by (by rewrite <- app_assoc).
      by apply (IH _ v e).
Qed.

Lemma kept_nil_when_present collate stored vs :
  (∀ v, v ∈ vs → existsb (same_key collate (values_key v)) stored = true) →
  kept collate stored vs = [].
Proof.
  induction vs as [|x vs IH]; intros H; [done|]. cbn [kept].
  rewrite H by left. apply IH. intros v Hv. apply H. by right.
Qed.

(** X6. Importing the same batch a second time inserts nothing when every row
    carries an e-mail: the second call returns 0 and leaves the table as the
    first call left it. *)
Theorem bulkCreate_again_inserts_nothing (collate : string → string)
    (env1 env2 : Env) (batch : list CsvRow) (w : World) :
  (∀ r, r ∈ batch → ∃ e, email r = Some e ∧ e ≠ "") →
  fault env1 mysql_execute = None →
  fault env2 mysql_execute = None →
  let w1 := (bulkCreate collate env1 batch w).1 in
  (bulkCreate collate env2 batch w1).2 = inr 0
  ∧ leads (mysql (bulkCreate collate env2 batch w1).1) = leads (mysql w1).
Proof.
  intros Hmail Hf1 Hf2. destruct batch as [|r0 batch'] eqn:Hb; [done|].
  rewrite <- Hb in *. assert (batch ≠ []) as Hne by (by rewrite Hb).
  cbn zeta. rewrite (bulkCreate_run collate env1) by done. cbn zeta. cbn [fst].
  rewrite (bulkCreate_run collate env2) by done. cbn zeta. cbn [fst snd mysql leads].
  set (stored := lead_key <$> leads (mysql w)).
  assert (kept collate
            (lead_key <$> leads (mysql w)
                          ++ appended collate (mysql w) (lead_values <$> batch))
            (lead_values <$> batch) = []) as Hnone.
  { apply kept_nil_when_present. intros v Hv.
    rewrite fmap_app, lead_key_appended.
    apply list_elem_of_fmap in Hv as (r & -> & Hr).
    destruct (Hmail r Hr) as (e & He & Hne').
    apply (kept_keys_present collate _ stored _ e).
    - apply list_elem_of_fmap. by exists r.
    - cbn. rewrite He. by destruct e. }
  rewrite Hnone. split; [done|].
  match goal with
  | |- _ ++ ?added = _ => assert (added = []) as ->; [|by rewrite app_nil_r]
  end.
  apply nil_length_inv. rewrite appended_length. cbn [leads]. by rewrite Hnone.
Qed.

Lemma bulkCreate_again_inserts_nothing_witness :
  let batch := [Sample.same_phone_row (Some "b@x.com")] in
  let w1 := (bulkCreate Sample.binary Sample.quiet batch Sample.empty_world).1 in
  (∀ r, r ∈ batch → ∃ e, email r = Some e ∧ e ≠ "")
  ∧ length (leads (mysql w1)) = 1
  ∧ (bulkCreate Sample.binary Sample.next_day batch w1).2 = inr 0
  ∧ leads (mysql (bulkCreate Sample.binary Sample.next_day batch w1).1)
    = leads (mysql w1).
Proof.
  cbv zeta.
  assert (∀ r, r ∈ [Sample.same_phone_row (Some "b@x.com")] →
               ∃ e, email r = Some e ∧ e ≠ "") as Hmail.
  { intros r Hr. apply list_elem_of_singleton in Hr as ->. by exists "b@x.com". }
  split; [exact Hmail|]. split; [reflexivity|].
  apply (bulkCreate_again_inserts_nothing Sample.binary Sample.quiet Sample.next_day
           [Sample.same_phone_row (Some "b@x.com")] Sample.empty_world Hmail);
    reflexivity.
Defined.

Lemma new_lead_ids ids vs :
  length ids = length vs → Lead.id <$> zip_with new_lead ids vs = ids.
Proof.
  revert ids. induction vs as [|v vs IH]; intros [|i ids] Hlen; simpl in *;
    try done. f_equal. apply IH. lia.
Qed.

(** X7. The bulk writer keeps the primary key sound: ids stay pairwise distinct
    and below the AUTO_INCREMENT counter, whatever the outcome of the call. *)
Theorem bulkCreate_keeps_ids_fresh (collate : string → string) (env : Env)
    (batch : list CsvRow) (w : World) :
  ids_fresh (mysql w) →
  ids_fresh (mysql (bulkCreate collate env batch w).1).
Proof.
  intros [Hnd Hlt]. destruct batch as [|r0 batch'] eqn:Hb; [done|].
  rewrite <- Hb in *. assert (batch ≠ []) as Hne by (by rewrite Hb).
  destruct (fault env mysql_execute) as [msg|] eqn:Hf.
  { by rewrite (bulkCreate_fault _ _ _ _ msg). }
  rewrite bulkCreate_run by done. cbn zeta. cbn [fst mysql].
  unfold ids_fresh, appended. cbn [leads auto_increment]. cbn zeta.
  set (stored := lead_key <$> leads (mysql w)).
  set (ids := kept_ids collate stored (auto_increment (mysql w)) (lead_values <$> batch)).
  set (k := kept collate stored (lead_values <$> batch)).
  assert (Lead.id <$> zip_with new_lead ids k = ids) as Hids.
  { apply new_lead_ids, kept_ids_length. }
  assert (∀ i, i ∈ ids →
            auto_increment (mysql w) ≤ i < auto_increment (mysql w) + length batch)
    as Hbounds.
  { intros i Hi. apply kept_ids_bounds in Hi. by rewrite length_fmap in Hi. }
  split.
  - rewrite fmap_app, Hids.
    apply NoDup_app. split; [done|]. split; [|apply kept_ids_NoDup].
    intros i Hi Hnew. apply Hbounds in Hnew.
    apply list_elem_of_fmap in Hi as (l & -> & Hl).
    rewrite Forall_forall in Hlt. specialize (Hlt l Hl). lia.
  - apply Forall_app. split.
    + eapply Forall_impl; [exact Hlt|]. simpl. intros l ?. lia.
    + apply Forall_forall. intros l Hl.
      assert (Lead.id l ∈ Lead.id <$> zip_with new_lead ids k) as Hid.
      { apply list_elem_of_fmap. by exists l. }
      rewrite Hids in Hid. apply Hbounds in Hid. lia.
Qed.

Lemma bulkCreate_keeps_ids_fresh_witness :
  ids_fresh (mysql (Sample.world_with_lead None))
  ∧ ids_fresh (mysql (bulkCreate Sample.binary Sample.quiet
                        [Sample.same_phone_row None]
                        (Sample.world_with_lead None)).1).
Proof.
  assert (ids_fresh (mysql (Sample.world_with_lead None))) as Hf.
  { split; cbn.
    - apply NoDup_singleton.
    - repeat constructor. }
  split; [exact Hf|].
  apply (bulkCreate_keeps_ids_fresh Sample.binary Sample.quiet
           [Sample.same_phone_row None] (Sample.world_with_lead None) Hf).
Defined.

Lemma unique_key_snoc collate tbl l :
  unique_key_holds collate tbl →
  existsb (λ l', same_key collate (lead_key l) (lead_key l')) tbl = false →
  unique_key_holds collate (tbl ++ [l]).
Proof.
  intros Hu Hnew i j li lj Hi Hj Hij.
  assert (∀ l', l' ∈ tbl → same_key collate (lead_key l) (lead_key l') = false) as Hl.
  { intros l' Hl'. destruct (same_key collate (lead_key l) (lead_key l')) eqn:E; [|done].
    rewrite <- Hnew. symmetry. apply existsb_exists. exists l'.
    split; [by apply list_elem_of_In|done]. }
  apply lookup_app_Some in Hi as [Hi|[Hi1 Hi2]];
    apply lookup_app_Some in Hj as [Hj|[Hj1 Hj2]].
  - by apply (Hu i j).
  - apply list_lookup_singleton_Some in Hj2 as [_ <-].
    rewrite same_key_sym. apply Hl. by eapply list_elem_of_lookup_2.
  - apply list_lookup_singleton_Some in Hi2 as [_ <-].
    apply Hl. by eapply list_elem_of_lookup_2.
  - apply list_lookup_singleton_Some in Hi2 as [? _].
    apply list_lookup_singleton_Some in Hj2 as [? _]. lia.
Qed.

Lemma foldl_insert_ignore_unique collate vs : ∀ st,
  unique_key_holds collate (leads st.1) →
  unique_key_holds collate (leads (foldl (insert_ignore_one collate) st vs).1).
Proof.
  induction vs as [|v vs IH]; intros st Hu; [done|]. cbn [foldl]. apply IH.
  unfold insert_ignore_one.
  destruct (duplicate_entry collate (leads st.1) v) eqn:Hd; [done|].
  cbn [fst leads]. by apply unique_key_snoc.
Qed.

(** X8. The bulk writer never makes the table violate its unique key: if no two
    stored rows collide on (phone, email) before the call, none do after
    it. *)
Theorem bulkCreate_keeps_unique_key (collate : string → string) (env : Env)
    (batch : list CsvRow) (w : World) :
  unique_key_holds collate (leads (mysql w)) →
  unique_key_holds collate (leads (mysql (bulkCreate collate env batch w).1)).
Proof.
  intros Hu. unfold bulkCreate.
  destruct (decide (length batch = 0)); [done|].
  unfold bind, await. destruct (fault env mysql_execute); [done|].
  cbn. by apply (foldl_insert_ignore_unique collate _ (mysql w, 0)).
Qed.

Lemma bulkCreate_keeps_unique_key_witness :
  unique_key_holds Sample.binary (leads (mysql (Sample.world_with_lead (Some "a@x.com"))))
  ∧ unique_key_holds Sample.binary
      (leads (mysql (bulkCreate Sample.binary Sample.quiet
                       [Sample.same_phone_row (Some "a@x.com");
                        Sample.same_phone_row (Some "b@x.com")]
                       (Sample.world_with_lead (Some "a@x.com"))).1)).
Proof.
  assert (unique_key_holds Sample.binary
            (leads (mysql (Sample.world_with_lead (Some "a@x.com"))))) as Hu.
  { intros [|i] [|j] li lj Hi Hj Hij; try done. }
  split; [exact Hu|].
  apply (bulkCreate_keeps_unique_key Sample.binary Sample.quiet _
           (Sample.world_with_lead (Some "a@x.com")) Hu).
Defined.

(** ** Storage keys *)

Lemma replace_spaces_from_clean b s :
  all_chars (λ c, negb (is_space c)) (replace_spaces_from b s) = true.
Proof.
  revert b. induction s as [|c s IH]; intros b; simpl; [done|].
  destruct (is_space c) eqn:Hc.
  - destruct b; simpl; by rewrite ?IH.
  - simpl. by rewrite Hc, IH.
Qed.

Lemma replace_spaces_from_id b s :
  all_chars (λ c, negb (is_space c)) s = true → replace_spaces_from b s = s.
Proof.
  revert b. induction s as [|c s IH]; intros b; simpl; [done|].
  intros [Hc Hs]%andb_true_iff. apply negb_true_iff in Hc. rewrite Hc.
  by rewrite IH.
Qed.

(** X9. The sanitized file name contains no white space, is never longer than
    the original, and sanitizing it again changes nothing. *)
Theorem replace_spaces_removes_white_space (s : string) :
  all_chars (λ c, negb (is_space c)) (replace_spaces s) = true
  ∧ String.length (replace_spaces s) ≤ String.length s
  ∧ replace_spaces (replace_spaces s) = replace_spaces s.
Proof.
  split; [apply replace_spaces_from_clean|]. split.
  - unfold replace_spaces. generalize false.
    induction s as [|c s IH]; intros b; simpl; [done|].
    destruct (is_space c); [destruct b|]; simpl;
      [specialize (IH true)|specialize (IH true)|specialize (IH false)]; lia.
  - apply replace_spaces_from_id, replace_spaces_from_clean.
Qed.

(** ** Uploads *)

(** The status document an upload creates. *)
Lemma upload_success env file uid w w' oid key :
  uploadCsvForProcessing env file uid w = (w', inr (oid, key)) →
  oid = new_oid env
  ∧ key = csv_key (now env) (originalname file)
  ∧ csvlogs w !! oid = None
  ∧ s3_csv w' = <[key := buffer file]> (s3_csv w)
  ∧ mysql w' = mysql w
  ∧ (∃ doc, csvlogs w' = <[oid := doc]> (csvlogs w)
            ∧ CsvLog.file_name doc = originalname file
            ∧ CsvLog.s3_key doc = key
            ∧ CsvLog.upload_user_id doc = uid
            ∧ CsvLog.status doc = pending
            ∧ CsvLog.total_rows doc = 0
            ∧ CsvLog.successful_imports doc = 0
            ∧ CsvLog.failed_imports doc = 0
            ∧ CsvLog.validation_errors doc = [])
  ∧ (∃ m, sqs w' = sqs w ++ [m]
          ∧ ReceiptHandle m = new_handle env
          ∧ Body m = Some (JSON_stringify
                             (JobData_json {| csvLogId := oid; s3Key := key;
                                              userId := uid |}))).
Proof.
  intros Hrun.
  cbv [uploadCsvForProcessing generateCsvUploadUrl uploadBuffer CsvLog_create
       sendToProcessingQueue bind await get ret throw set_csvlogs set_sqs modify]
    in Hrun.
  repeat (case_match; simplify_eq/=; try done).
  repeat split; try done; eexists; repeat split; done.
Qed.

(** X10. Reading a job right after its upload, by the identifier the upload
    returned, gives a pending job with zero counters and an empty error
    list.  A text that is an ObjectId of no document is answered with the
    [ValidationError] "CSV log not found" when the query itself goes
    through, and with the error of the query otherwise; a text that is no
    ObjectId is answered with the CastError of the driver, not with a
    [ValidationError].  No read changes anything. *)
Theorem status_after_upload (cast : string → option string) (env : Env)
    (file : MulterFile) (uid : Z) (w w' : World) (oid key : string) :
  uploadCsvForProcessing env file uid w = (w', inr (oid, key)) →
  cast oid = Some oid →
  (∃ view,
     getCsvStatus cast None oid w' = (w', inr view)
     ∧ StatusView.id view = oid
     ∧ StatusView.file_name view = originalname file
     ∧ StatusView.status view = pending
     ∧ StatusView.total_rows view = 0
     ∧ StatusView.successful_imports view = 0
     ∧ StatusView.failed_imports view = 0
     ∧ StatusView.validation_errors view = Some [])
  ∧ (∀ other o failure,
       cast other = Some o → csvlogs w' !! o = None →
       getCsvStatus cast failure other w'
       = (w', inl match failure with
                  | Some msg => Error msg
                  | None => ValidationError "CSV log not found"
                  end))
  ∧ (∀ other failure,
       cast other = None →
       getCsvStatus cast failure other w'
       = (w', inl (Error (cast_error other)))).
Proof.
  intros (_ & _ & _ & _ & _ & (doc & Hlogs & Hf & _ & _ & Hs & Ht & Hsi & Hfi & Hv) & _)%upload_success
    Hcast.
  split; [|split].
  - unfold getCsvStatus, CsvLog_findById, bind, get, ret.
    rewrite Hcast, Hlogs, lookup_insert_eq. eexists. split; [reflexivity|].
    cbn. by rewrite Hf, Hs, Ht, Hsi, Hfi, Hv.
  - intros other o failure Ho Hother.
    unfold getCsvStatus, CsvLog_findById, bind, get, ret, throw. rewrite Ho.
    destruct failure; [done|]. by rewrite Hother.
  - intros other failure Ho.
    unfold getCsvStatus, CsvLog_findById, bind, throw. by rewrite Ho.
Qed.

Lemma status_after_upload_witness :
  uploadCsvForProcessing Sample.quiet Sample.leads_file 7 Sample.empty_world
  = (Sample.uploaded, inr ("65a000000000000000000001", "csv/1700000000000-leads.csv"))
  ∧ SampleLeads.object_id "65a000000000000000000001"
    = Some "65a000000000000000000001"
  ∧ (∃ view,
       getCsvStatus SampleLeads.object_id None "65a000000000000000000001"
         Sample.uploaded
       = (Sample.uploaded, inr view)
       ∧ StatusView.file_name view = "leads.csv"
       ∧ StatusView.status view = pending)
  ∧ getCsvStatus SampleLeads.object_id None "65A000000000000000000002"
      Sample.uploaded
    = (Sample.uploaded, inl (ValidationError "CSV log not found"))
  ∧ getCsvStatus SampleLeads.object_id None "leads" Sample.uploaded
    = (Sample.uploaded, inl (Error (cast_error "leads"))).
Proof.
  assert (uploadCsvForProcessing Sample.quiet Sample.leads_file 7 Sample.empty_world
          = (Sample.uploaded,
             inr ("65a000000000000000000001", "csv/1700000000000-leads.csv"))) as Hup.
  { vm_compute. reflexivity. }
  assert (SampleLeads.object_id "65a000000000000000000001"
          = Some "65a000000000000000000001") as Hcast by reflexivity.
  split; [exact Hup|]. split; [exact Hcast|].
  destruct (status_after_upload SampleLeads.object_id _ _ _ _ _ _ _ Hup Hcast)
    as ((view & H1 & _ & H2 & H3 & _) & Hnone & Hbad).
  split; [exists view; exact (conj H1 (conj H2 H3))|]. split.
  - apply (Hnone "65A000000000000000000002" "65a000000000000000000002" None).
    + reflexivity.
    + vm_compute. reflexivity.
  - apply (Hbad "leads" None). reflexivity.
Defined.

(** X11. An upload that throws never leaves a message on the queue and never
    touches the leads. It leaves a status document behind in one case only:
    when the document was created and sending the message failed; that job
    stays [pending] with nothing to start it. *)
Theorem failed_upload_never_enqueues (env : Env) (file : MulterFile) (uid : Z)
    (w w' : World) (e : exn) :
  uploadCsvForProcessing env file uid w = (w', inl e) →
  sqs w' = sqs w
  ∧ mysql w' = mysql w
  ∧ (csvlogs w' = csvlogs w
     ∨ ∃ doc msg,
         csvlogs w !! new_oid env = None
         ∧ csvlogs w' = <[new_oid env := doc]> (csvlogs w)
         ∧ CsvLog.status doc = pending
         ∧ fault env sqs_send = Some msg
         ∧ e = Error msg).
Proof.
  intros Hrun.
  cbv [uploadCsvForProcessing generateCsvUploadUrl uploadBuffer CsvLog_create
       sendToProcessingQueue bind await get ret throw set_csvlogs set_sqs modify]
    in Hrun.
  repeat (case_match; simplify_eq/=; try done);
    (split; [done|]; split; [done|]); try (by left).
  right. eexists _, _. repeat split; done.
Qed.

Lemma failed_upload_never_enqueues_witness :
  let run := uploadCsvForProcessing SampleLeads.send_fails Sample.leads_file 7
               Sample.imported in
  run = (run.1, inl (Error "queue down"))
  ∧ sqs run.1 = sqs Sample.imported
  ∧ mysql run.1 = mysql Sample.imported.
Proof.
  cbv zeta.
  assert (uploadCsvForProcessing SampleLeads.send_fails Sample.leads_file 7
            Sample.imported
          = ((uploadCsvForProcessing SampleLeads.send_fails Sample.leads_file 7
                Sample.imported).1, inl (Error "queue down"))) as Hrun.
  { vm_compute. reflexivity. }
  split; [exact Hrun|].
  destruct (failed_upload_never_enqueues _ _ _ _ _ _ Hrun) as (H1 & H2 & _).
  exact (conj H1 H2).
Defined.

(** X12. Behind the route, the checks of the service never fire: a file the
    multer gate lets through is never refused with a [ValidationError]. *)
Theorem multer_gate_covers_service_checks (env : Env) (file f : MulterFile)
    (uid : Z) (w : World) (msg : string) :
  multer_single file = inr f →
  (uploadCsvForProcessing env f uid w).2 ≠ inl (ValidationError msg).
Proof.
  unfold multer_single. intros Hgate.
  destruct (decide (mimetype file = "text/csv")) as [Hm|]; [|done].
  destruct (decide (size file > max_file_size)%Z) as [|Hs]; [done|].
  injection Hgate as <-.
  cbv [uploadCsvForProcessing generateCsvUploadUrl uploadBuffer CsvLog_create
       sendToProcessingQueue bind await get ret throw set_csvlogs set_sqs modify].
  rewrite Hm. rewrite (bool_decide_eq_false_2 (size file > max_file_size)%Z) by done.
  cbn [bool_decide andb].
  repeat (case_match; simplify_eq/=; try done).
Qed.

Lemma multer_gate_covers_service_checks_witness :
  multer_single Sample.leads_file = inr Sample.leads_file
  ∧ (uploadCsvForProcessing Sample.quiet Sample.leads_file 7 Sample.empty_world).2
    ≠ inl (ValidationError "File size exceeds 10MB limit").
Proof.
  split; [reflexivity|].
  apply (multer_gate_covers_service_checks Sample.quiet Sample.leads_file
           Sample.leads_file 7 Sample.empty_world). reflexivity.
Defined.

(** ** The worker *)

Lemma bulkCreate_frame collate env batch w :
  let r := bulkCreate collate env batch w in
  s3_csv r.1 = s3_csv w ∧ csvlogs r.1 = csvlogs w ∧ sqs r.1 = sqs w
  ∧ leads (mysql w) `prefix_of` leads (mysql r.1)
  ∧ (∀ e, r.2 = inl e → ∃ msg, fault env mysql_execute = Some msg ∧ e = Error msg)
  ∧ (∀ n, r.2 = inr n → n ≤ length batch
                         ∧ length (leads (mysql r.1)) = length (leads (mysql w)) + n).
Proof.
  cbn zeta. destruct batch as [|r0 batch'] eqn:Hb.
  { cbn. do 4 (split; [done|]). split; [done|]. intros m [= <-]. simpl. lia. }
  rewrite <- Hb. assert (batch ≠ []) as Hne by (by rewrite Hb).
  destruct (fault env mysql_execute) as [msg|] eqn:Hf.
  - rewrite (bulkCreate_fault _ _ _ _ msg) by done. cbn.
    do 4 (split; [done|]). split; [|done]. intros e [= <-]. by exists msg.
  - rewrite bulkCreate_run by done. cbn.
    do 3 (split; [done|]). split; [by apply prefix_app_r|]. split; [done|].
    intros m [= <-]. split.
    + etrans; [apply kept_length|]. by rewrite length_fmap.
    + rewrite length_app, appended_length. lia.
Qed.

Lemma process_frame_refl w : process_frame w w.
Proof. by repeat split. Qed.

Lemma keeps_frame_updateOne w0 env c _id set :
  keeps (process_frame w0) (CsvLog_updateOne env c _id set).
Proof.
  unfold CsvLog_updateOne. keeps_step; [keeps_step|].
  assert (∀ i, keeps (process_frame w0) (set_csvlogs (alter set i))) as Halter.
  { intros i. apply keeps_modify. intros w (?&?&Hd&?). repeat split; try done.
    cbn. by rewrite dom_alter_L. }
  destruct _id as [i|]; [apply Halter|].
  destruct (undefined_id env); [apply Halter|keeps_step].
Qed.

Lemma keeps_frame_fetch w0 env url : keeps (process_frame w0) (fetch_text env url).
Proof.
  unfold fetch_text. keeps_step; [keeps_step|]. apply keeps_get_bind. intros w1.
  destruct (s3_csv w1 !! url).
  - apply hoare_ret. by intros w [_ ?].
  - apply hoare_throw. by intros w [_ ?].
Qed.

Lemma keeps_frame_bulkCreate w0 collate env batch :
  keeps (process_frame w0) (bulkCreate collate env batch).
Proof.
  intros w (Hs & Hq & Hd & Hl).
  destruct (bulkCreate_frame collate env batch w) as (Hs' & Hc' & Hq' & Hl' & _).
  assert (process_frame w0 (bulkCreate collate env batch w).1) as H.
  { repeat split; [congruence|congruence|by rewrite Hc'|by etrans]. }
  by destruct (bulkCreate collate env batch w) as [w' [e|n]].
Qed.

Lemma keeps_frame_process_steps w0 isEmail collate csvParser env csvLogId s3Key :
  keeps (process_frame w0)
    (process_steps isEmail collate csvParser env csvLogId s3Key).
Proof.
  unfold process_steps.
  keeps_step; [apply keeps_frame_updateOne|].
  keeps_step; [apply keeps_generateDownloadUrl|].
  keeps_step; [apply keeps_frame_fetch|].
  keeps_step; [apply keeps_parse_csv|].
  keeps_step; [apply keeps_frame_bulkCreate|].
  apply keeps_frame_updateOne.
Qed.

(** X13. [processCsvFile] neither reads nor writes the queue, never writes the
    bucket, never adds or removes a status document and never changes a
    stored lead (it only appends). It rejects only when the write of the
    failure status itself throws. *)
Theorem processCsvFile_frame (isEmail : string → bool) (collate : string → string)
    (csvParser : string → exn + list record) (env : Env)
    (csvLogId s3Key : option string) (w w' : World) (r : exn + unit) :
  processCsvFile isEmail collate csvParser env csvLogId s3Key w = (w', r) →
  s3_csv w' = s3_csv w
  ∧ sqs w' = sqs w
  ∧ dom (csvlogs w') = dom (csvlogs w)
  ∧ leads (mysql w) `prefix_of` leads (mysql w')
  ∧ (∀ e, r = inl e → ∃ msg, fault env mark_failed = Some msg ∧ e = Error msg).
Proof.
  intros Hrun.
  assert (process_frame w w') as (?&?&?&?).
  { assert (keeps (process_frame w)
              (processCsvFile isEmail collate csvParser env csvLogId s3Key)) as Hk.
    { unfold processCsvFile. keeps_step; [apply keeps_frame_process_steps|].
      apply keeps_frame_updateOne. }
    specialize (Hk w (process_frame_refl w)). rewrite Hrun in Hk.
    by destruct r. }
  repeat split; try done.
  intros e ->. unfold processCsvFile, try_catch in Hrun.
  destruct (process_steps _ _ _ _ _ _ w) as [w1 [e1|[]]]; [|done].
  unfold CsvLog_updateOne, bind, await in Hrun.
  destruct (fault env mark_failed) as [msg|]; [injection Hrun as <- <-; by exists msg|].
  cbn in Hrun. destruct csvLogId; [done|]. by destruct (undefined_id env).
Qed.

Lemma processCsvFile_frame_witness :
  let run := processCsvFile Sample.is_address Sample.binary Sample.csv Sample.quiet
               (Some "65a000000000000000000001")
               (Some "csv/1700000000000-leads.csv") Sample.uploaded in
  run = (run.1, inr tt)
  ∧ s3_csv run.1 = s3_csv Sample.uploaded
  ∧ sqs run.1 = sqs Sample.uploaded
  ∧ dom (csvlogs run.1) = dom (csvlogs Sample.uploaded)
  ∧ leads (mysql Sample.uploaded) `prefix_of` leads (mysql run.1).
Proof.
  cbv zeta.
  assert (processCsvFile Sample.is_address Sample.binary Sample.csv Sample.quiet
            (Some "65a000000000000000000001")
            (Some "csv/1700000000000-leads.csv") Sample.uploaded
          = ((processCsvFile Sample.is_address Sample.binary Sample.csv Sample.quiet
                (Some "65a000000000000000000001")
                (Some "csv/1700000000000-leads.csv") Sample.uploaded).1, inr tt))
    as Hrun.
  { vm_compute. reflexivity. }
  split; [exact Hrun|].
  destruct (processCsvFile_frame _ _ _ _ _ _ _ _ _ Hrun) as (H1 & H2 & H3 & H4 & _).
  exact (conj H1 (conj H2 (conj H3 H4))).
Defined.

(** X14. A poll throws only when receiving fails, and then nothing has changed;
    a poll that receives no message changes nothing either. *)
Theorem pollQueue_throws_only_on_receive (isEmail : string → bool)
    (collate : string → string) (csvParser : string → exn + list record)
    (env : Env) (w : World) :
  (∀ e, (pollQueue isEmail collate csvParser env w).2 = inl e →
        ∃ msg, fault env sqs_receive = Some msg ∧ e = Error msg
               ∧ (pollQueue isEmail collate csvParser env w).1 = w)
  ∧ (fault env sqs_receive = None →
     pick env ≫= (λ i, sqs w !! i) = None →
     pollQueue isEmail collate csvParser env w = (w, inr tt)).
Proof.
  unfold pollQueue, bind, await, get, ret, throw.
  destruct (fault env sqs_receive) as [msg|]; cbn.
  { split; [|done]. intros e [= <-]. by exists msg. }
  split.
  - intros e. destruct (pick env ≫= λ i, sqs w !! i) as [m|]; cbn; [|done].
    pose proof (handle_message_never_throws isEmail collate csvParser env m w) as H.
    unfold bind.
    destruct (handle_message isEmail collate csvParser env m w) as [w' [e'|[]]];
      [done|]. done.
  - intros _ ->. done.
Qed.

Lemma bulkCreate_no_fault collate env batch w :
  fault env mysql_execute = None →
  ∃ w' n, bulkCreate collate env batch w = (w', inr n).
Proof.
  intros Hf. destruct batch as [|r0 batch'] eqn:Hb; [by eexists _, _|].
  rewrite <- Hb. rewrite bulkCreate_run by (by rewrite ?Hb). by eexists _, _.
Qed.

(** With every call succeeding, the [try] block runs to its end. *)
Lemma process_steps_no_fault isEmail collate csvParser env id key w content events :
  (∀ c, fault env c = None) →
  s3_csv w !! key = Some content →
  csvParser content = inr events →
  ∃ w', process_steps isEmail collate csvParser env (Some id) (Some key) w
        = (w', inr tt).
Proof.
  intros Hf Hc Hp.
  cbv [process_steps bind CsvLog_updateOne generateDownloadUrl fetch_text
       parse_csv await get ret throw set_csvlogs modify].
  rewrite !Hf. cbn [s3_csv]. rewrite Hc, Hp.
  match goal with
  | |- context [bulkCreate ?c ?e ?b ?w1] =>
      destruct (bulkCreate_no_fault c e b w1 (Hf _)) as (wb & n & ->)
  end.
  by eexists.
Qed.

(** X15. Upload, then one poll, with every call succeeding and a file the
    parser accepts: the poll takes the new message, the job ends [completed]
    with [total_rows] equal to the number of data rows, and the message is
    gone from the queue. *)
Theorem upload_then_poll_completes (isEmail : string → bool)
    (collate : string → string) (csvParser : string → exn + list record)
    (env1 env2 : Env) (file : MulterFile) (uid : Z) (w w1 : World)
    (oid key : string) (events : list record) :
  uploadCsvForProcessing env1 file uid w = (w1, inr (oid, key)) →
  (∀ c, fault env2 c = None) →
  pick env2 = Some (length (sqs w)) →
  csvParser (buffer file) = inr events →
  ∃ w2 l,
    pollQueue isEmail collate csvParser env2 w1 = (w2, inr tt)
    ∧ csvlogs w2 !! oid = Some l
    ∧ CsvLog.status l = completed
    ∧ CsvLog.total_rows l = length events
    ∧ CsvLog.failed_imports l = length (errors (collect isEmail events))
    ∧ CsvLog.successful_imports l
      = length (leads (mysql w2)) - length (leads (mysql w))
    ∧ sqs w2 = filter (λ m, ReceiptHandle m ≠ new_handle env1) (sqs w).
Proof.
  intros Hup Hf Hpick Hparse.
  destruct (upload_success _ _ _ _ _ _ _ Hup)
    as (-> & -> & Hfresh & Hs3 & Hdb & (doc & Hlogs & _) & (m & Hq & Hh & Hbody)).
  set (oid := new_oid env1) in *.
  set (key := csv_key (now env1) (originalname file)) in *.
  assert (s3_csv w1 !! key = Some (buffer file)) as Hobj.
  { by rewrite Hs3, lookup_insert_eq. }
  destruct (process_steps_no_fault isEmail collate csvParser env2 oid key w1
              (buffer file) events Hf Hobj Hparse) as (w1' & Hsteps).
  assert (csvlogs w1 !! oid = Some doc) as Hdoc.
  { by rewrite Hlogs, lookup_insert_eq. }
  destruct (completed_run_counters _ _ _ _ _ _ _ _ _ Hsteps Hdoc)
    as (key' & content & events' & l & [= <-] & Hc & Hp & Hl & Hst & Ht & Hfi & _ & _
        & Hlen & _ & _).
  rewrite Hobj in Hc. injection Hc as <-. rewrite Hparse in Hp. injection Hp as <-.
  assert (process_frame w1 w1') as (_ & Hq' & _ & _).
  { pose proof (keeps_frame_process_steps w1 isEmail collate csvParser env2
                  (Some oid) (Some key) w1 (process_frame_refl w1)) as Hk.
    by rewrite Hsteps in Hk. }
  assert (Body m = Some (JSON_stringify
            (JObject [ ("csvLogId", JString oid); ("s3Key", JString key);
                       ("userId", JNumber uid) ]))) as Hbody' by exact Hbody.
  pose proof (handle_message_success_deletes isEmail collate csvParser env2 m _
                w1 w1' Hbody' Hsteps (Hf _)) as Hhandle.
  eexists _, l. split; [|split; [|split; [done|split; [done|split; [done|split]]]]].
  - unfold pollQueue, bind at 1, await. rewrite Hf. cbn [ret].
    unfold bind at 1, get. rewrite Hpick, Hq. cbn [mbind option_bind].
    rewrite lookup_app_r, Nat.sub_diag by done. cbn [lookup list_lookup option_list for_each].
    change (option_list (Some m)) with [m]. cbn [for_each].
    unfold bind. rewrite Hhandle. reflexivity.
  - exact Hl.
  - cbn [mysql]. rewrite Hlen, Hdb. lia.
  - cbn [sqs]. rewrite Hq', Hq, filter_app, Hh. cbn.
    rewrite decide_False by (intros H; by apply H).
    by rewrite app_nil_r.
Qed.

Lemma upload_then_poll_completes_witness :
  uploadCsvForProcessing Sample.quiet Sample.leads_file 7 Sample.empty_world
  = (Sample.uploaded, inr ("65a000000000000000000001", "csv/1700000000000-leads.csv"))
  ∧ pick Sample.quiet = Some (length (sqs Sample.empty_world))
  ∧ Sample.csv (buffer Sample.leads_file) = inr [Sample.alice]
  ∧ ∃ w2 l,
      pollQueue Sample.is_address Sample.binary Sample.csv Sample.quiet Sample.uploaded
      = (w2, inr tt)
      ∧ csvlogs w2 !! "65a000000000000000000001" = Some l
      ∧ CsvLog.status l = completed
      ∧ CsvLog.total_rows l = 1
      ∧ sqs w2 = [].
Proof.
  assert (uploadCsvForProcessing Sample.quiet Sample.leads_file 7 Sample.empty_world
          = (Sample.uploaded,
             inr ("65a000000000000000000001", "csv/1700000000000-leads.csv"))) as Hup.
  { vm_compute. reflexivity. }
  assert (Sample.csv (buffer Sample.leads_file) = inr [Sample.alice]) as Hcsv.
  { vm_compute. reflexivity. }
  split; [exact Hup|]. split; [reflexivity|]. split; [exact Hcsv|].
  destruct (upload_then_poll_completes Sample.is_address Sample.binary Sample.csv
              Sample.quiet Sample.quiet _ _ _ _ _ _ [Sample.alice] Hup
              (λ _, eq_refl) eq_refl Hcsv)
    as (w2 & l & H1 & H2 & H3 & H4 & _ & _ & H5).
  exists w2, l. split; [exact H1|]. split; [exact H2|]. split; [exact H3|].
  split; [exact H4|]. exact H5.
Defined.

(** ** Single leads *)

Lemma head_filter_None {A} (P : A → Prop) `{!∀ x, Decision (P x)} (l : list A) :
  head (filter P l) = None → Forall (λ x, ¬ P x) l.
Proof.
  induction l as [|x l IH]; [constructor|].
  rewrite filter_cons. destruct (decide (P x)); [done|].
  intros Hnone. constructor; auto.
Qed.

Lemma filter_none {A} (P : A → Prop) `{!∀ x, Decision (P x)} (l : list A) :
  Forall (λ x, ¬ P x) l → filter P l = [].
Proof.
  induction 1 as [|x l Hx _ IH]; [done|].
  by rewrite filter_cons, decide_False.
Qed.

Lemma head_filter_Some {A} (P : A → Prop) `{!∀ x, Decision (P x)} (l : list A) x :
  head (filter P l) = Some x → x ∈ l ∧ P x.
Proof.
  intros Hh. apply head_Some_elem_of in Hh.
  by apply list_elem_of_filter in Hh as [? ?].
Qed.

Lemma phone_or_email_phone collate phone email l :
  collate (Lead.phone l) = collate phone →
  LeadModel.phone_or_email collate phone email l = true.
Proof.
  intros H. unfold LeadModel.phone_or_email. by rewrite bool_decide_true.
Qed.

(** A tuple that passes the service's check does not collide with the
    unique key. *)
Lemma no_match_no_duplicate collate tbl data :
  Forall (λ l, ¬ LeadModel.phone_or_email collate (ld_phone data) (ld_email data) l = true) tbl →
  duplicate_entry collate tbl (create_values data) = false.
Proof.
  intros H. unfold duplicate_entry. apply not_true_iff_false. intros Hex.
  apply existsb_exists in Hex as (l & Hl & Hk).
  apply list_elem_of_In in Hl.
  rewrite Forall_forall in H. apply (H l Hl).
  unfold unique_phone_email, same_key in Hk. cbn in Hk.
  destruct (or_else (ld_email data) None), (Lead.email l); try done.
  apply andb_true_iff in Hk as [Hp _]. apply bool_decide_eq_true in Hp.
  by apply phone_or_email_phone.
Qed.

Lemma filter_id_fresh (db : MySQL) :
  ids_fresh db →
  filter (λ l, Lead.id l = auto_increment db) (leads db) = []
  ∧ filter (λ l, Lead.id l ≠ auto_increment db) (leads db) = leads db.
Proof.
  intros [_ H]. induction H as [|l tbl Hl _ IH]; [done|].
  destruct IH as [IH1 IH2]. rewrite !filter_cons.
  rewrite decide_False by lia. rewrite decide_True by lia.
  by rewrite IH1, IH2.
Qed.

(** What [createLead] does to the table, whatever it returns: nothing, or
    one appended row whose phone no stored row has. *)
Lemma createLead_table collate fault data db :
  let db' := (LeadService.createLead collate fault data db).1 in
  (leads db' = leads db ∧ auto_increment db' = auto_increment db)
  ∨ (leads db' = leads db ++ [new_lead (auto_increment db) (create_values data)]
     ∧ auto_increment db' = S (auto_increment db)
     ∧ Forall (λ l, collate (Lead.phone l) ≠ collate (ld_phone data)) (leads db)).
Proof.
  cbv zeta. unfold LeadService.createLead.
  destruct (is_empty (ld_name data) || is_empty (ld_phone data)); [by left|].
  unfold LeadModel.findByPhoneOrEmail, LeadModel.create, LeadModel.findById,
    Svc.bind, Svc.execute, Svc.await, Svc.throw, Svc.ret.
  destruct (fault Svc.select_duplicate); [by left|]. cbn [leads].
  destruct (head (filter _ (leads db))) eqn:Hhead; [by left|].
  apply head_filter_None in Hhead.
  destruct (fault Svc.insert_lead); [by left|]. cbn [leads].
  rewrite no_match_no_duplicate by done.
  assert (Forall (λ l, collate (Lead.phone l) ≠ collate (ld_phone data)) (leads db)) as Hph.
  { eapply Forall_impl; [exact Hhead|]. intros l Hl Heq. apply Hl.
    by apply phone_or_email_phone. }
  right.
  destruct (fault Svc.select_by_id); [done|]. cbn [leads auto_increment].
  destruct (head _); [|done].
  destruct (fault Svc.cache_flush); [done|].
  destruct (fault Svc.cache_del); done.
Qed.

(** The row a successful [createLead] returns. *)
Lemma createLead_inserted collate fault data db db' lead :
  ids_fresh db →
  LeadService.createLead collate fault data db = (db', inr lead) →
  lead = new_lead (auto_increment db) (create_values data)
  ∧ leads db' = leads db ++ [lead]
  ∧ auto_increment db' = S (auto_increment db).
Proof.
  intros Hfresh. unfold LeadService.createLead.
  destruct (is_empty (ld_name data) || is_empty (ld_phone data)); [done|].
  unfold LeadModel.findByPhoneOrEmail, LeadModel.create, LeadModel.findById,
    Svc.bind, Svc.execute, Svc.await, Svc.throw, Svc.ret.
  destruct (fault Svc.select_duplicate); [done|]. cbn [leads].
  destruct (head (filter _ (leads db))) eqn:Hhead; [done|].
  apply head_filter_None in Hhead.
  destruct (fault Svc.insert_lead); [done|]. cbn [leads].
  rewrite no_match_no_duplicate by done.
  destruct (fault Svc.select_by_id); [done|]. cbn [leads auto_increment].
  rewrite filter_app, (proj1 (filter_id_fresh db Hfresh)).
  rewrite filter_cons, decide_True by done. cbn [app head filter].
  destruct (fault Svc.cache_flush); [done|].
  destruct (fault Svc.cache_del); [done|].
  by intros [= <- <-].
Qed.

(** X16. A lead [createLead] returns is the row it has just appended: it carries
    the next AUTO_INCREMENT id and the values of the request, status [NEW]
    when none was given, and no stored lead had its phone. *)
Theorem createLead_success (collate : string → string)
    (fault : Svc.call → option string) (data : LeadData) (db db' : MySQL)
    (lead : Lead.t) :
  ids_fresh db →
  LeadService.createLead collate fault data db = (db', inr lead) →
  lead = new_lead (auto_increment db) (create_values data)
  ∧ Lead.status lead = default NEW (ld_status data)
  ∧ leads db' = leads db ++ [lead]
  ∧ auto_increment db' = S (auto_increment db)
  ∧ Forall (λ l, collate (Lead.phone l) ≠ collate (ld_phone data)) (leads db)
  ∧ ids_fresh db'.
Proof.
  intros Hfresh Hc.
  destruct (createLead_inserted _ _ _ _ _ _ Hfresh Hc) as (-> & Hl & Hn).
  split; [done|]. split; [done|]. split; [done|]. split; [done|]. split.
  - destruct (createLead_table collate fault data db) as [[Hsame _]|(_ & _ & Hall)];
      [|done].
    rewrite Hc in Hsame. cbn [fst] in Hsame. rewrite Hl in Hsame.
    apply (f_equal length) in Hsame. rewrite length_app in Hsame. cbn in Hsame. lia.
  - destruct Hfresh as [Hnd Hlt]. split; rewrite ?Hl, ?Hn.
    + rewrite fmap_app. apply NoDup_app. split; [done|]. split.
      * intros i Hi Hi'. apply list_elem_of_singleton in Hi'. cbn in Hi'.
        apply list_elem_of_fmap in Hi as (l & -> & Hl').
        rewrite Forall_forall in Hlt. specialize (Hlt l Hl'). lia.
      * apply NoDup_singleton.
    + apply Forall_app. split.
      * eapply Forall_impl; [exact Hlt|]. cbn. lia.
      * constructor; [cbn; lia|constructor].
Qed.

Lemma createLead_success_witness :
  let run := LeadService.createLead Sample.binary SampleLeads.no_fault
               SampleLeads.carol SampleLeads.table in
  ids_fresh SampleLeads.table
  ∧ (∃ lead, run = (run.1, inr lead)
             ∧ Lead.id lead = 2 ∧ Lead.status lead = NEW
             ∧ leads run.1 = leads SampleLeads.table ++ [lead])
  ∧ ids_fresh run.1.
Proof.
  cbv zeta.
  assert (ids_fresh SampleLeads.table) as Hf.
  { split; cbn.
    - apply NoDup_singleton.
    - repeat constructor. }
  split; [exact Hf|].
  set (lead := new_lead 2 (create_values SampleLeads.carol)).
  assert (LeadService.createLead Sample.binary SampleLeads.no_fault
            SampleLeads.carol SampleLeads.table
          = ((LeadService.createLead Sample.binary SampleLeads.no_fault
                SampleLeads.carol SampleLeads.table).1, inr lead)) as Hrun.
  { vm_compute. reflexivity. }
  destruct (createLead_success _ _ _ _ _ _ Hf Hrun) as (_ & H2 & H3 & _ & _ & H6).
  split; [|exact H6]. exists lead. split; [exact Hrun|]. split; [reflexivity|].
  split; [exact H2|]. exact H3.
Defined.

Lemma phones_distinct_snoc collate tbl l :
  phones_distinct collate tbl →
  Forall (λ l', collate (Lead.phone l') ≠ collate (Lead.phone l)) tbl →
  phones_distinct collate (tbl ++ [l]).
Proof.
  intros Hd Hall i j li lj Hi Hj Hij.
  rewrite Forall_forall in Hall.
  apply lookup_snoc_Some in Hi as [[Hi Hli]|[Hi <-]];
  apply lookup_snoc_Some in Hj as [[Hj Hlj]|[Hj <-]].
  - by apply (Hd i j).
  - apply Hall. by eapply list_elem_of_lookup_2.
  - intros Heq. symmetry in Heq. revert Heq. apply Hall.
    by eapply list_elem_of_lookup_2.
  - lia.
Qed.

(** X17. The service check keeps phone numbers unique: if no two stored leads
    share a phone, the same holds after [createLead], whatever it returned
    or threw. *)
Theorem createLead_keeps_phones_distinct (collate : string → string)
    (fault : Svc.call → option string) (data : LeadData) (db : MySQL) :
  phones_distinct collate (leads db) →
  phones_distinct collate
    (leads (LeadService.createLead collate fault data db).1).
Proof.
  intros Hd.
  destruct (createLead_table collate fault data db) as [[-> _]|(-> & _ & Hall)];
    [done|].
  by apply phones_distinct_snoc.
Qed.

Lemma createLead_keeps_phones_distinct_witness :
  phones_distinct Sample.binary (leads SampleLeads.table)
  ∧ phones_distinct Sample.binary
      (leads (LeadService.createLead Sample.binary SampleLeads.no_fault
                SampleLeads.carol SampleLeads.table).1).
Proof.
  assert (phones_distinct Sample.binary (leads SampleLeads.table)) as Hd.
  { intros [|i] [|j] li lj Hi Hj Hij; try done. }
  split; [exact Hd|].
  apply (createLead_keeps_phones_distinct Sample.binary SampleLeads.no_fault
           SampleLeads.carol SampleLeads.table Hd).
Defined.

(** X18. Within one request the [INSERT] of [createLead] cannot fail on the
    unique key: the check before it is stronger than the key.  The service
    throws [Error], [ValidationError] or [ConflictError] only. *)
Theorem createLead_never_duplicate_entry (collate : string → string)
    (fault : Svc.call → option string) (data : LeadData) (db : MySQL)
    (msg : string) :
  (LeadService.createLead collate fault data db).2 ≠ inl (Svc.ER_DUP_ENTRY msg)
  ∧ (LeadService.createLead collate fault data db).2 ≠ inl (Svc.NotFoundError msg).
Proof.
  unfold LeadService.createLead.
  destruct (is_empty (ld_name data) || is_empty (ld_phone data)); [done|].
  unfold LeadModel.findByPhoneOrEmail, LeadModel.create, LeadModel.findById,
    Svc.bind, Svc.execute, Svc.await, Svc.throw, Svc.ret.
  destruct (fault Svc.select_duplicate); [done|]. cbn [leads].
  destruct (head (filter _ (leads db))) eqn:Hhead; [done|].
  apply head_filter_None in Hhead.
  destruct (fault Svc.insert_lead); [done|]. cbn [leads].
  rewrite no_match_no_duplicate by done.
  destruct (fault Svc.select_by_id); [done|]. cbn [leads auto_increment].
  destruct (head _); [|done].
  destruct (fault Svc.cache_flush); [done|].
  destruct (fault Svc.cache_del); done.
Qed.

(** X19. A request whose phone a stored lead already has is refused with
    [ConflictError] and inserts nothing, whatever its e-mail. *)
Theorem createLead_rejects_same_phone (collate : string → string)
    (fault : Svc.call → option string) (data : LeadData) (db : MySQL)
    (l : Lead.t) :
  is_empty (ld_name data) = false →
  is_empty (ld_phone data) = false →
  fault Svc.select_duplicate = None →
  l ∈ leads db →
  collate (Lead.phone l) = collate (ld_phone data) →
  (LeadService.createLead collate fault data db).2
  = inl (Svc.ConflictError "Lead with this phone or email already exists")
  ∧ leads (LeadService.createLead collate fault data db).1 = leads db.
Proof.
  intros Hn Hp Hf Hl Heq. unfold LeadService.createLead. rewrite Hn, Hp.
  cbn [orb].
  unfold LeadModel.findByPhoneOrEmail, Svc.bind, Svc.execute, Svc.throw.
  rewrite Hf. cbn [leads].
  destruct (head (filter _ (leads db))) eqn:Hhead; [done|].
  apply head_filter_None in Hhead. rewrite Forall_forall in Hhead.
  exfalso. apply (Hhead l Hl). by apply phone_or_email_phone.
Qed.

Lemma createLead_rejects_same_phone_witness :
  Sample.stored_lead (Some "a@x.com") ∈ leads SampleLeads.table
  ∧ Lead.phone (Sample.stored_lead (Some "a@x.com")) = ld_phone SampleLeads.alice_again
  ∧ Lead.email (Sample.stored_lead (Some "a@x.com")) ≠ ld_email SampleLeads.alice_again
  ∧ (LeadService.createLead Sample.binary SampleLeads.no_fault
       SampleLeads.alice_again SampleLeads.table).2
    = inl (Svc.ConflictError "Lead with this phone or email already exists")
  ∧ leads (LeadService.createLead Sample.binary SampleLeads.no_fault
             SampleLeads.alice_again SampleLeads.table).1
    = leads SampleLeads.table.
Proof.
  assert (Sample.stored_lead (Some "a@x.com") ∈ leads SampleLeads.table) as Hin.
  { apply list_elem_of_here. }
  split; [exact Hin|]. split; [reflexivity|]. split; [discriminate|].
  apply (createLead_rejects_same_phone Sample.binary SampleLeads.no_fault
           SampleLeads.alice_again SampleLeads.table
           (Sample.stored_lead (Some "a@x.com")));
    [reflexivity|reflexivity|reflexivity|exact Hin|reflexivity].
Defined.

(** X20. Deleting the lead [createLead] has just returned gives back the table
    as it was before the creation. *)
Theorem create_then_delete_restores_table (collate : string → string)
    (fault fault' : Svc.call → option string) (data : LeadData)
    (db db1 db2 : MySQL) (lead : Lead.t) :
  ids_fresh db →
  LeadService.createLead collate fault data db = (db1, inr lead) →
  LeadService.deleteLead fault' (Lead.id lead) db1 = (db2, inr tt) →
  leads db2 = leads db.
Proof.
  intros Hfresh Hc.
  destruct (createLead_inserted _ _ _ _ _ _ Hfresh Hc) as (-> & Hl & _).
  cbn [new_lead Lead.id].
  unfold LeadService.deleteLead, LeadModel.findById, LeadModel.delete,
    Svc.bind, Svc.execute, Svc.await, Svc.throw, Svc.ret.
  destruct (fault' Svc.select_by_id); [done|]. cbn [leads].
  destruct (head _); [|done].
  destruct (fault' Svc.delete_lead); [done|]. cbn [leads auto_increment executed].
  destruct (fault' Svc.cache_del); [done|].
  destruct (fault' Svc.cache_flush); [done|].
  intros [= <-]. cbn [leads]. rewrite Hl, filter_app.
  rewrite (proj2 (filter_id_fresh db Hfresh)).
  rewrite filter_cons, decide_False by (cbn; intros H; by apply H).
  by rewrite app_nil_r.
Qed.

Lemma create_then_delete_restores_table_witness :
  let db1 := (LeadService.createLead Sample.binary SampleLeads.no_fault
                SampleLeads.carol SampleLeads.table).1 in
  let db2 := (LeadService.deleteLead SampleLeads.no_fault 2 db1).1 in
  ids_fresh SampleLeads.table
  ∧ length (leads db1) = 2
  ∧ leads db2 = leads SampleLeads.table.
Proof.
  cbv zeta.
  assert (ids_fresh SampleLeads.table) as Hf.
  { split; cbn.
    - apply NoDup_singleton.
    - repeat constructor. }
  split; [exact Hf|]. split; [reflexivity|].
  apply (create_then_delete_restores_table Sample.binary SampleLeads.no_fault
           SampleLeads.no_fault SampleLeads.carol SampleLeads.table
           (LeadService.createLead Sample.binary SampleLeads.no_fault
              SampleLeads.carol SampleLeads.table).1
           (LeadService.deleteLead SampleLeads.no_fault 2
              (LeadService.createLead Sample.binary SampleLeads.no_fault
                 SampleLeads.carol SampleLeads.table).1).1
           (new_lead 2 (create_values SampleLeads.carol)) Hf).
  - vm_compute. reflexivity.
  - vm_compute. reflexivity.
Defined.

(** X21. After [deleteLead] has returned, no row carries the id, the other rows
    are all still there, and deleting the same id again throws
    [NotFoundError] without touching the table. *)
Theorem deleteLead_twice_not_found (fault fault' : Svc.call → option string)
    (id : nat) (db db' : MySQL) :
  LeadService.deleteLead fault id db = (db', inr tt) →
  fault' Svc.select_by_id = None →
  (∀ l, l ∈ leads db' ↔ l ∈ leads db ∧ Lead.id l ≠ id)
  ∧ (∃ l, l ∈ leads db ∧ Lead.id l = id)
  ∧ (LeadService.deleteLead fault' id db').2
    = inl (Svc.NotFoundError "Lead not found")
  ∧ leads (LeadService.deleteLead fault' id db').1 = leads db'.
Proof.
  unfold LeadService.deleteLead at 1.
  unfold LeadModel.findById, LeadModel.delete,
    Svc.bind, Svc.execute, Svc.await, Svc.throw, Svc.ret.
  destruct (fault Svc.select_by_id); [done|]. cbn [leads].
  destruct (head _) as [l0|] eqn:Hhead; [|done].
  apply head_filter_Some in Hhead as [Hin Hid].
  destruct (fault Svc.delete_lead); [done|]. cbn [leads auto_increment executed].
  destruct (fault Svc.cache_del); [done|].
  destruct (fault Svc.cache_flush); [done|].
  intros [= <-] Hf. cbn [leads].
  split; [|split; [by exists l0|]].
  - intros l. rewrite list_elem_of_filter. tauto.
  - unfold LeadService.deleteLead, LeadModel.findById, Svc.bind, Svc.execute,
      Svc.throw.
    rewrite Hf. cbn [leads].
    rewrite (filter_none (λ l, Lead.id l = id)); [done|].
    apply Forall_forall. intros l Hl. by apply list_elem_of_filter in Hl as [? _].
Qed.

Lemma deleteLead_twice_not_found_witness :
  let db' := (LeadService.deleteLead SampleLeads.no_fault 1 SampleLeads.table).1 in
  LeadService.deleteLead SampleLeads.no_fault 1 SampleLeads.table = (db', inr tt)
  ∧ (LeadService.deleteLead SampleLeads.no_fault 1 db').2
    = inl (Svc.NotFoundError "Lead not found")
  ∧ leads (LeadService.deleteLead SampleLeads.no_fault 1 db').1 = leads db'.
Proof.
  cbv zeta.
  assert (LeadService.deleteLead SampleLeads.no_fault 1 SampleLeads.table
          = ((LeadService.deleteLead SampleLeads.no_fault 1 SampleLeads.table).1,
             inr tt)) as Hrun.
  { vm_compute. reflexivity. }
  split; [exact Hrun|].
  destruct (deleteLead_twice_not_found SampleLeads.no_fault SampleLeads.no_fault
              1 SampleLeads.table _ Hrun eq_refl) as (_ & _ & H3 & H4).
  exact (conj H3 H4).
Defined.

Lemma count_by_status_total (tbl : list Lead.t) :
  length (filter (λ l, Lead.status l = NEW) tbl)
  + length (filter (λ l, Lead.status l = CONTACTED) tbl)
  + length (filter (λ l, Lead.status l = QUALIFIED) tbl)
  + length (filter (λ l, Lead.status l = CONVERTED) tbl)
  = length tbl.
Proof.
  induction tbl as [|l tbl IH]; [done|].
  rewrite !filter_cons.
  destruct (Lead.status l); repeat case_decide; try done; cbn [length]; lia.
Qed.

(** X22. The [total] of [getLeadStats], the sum over the object
    [countByStatus] returns, is the number of rows of [leads]; the object
    has the four statuses as its keys, in the order of the literal. *)
Theorem countByStatus_total (fault : Svc.call → option string)
    (db db' : MySQL) (byStatus : list (LeadStatus * nat)) :
  LeadModel.countByStatus fault db = (db', inr byStatus) →
  stats_total byStatus = length (leads db)
  ∧ byStatus.*1 = [NEW; CONTACTED; QUALIFIED; CONVERTED]
  ∧ (∀ s n, (s, n) ∈ byStatus →
            n = length (filter (λ l, Lead.status l = s) (leads db)))
  ∧ leads db' = leads db.
Proof.
  unfold LeadModel.countByStatus, Svc.bind, Svc.execute, Svc.throw.
  destruct (fault Svc.count_by_status); [done|]. cbn [leads].
  intros [= <- <-]. cbn [leads].
  pose proof (count_by_status_total (leads db)) as Htot.
  unfold LeadModel.group_by_status. cbn [omap list_omap].
  set (n1 := length (filter (λ l, Lead.status l = NEW) (leads db))) in *.
  set (n2 := length (filter (λ l, Lead.status l = CONTACTED) (leads db))) in *.
  set (n3 := length (filter (λ l, Lead.status l = QUALIFIED) (leads db))) in *.
  set (n4 := length (filter (λ l, Lead.status l = CONVERTED) (leads db))) in *.
  assert (∀ s n, (s, n) ∈ [(NEW, n1); (CONTACTED, n2); (QUALIFIED, n3); (CONVERTED, n4)] →
            n = length (filter (λ l, Lead.status l = s) (leads db))) as Hmem.
  { intros s n Hin.
    repeat (apply elem_of_cons in Hin as [[= -> ->]|Hin]; [done|]).
    by apply elem_of_nil in Hin. }
  clearbody n1 n2 n3 n4.
  destruct (decide (n1 = 0)) as [E1|E1], (decide (n2 = 0)) as [E2|E2],
    (decide (n3 = 0)) as [E3|E3], (decide (n4 = 0)) as [E4|E4];
    cbn; rewrite ?E1, ?E2, ?E3, ?E4 in Hmem;
    (split; [rewrite <- Htot; cbv -[Nat.add]; lia|split; [reflexivity|split; [exact Hmem|done]]]).
Qed.

Lemma countByStatus_total_witness :
  let run := LeadModel.countByStatus SampleLeads.no_fault SampleLeads.table in
  run = (run.1, inr [(NEW, 0); (CONTACTED, 1); (QUALIFIED, 0); (CONVERTED, 0)])
  ∧ stats_total [(NEW, 0); (CONTACTED, 1); (QUALIFIED, 0); (CONVERTED, 0)]
    = length (leads SampleLeads.table).
Proof.
  cbv zeta.
  assert (LeadModel.countByStatus SampleLeads.no_fault SampleLeads.table
          = ((LeadModel.countByStatus SampleLeads.no_fault SampleLeads.table).1,
             inr [(NEW, 0); (CONTACTED, 1); (QUALIFIED, 0); (CONVERTED, 0)]))
    as Hrun.
  { vm_compute. reflexivity. }
  split; [exact Hrun|].
  destruct (countByStatus_total _ _ _ _ Hrun) as (H1 & _). exact H1.
Defined.

(** ** Image uploads *)

(** X23. A key [generateImageUploadUrl] returns is [images/<uuid>.<ext>] with
    [ext] one of jpg, png, webp: for the types that pass the check the
    fallback extension [bin] is never used.  Every other type is refused. *)
Theorem image_key_extension (bucket region uuid : string)
    (failure : option string) (fileType : string) :
  (∀ key url,
     generateImageUploadUrl bucket region uuid failure fileType = inr (key, url) →
     fileType ∈ allowedTypes
     ∧ ∃ ext, ext ∈ ["jpg"; "png"; "webp"]
              ∧ key = "images/" +:+ uuid +:+ "." +:+ ext
              ∧ url = "https://" +:+ bucket +:+ ".s3." +:+ region
                      +:+ ".amazonaws.com/" +:+ key)
  ∧ (fileType ∉ allowedTypes →
     generateImageUploadUrl bucket region uuid failure fileType
     = inl (Error "Invalid file type. Only JPEG, PNG, and WebP images are allowed")).
Proof.
  unfold generateImageUploadUrl. split.
  - intros key url. case_bool_decide as Hin; [|done].
    destruct failure; [done|]. intros [= <- <-]. split; [done|].
    unfold allowedTypes in Hin.
    repeat (apply elem_of_cons in Hin as [->|Hin];
            [eexists; split; [|split; reflexivity];
             cbn; repeat first [apply list_elem_of_here | apply list_elem_of_further]|]).
    by apply elem_of_nil in Hin.
  - intros Hn. by rewrite bool_decide_false.
Qed.
